(** * nutrition-agent: the agent turn loop, the chat and upload endpoints
      and the web-search tool, embedded from the Python sources

    - [Py]        : the few pieces of the Python runtime the sources rely on
                    (exceptions as values, string helpers, truthiness);
    - [Messages]  : langchain's message classes and langgraph's
                    [add_messages] reducer, which [AgentState] annotates
                    its [messages] channel with;
    - [Workflow]  : src/app/agent/workflow.py, with the loop of the graph
                    runtime that executes the compiled graph (supersteps,
                    step budget, checkpoints per thread);
    - [Websearch] : src/app/tools/websearch.py;
    - [Main]      : src/main.py. *)

From Stdlib Require Import ZArith Lia Ascii.
From stdpp Require Import base strings list gmap pretty.

(* ===================================================================== *)
(** ** Python runtime fragments *)
(* ===================================================================== *)

Module Py.

(** Exception classes that occur in the sources or in the libraries they
    call.  All of them derive from [Exception]; [ModuleNotFoundError]
    derives from [ImportError]. *)
Inductive exn_class :=
| ImportError | ModuleNotFoundError | ValueError | FileNotFoundError
| RuntimeError | AttributeError | TypeError | IndexError | OSError
| GraphRecursionError | HTTPException (status_code : nat) | OtherException.

(** An exception value: its class and [str(e)]. *)
Record exn := Exn { exn_cls : exn_class; exn_str : string }.

(** [isinstance(e, ImportError)] *)
Definition is_ImportError (e : exn) : bool :=
  match exn_cls e with
  | ImportError | ModuleNotFoundError => true
  | _ => false
  end.

(** A computation that returns a value or raises. *)
Inductive result (A : Type) :=
| Return (a : A)
| Raise (e : exn).
Arguments Return {A} a.
Arguments Raise {A} e.

(** Sequencing: the first exception raised aborts what follows.  With
    these instances stdpp's [x ← r; k] notation reads as Python's
    statement sequence. *)
Global Instance result_ret : MRet result := @Return.
Global Instance result_bind : MBind result := λ A B k r,
  match r with
  | Return a => k a
  | Raise e => Raise e
  end.

(** [try: body except Exception as e: handler(e)] *)
Definition try_except {A} (body : result A) (handler : exn → result A)
    : result A :=
  match body with
  | Return a => Return a
  | Raise e => handler e
  end.

(** Truthiness of [str] and [list], and of their [Optional]s. *)
Definition truthy_str (s : string) : bool :=
  match s with "" => false | _ => true end.
Definition truthy_list {A} (l : list A) : bool :=
  match l with [] => false | _ => true end.
Definition truthy_opt {A} (t : A → bool) (o : option A) : bool :=
  match o with None => false | Some a => t a end.

(** [sep.join(parts)] *)
Fixpoint join (sep : string) (parts : list string) : string :=
  match parts with
  | [] => ""
  | [p] => p
  | p :: rest => p +:+ sep +:+ join sep rest
  end.

(** [s.lower()] on ASCII text. *)
Definition lower_ascii (c : ascii) : ascii :=
  let n := Ascii.nat_of_ascii c in
  if (65 <=? n)%nat && (n <=? 90)%nat then Ascii.ascii_of_nat (n + 32) else c.
Fixpoint lower (s : string) : string :=
  match s with
  | EmptyString => EmptyString
  | String c s' => String (lower_ascii c) (lower s')
  end.

(** [s.endswith(suffix)] and the tuple form [s.endswith((a, b, ...))]. *)
Definition endswith (s suffix : string) : bool :=
  String.prefix (String.rev suffix) (String.rev s).
Definition endswith_any (s : string) (suffixes : list string) : bool :=
  existsb (endswith s) suffixes.

(** [os.path.splitext(p)[1]]: the text from the last dot of the last
    path component, provided a character other than a dot precedes that
    dot inside the component; otherwise the empty string. *)
Fixpoint splitext_go (s : string) (seen_nondot : bool) (ext : option string)
  : option string :=
  match s with
  | EmptyString => ext
  | String c s' =>
      if Ascii.eqb c "/"%char then splitext_go s' false None
      else if Ascii.eqb c "."%char then
        splitext_go s' seen_nondot (if seen_nondot then Some s else ext)
      else splitext_go s' true ext
  end.
Definition splitext_ext (p : string) : string :=
  default "" (splitext_go p false None).

End Py.

Import Py.

(* ===================================================================== *)
(** ** Messages and the [add_messages] reducer *)
(* ===================================================================== *)

Module Messages.

(** One entry of [AIMessage.tool_calls]. *)
Record ToolCall := mkToolCall {
  tc_name : string;
  tc_args : list (string * string);
  tc_id : string;
}.

(** The message classes the program builds or receives.  Every message
    has [content] and [id] ([None] until a reducer assigns one); only an
    [AIMessage] has the attribute [tool_calls]. *)
Inductive Message :=
| HumanMessage (content : string) (id : option string)
| AIMessage (content : string) (tool_calls : list ToolCall) (id : option string)
| ToolMessage (content : string) (tool_call_id : string) (id : option string)
| SystemMessage (content : string) (id : option string).

Definition content (m : Message) : string :=
  match m with
  | HumanMessage c _ | AIMessage c _ _ | ToolMessage c _ _ | SystemMessage c _ => c
  end.

Definition msg_id (m : Message) : option string :=
  match m with
  | HumanMessage _ i | AIMessage _ _ i | ToolMessage _ _ i | SystemMessage _ i => i
  end.

Definition set_id (i : option string) (m : Message) : Message :=
  match m with
  | HumanMessage c _ => HumanMessage c i
  | AIMessage c t _ => AIMessage c t i
  | ToolMessage c t _ => ToolMessage c t i
  | SystemMessage c _ => SystemMessage c i
  end.

(** [getattr(m, "tool_calls")] where [hasattr(m, "tool_calls")]. *)
Definition tool_calls_attr (m : Message) : option (list ToolCall) :=
  match m with
  | AIMessage _ t _ => Some t
  | _ => None
  end.

Definition ids (ms : list Message) : list (option string) := msg_id <$> ms.

Section Reducer.

(** [uuid4 n] is the text of the [n]-th identifier drawn from
    [uuid.uuid4()] since the process started; the number of draws made
    so far is threaded through the reducer. *)
Variable uuid4 : nat → string.

(** "assign missing ids": [if m.id is None: m.id = str(uuid.uuid4())]. *)
Fixpoint assign_ids (ms : list Message) (g : nat) : list Message * nat :=
  match ms with
  | [] => ([], g)
  | m :: ms' =>
      match msg_id m with
      | None =>
          let '(r, g') := assign_ids ms' (S g) in
          (set_id (Some (uuid4 g)) m :: r, g')
      | Some _ =>
          let '(r, g') := assign_ids ms' g in
          (m :: r, g')
      end
  end.

(** [{m.id: i for i, m in enumerate(merged)}]: a later message with the
    same id overrides an earlier one. *)
Fixpoint index_by_id (ms : list Message) (i : nat)
    (d : gmap (option string) nat) : gmap (option string) nat :=
  match ms with
  | [] => d
  | m :: ms' => index_by_id ms' (S i) (<[msg_id m := i]> d)
  end.

(** The body of the merge loop over [right]: a message whose id is
    already indexed replaces the message at that position, any other
    message is appended and indexed. *)
Definition merge_step (acc : list Message * gmap (option string) nat)
    (m : Message) : list Message * gmap (option string) nat :=
  let '(merged, merged_by_id) := acc in
  match merged_by_id !! msg_id m with
  | Some existing_idx => (<[existing_idx := m]> merged, merged_by_id)
  | None => (merged ++ [m], <[msg_id m := length merged]> merged_by_id)
  end.

Definition merge (left right : list Message) : list Message :=
  fst (foldl merge_step (left, index_by_id left 0 ∅) right).

(** [add_messages(left, right)].  The program never builds a
    [RemoveMessage], so the removal branch of the library function is
    not modelled. *)
Definition add_messages (left right : list Message) (g : nat)
    : list Message * nat :=
  let '(left', g1) := assign_ids left g in
  let '(right', g2) := assign_ids right g1 in
  (merge left' right', g2).

(** What the merge does to a history whose ids are pairwise distinct,
    as a function on the list alone. *)
Fixpoint upsert (m : Message) (ms : list Message) : list Message :=
  match ms with
  | [] => [m]
  | x :: ms' =>
      if decide (msg_id x = msg_id m) then m :: ms' else x :: upsert m ms'
  end.

End Reducer.

End Messages.

Import Messages.

(* ===================================================================== *)
(** ** src/app/agent/workflow.py *)
(* ===================================================================== *)

Module Workflow.

(** [class AgentState(TypedDict)]: the single channel [messages], reduced
    with [add_messages]. *)
Record AgentState := mkState { messages : list Message }.

(** The two nodes added with [add_node], and the targets of edges. *)
Inductive node := agent | tool.
Inductive target := Node (n : node) | END.

(** Where one invocation of the compiled graph stands: a node is due, the
    graph reached [END], or a task or the runtime raised. *)
Inductive status :=
| Next (n : node)
| Finished
| Failed (e : exn).

(** The runtime's loop state during one invocation: the channel value,
    the number of uuids drawn so far, the supersteps executed, the
    status, and the values streamed so far ([stream_mode="values"]). *)
Record loop := mkLoop {
  state : AgentState;
  uuid_draws : nat;
  step : nat;
  stat : status;
  emitted : list AgentState;
}.

(** [checkpointer = MemorySaver()]: the latest channel value per
    [thread_id], together with the process-wide count of uuid draws. *)
Record world := mkWorld {
  checkpoints : gmap string AgentState;
  drawn : nat;
}.

Definition is_terminal (s : status) : bool :=
  match s with Next _ => false | _ => true end.

Section Graph.

Variable uuid4 : nat → string.
(** The text of the system prompt built in [llm_call]. *)
Variable system_prompt : string.
(** [llm_with_tool.invoke]: the provider's answer to a message list, or
    the exception the call raises. *)
Variable llm_with_tool : list Message → result Message.
(** What [ToolNode] puts in the [ToolMessage] answering one tool call:
    the tool's output, or the text describing why the call failed. *)
Variable run_tool : ToolCall → string.
(** The step budget of one invocation, [config["recursion_limit"]]: a run
    that has used it up without reaching [END] is stopped by the runtime
    with [GraphRecursionError].  [build_workflow] wires no bound of its
    own into the graph, and neither [main.chat] nor [app.app] sets the
    key, so the runtime's default is the bound in force.  The runtime
    refuses a limit below 1 before it runs or saves anything, with
    [ValueError]; what follows describes an invocation under a limit it
    accepts, of at least 1. *)
Variable recursion_limit : nat.

Definition llm_call (state : AgentState) : result AgentState :=
  response ← llm_with_tool (SystemMessage system_prompt None :: messages state);
  mret {| messages := messages state ++ [response] |}.

Definition decision_node (state : AgentState) : result string :=
  match last (messages state) with
  | None => Raise (Exn IndexError "list index out of range")
  | Some last_message =>
      match tool_calls_attr last_message with
      | Some (_ :: _) => Return "continue"
      | _ => Return "end"
      end
  end.

(** The path map of [add_conditional_edges]. *)
Definition path_map (route : string) : option target :=
  if decide (route = "continue") then Some (Node tool)
  else if decide (route = "end") then Some END
  else None.

(** [ToolNode(tools=tools)]: one [ToolMessage] per call of the last
    message, in the order of the calls. *)
Definition tool_node (state : AgentState) : result AgentState :=
  match last (messages state) with
  | Some (AIMessage _ calls _) =>
      Return {| messages := (λ c, ToolMessage (run_tool c) (tc_id c) None) <$> calls |}
  | _ => Raise (Exn ValueError "Last message is not an AIMessage")
  end.

Definition run_node (n : node) : AgentState → result AgentState :=
  match n with
  | agent => llm_call
  | tool => tool_node
  end.

(** The edges leaving a node, evaluated on the channel value after the
    node's update: [agent] has the conditional edge, [tool] the plain
    edge back to [agent]. *)
Definition edge_from (n : node) (after : AgentState) : result target :=
  match n with
  | agent =>
      route ← decision_node after;
      match path_map route with
      | Some t => Return t
      | None => Raise (Exn ValueError "unknown branch")
      end
  | tool => Return (Node agent)
  end.

Definition fail (l : loop) (e : exn) : loop :=
  {| state := state l; uuid_draws := uuid_draws l; step := step l;
     stat := Failed e; emitted := emitted l |}.

(** The runtime's error for a used-up step budget.  Releases of the
    runtime that number their errors put one more line after this text,
    with the address of a troubleshooting page. *)
Definition recursion_error : exn :=
  Exn GraphRecursionError
    ("Recursion limit of " +:+ pretty recursion_limit +:+
     " reached without hitting a stop condition. You can increase the " +:+
     "limit by setting the `recursion_limit` config key.").

(** One turn of the runtime's loop: if a node is due and the step
    budget is not used up, run the node, reduce its update into the
    channel, stream the new value and follow the node's edge. *)
Definition superstep (l : loop) : loop :=
  match stat l with
  | Next n =>
      if decide (recursion_limit ≤ step l) then fail l recursion_error
      else
        match run_node n (state l) with
        | Raise e => fail l e
        | Return update =>
            let '(ms, g) :=
              add_messages uuid4 (messages (state l)) (messages update)
                (uuid_draws l) in
            let after := {| messages := ms |} in
            match edge_from n after with
            | Raise e => fail l e
            | Return t =>
                {| state := after; uuid_draws := g; step := S (step l);
                   stat := match t with Node n' => Next n' | END => Finished end;
                   emitted := emitted l ++ [after] |}
            end
        end
  | _ => l
  end.

(** The loop state once the input has been reduced into the saved
    value of the thread ([START → agent] is then due). *)
Definition enter (saved : AgentState) (g : nat) (input : AgentState) : loop :=
  let '(ms, g') := add_messages uuid4 (messages saved) (messages input) g in
  {| state := {| messages := ms |}; uuid_draws := g'; step := 0;
     stat := Next agent; emitted := [ {| messages := ms |} ] |}.

(** [while loop.tick(): ...] unrolled [n] times. *)
Definition ticks (n : nat) (l : loop) : loop := Nat.iter n superstep l.

(** One invocation of the compiled graph on a thread, under a limit of
    at least 1: resume the thread's saved value, run the loop (its step
    budget bounds the number of turns), save the value reached. *)
Definition invoke_on (w : world) (thread_id : string) (input : AgentState)
    : world * loop :=
  let saved := default {| messages := [] |} (checkpoints w !! thread_id) in
  let final := ticks (S recursion_limit) (enter saved (drawn w) input) in
  ({| checkpoints := <[thread_id := state final]> (checkpoints w);
      drawn := uuid_draws final |}, final).

(** [build_workflow()]: the compiled graph with its checkpointer, as the
    function that runs one invocation of it. *)
Definition build_workflow : world → string → AgentState → world * loop :=
  invoke_on.

(** [workflow.invoke(input, config)] as [app.app] uses it: the final
    channel value, or the exception. *)
Definition invoke (w : world) (thread_id : string) (input : AgentState)
    : world * result AgentState :=
  let '(w', final) := build_workflow w thread_id input in
  (w', match stat final with
       | Failed e => Raise e
       | _ => Return (state final)
       end).

(** [app.app]'s printed output: [result["messages"][-1].content]. *)
Definition turn_output (r : AgentState) : option string :=
  content <$> last (messages r).

End Graph.

End Workflow.

Import Workflow.

(* ===================================================================== *)
(** ** src/app/tools/websearch.py *)
(* ===================================================================== *)

Module Websearch.

(** A value stored under a key of a result: all the tool observes of it
    is its [str()] (in the f-strings) and its truth value. *)
Record pyval := mkVal { py_str : string; py_truthy : bool }.

Definition str_val (s : string) : pyval :=
  {| py_str := s; py_truthy := truthy_str s |}.

(** An element of the search results: a dict, or an object of another
    type, which has no [get]. *)
Inductive item :=
| Dict (d : list (string * pyval))
| NotDict (type_name : string).

(** What [tavily_tool.invoke] returns: something iterable with its
    elements in order, or an object that cannot be iterated, of which
    the type name and the truth value matter. *)
Inductive search_value :=
| Items (l : list item)
| NotIterable (type_name : string) (truthy : bool).

(** A dict as the tool meets it: a dict is true when it has a key, and
    iterating it gives its keys, which are strings. *)
Definition dict_value (keys : list string) : search_value :=
  Items ((λ _, NotDict "str") <$> keys).

Definition nl : string := String (Ascii.ascii_of_nat 10) "".

(** [d.get(key)] with [None] as the missing value, reduced to whether a
    value is there. *)
Fixpoint dict_get (d : list (string * pyval)) (key : string) : option pyval :=
  match d with
  | [] => None
  | (k, v) :: d' => if decide (k = key) then Some v else dict_get d' key
  end.

(** [result.get(key, dflt)] *)
Definition get (result : item) (key : string) (dflt : pyval) : Py.result pyval :=
  match result with
  | Dict d => Return (default dflt (dict_get d key))
  | NotDict ty =>
      Raise (Exn AttributeError ("'" +:+ ty +:+ "' object has no attribute 'get'"))
  end.

Definition none_val : pyval := {| py_str := "None"; py_truthy := false |}.

Definition truthy (v : search_value) : bool :=
  match v with
  | Items l => truthy_list l
  | NotIterable _ t => t
  end.

(** The iteration [enumerate(results, 1)] starts. *)
Definition iter (v : search_value) : Py.result (list item) :=
  match v with
  | Items l => Return l
  | NotIterable ty _ =>
      Raise (Exn TypeError ("'" +:+ ty +:+ "' object is not iterable"))
  end.

(** The body of the [for] loop: the lines one result adds. *)
Definition format_result (idx : nat) (result : item) : Py.result string :=
  title ← get result "title" (str_val "No title");
  url ← get result "url" (str_val "No URL");
  body ← get result "content" (str_val "No content");
  score ← get result "score" none_val;
  mret (pretty idx +:+ ". " +:+ py_str title +:+ nl +:+
        "   URL: " +:+ py_str url +:+ nl +:+
        "   Content: " +:+ py_str body +:+ nl +:+
        (if py_truthy score
         then "   Relevance Score: " +:+ py_str score +:+ nl else "") +:+
        nl).

(** The [for] loop from index [idx] on, extending [formatted_output]. *)
Fixpoint format_results (idx : nat) (results : list item)
    (formatted_output : string) : Py.result string :=
  match results with
  | [] => Return formatted_output
  | result :: rest =>
      lines ← format_result idx result;
      format_results (S idx) rest (formatted_output +:+ lines)
  end.

Section Tool.

(** [tavily_tool.invoke({"query": query})]. *)
Variable tavily_invoke : string → Py.result search_value.

(** The [try] block. *)
Definition search_body (query : string) : Py.result string :=
  results ← tavily_invoke query;
  if negb (truthy results) then Return "No results found for the query."
  else
    l ← iter results;
    format_results 1 l ("Search Results for: '" +:+ query +:+ "'" +:+ nl +:+ nl).

Definition web_search_nutrition (query : string) : Py.result string :=
  try_except (search_body query)
    (λ e, Return ("Error performing web search: " +:+ exn_str e)).

End Tool.

End Websearch.

(* ===================================================================== *)
(** ** src/main.py *)
(* ===================================================================== *)

Module Main.

Record ChatMessage := mkChatMessage { role : string; content : string }.

Record ChatRequest := mkChatRequest {
  message : option string;
  messages : option (list string);
  history : option (list ChatMessage);
}.

(** [ChatResponse]; [role] defaults to ["assistant"]. *)
Record ChatResponse := mkChatResponse { resp_role : string; resp_content : string }.
Definition ChatResponse_of (content : string) : ChatResponse :=
  {| resp_role := "assistant"; resp_content := content |}.

(** [UploadResponse]: the model has no field [analysis], so the keyword
    passed at the end of [upload_image] is dropped by the model. *)
Record UploadResponse := mkUploadResponse {
  status : string;
  detail : string;
  document_path : option string;
}.

(** The validator run after the fields are parsed. *)
Definition ensure_message (self : ChatRequest) : result ChatRequest :=
  if negb (truthy_opt truthy_str (message self))
     && negb (truthy_opt truthy_list (messages self))
  then Raise (Exn ValueError "Either 'message' or 'messages' must be provided.")
  else Return self.

Definition paragraph_sep : string := Websearch.nl +:+ Websearch.nl.

Definition combined_message (self : ChatRequest) : string :=
  if truthy_opt truthy_str (message self) then default "" (message self)
  else if truthy_opt truthy_list (messages self)
       then join paragraph_sep (default [] (messages self))
  else "".

(** What [get_user_id] reads from the machine the server runs on. *)
Record host := mkHost {
  getuser : result string;
  node_name : string;
  md5_hexdigest : string → string;
}.

Definition get_user_id (h : host) : result string :=
  username ← getuser h;
  let user_info := username +:+ "@" +:+ node_name h in
  let user_hash := String.substring 0 8 (md5_hexdigest h user_info) in
  mret ("user_" +:+ user_hash).

(** The [except] clauses of [chat]. *)
Definition chat_handler (e : exn) : result ChatResponse :=
  if is_ImportError e
  then Return (ChatResponse_of ("**Configuration Error:** " +:+ exn_str e))
  else Return (ChatResponse_of ("**Error:** " +:+ exn_str e)).

Definition history_message (msg : ChatMessage) : Message :=
  if decide (role msg = "user") then HumanMessage (content msg) None
  else AIMessage (content msg) [] None.

(** The body of [for step in workflow_app.stream(...)], over the values
    the stream yields. *)
Fixpoint consume (steps : list AgentState) (response_content : string)
    : result string :=
  match steps with
  | [] => Return response_content
  | step :: rest =>
      match last (Workflow.messages step) with
      | None => Raise (Exn IndexError "list index out of range")
      | Some m => consume rest (Messages.content m)
      end
  end.

Definition apology : string :=
  "I apologize, but I couldn't generate a response. " +:+
  "Please try rephrasing your question.".

Section Chat.

Variable uuid4 : nat → string.
Variable system_prompt : string.
Variable llm_with_tool : list Message → result Message.
Variable run_tool : ToolCall → string.
Variable recursion_limit : nat.
Variable h : host.

(** [workflow_app = build_workflow()] *)
Definition workflow_app : world → string → AgentState → world * loop :=
  build_workflow uuid4 system_prompt llm_with_tool run_tool recursion_limit.

(** The [config] of the request: its [thread_id]. *)
Definition chat_thread_id (req : ChatRequest) : result string :=
  uid ← get_user_id h;
  mret (uid +:+ "_api_session").

Definition input_messages (req : ChatRequest) : list Message :=
  (if truthy_opt truthy_list (history req)
   then history_message <$> default [] (history req) else [])
  ++ [HumanMessage (combined_message req) None].

(** The [try] block of [chat]: the world it leaves behind and the
    response content, or the exception that ended it. *)
Definition chat_try (w : world) (req : ChatRequest) : world * result string :=
  match chat_thread_id req with
  | Raise e => (w, Raise e)
  | Return thread_id =>
      let '(w', final) :=
        workflow_app w thread_id {| Workflow.messages := input_messages req |} in
      (w',
       response_content ← consume (emitted final) "";
       match stat final with
       | Failed e => Raise e
       | _ =>
           if negb (truthy_str response_content) then Return apology
           else Return response_content
       end)
  end.

Definition chat (w : world) (req : ChatRequest) : world * result ChatResponse :=
  let '(w', r) := chat_try w req in
  (w', try_except (c ← r; mret (ChatResponse_of c)) chat_handler).

End Chat.

(** *** The upload endpoint *)

Definition bytes := list Byte.byte.

(** [UploadFile]: the name the client sent and what [file.read()] gives. *)
Record UploadFile := mkUploadFile { filename : string; contents : bytes }.

(** The value stored under ["analysis_response"]: the dict returned by
    [analyze_meal_image] (kept as its JSON text), or [{"error": str(e)}]. *)
Inductive analysis :=
| AnalysisDict (json : string)
| ErrorResult (error : string).

(** One element of the array in [meals.json].  Records written by
    [upload_image] have every key; a record from elsewhere may lack
    ["id"], which [meal.get("id", 0)] reads as 0. *)
Record meal := mkMeal {
  id : option Z;
  name : string;
  description : string;
  image_path : string;
  upload_date : string;
  user_id : string;
  analysis_response : option analysis;
}.

(** [app/tools/meals.json]: missing, a JSON array of records, or
    something [json.load] raises on. *)
Inductive json_file :=
| Absent
| Array (meals_data : list meal)
| Malformed (e : exn).

(** How the block that writes the temporary copy can fail.  Either
    [NamedTemporaryFile] raises and no file is made; or the file is made
    and [file.read()] or [tmp.write] raises, and then what was written
    until then stays under the temporary name: the file is opened with
    [delete=False] and the handler of the block removes nothing. *)
Inductive tmp_fault :=
| CreateFails (e : exn)
| WriteFails (e : exn) (written : bytes).

(** How [with open(meals_json_path, 'w') ...: json.dump(...)] can fail.
    Either [open] raises and the file is as it was; or [open] has
    emptied the file and the dump, or flushing it, raises before the
    text is complete, and then the file holds a cut-off text, on which
    [json.load] raises [unreadable]. *)
Inductive store_fault :=
| OpenFails (e : exn)
| DumpFails (e : exn) (unreadable : exn).

Definition tmp_exn (f : tmp_fault) : exn :=
  match f with CreateFails e | WriteFails e _ => e end.

Definition store_exn (f : store_fault) : exn :=
  match f with OpenFails e | DumpFails e _ => e end.

(** The parts of the file system the endpoint touches: the system's
    temporary directory, the content directory [uploads/meals], and the
    record store. *)
Record disk := mkDisk {
  tmpdir : gmap string bytes;
  uploads_meals : gmap string bytes;
  meals_json : json_file;
}.

(** What the endpoint takes from its environment during one request:
    the name [NamedTemporaryFile] picks for a suffix, the verdict of
    [Image.open(..).verify()] on file contents, the two readings of the
    clock, the outcome of [analyze_meal_image] (or of importing it), and
    the operating-system failures that may hit each file operation. *)
Record upload_env := mkEnv {
  mkstemp : string → string;
  image_verify : bytes → option exn;
  strftime_now : string;
  isoformat_now : string;
  analyze_meal_image : string → string → result string;
  tmp_write_error : option tmp_fault;
  remove_fails : bool;
  makedirs_error : option exn;
  move_error : option exn;
  json_write_error : option store_fault;
}.

Definition allowed_extensions : list string := [".png"; ".jpg"; ".jpeg"].

Definition http (status_code : nat) (detail : string) : exn :=
  Exn (HTTPException status_code) detail.

(** [os.remove(path)] inside [try: ... except Exception: pass]. *)
Definition remove_tmp (e : upload_env) (d : disk) (path : string) : disk :=
  if remove_fails e then d
  else {| tmpdir := delete path (tmpdir d);
          uploads_meals := uploads_meals d; meals_json := meals_json d |}.

Definition remove_upload (e : upload_env) (d : disk) (path : string) : disk :=
  if remove_fails e then d
  else {| tmpdir := tmpdir d;
          uploads_meals := delete path (uploads_meals d);
          meals_json := meals_json d |}.

(** The nested [validate_image(path)]. *)
Definition validate_image (e : upload_env) (d : disk) (path : string)
    : result unit :=
  match tmpdir d !! path with
  | None => Raise (http 400 ("Invalid image file: " +:+ "No such file"))
  | Some b =>
      match image_verify e b with
      | Some err => Raise (http 400 ("Invalid image file: " +:+ exn_str err))
      | None => Return ()
      end
  end.

(** [max(xs, default=dflt)] *)
Definition max_default (xs : list Z) (dflt : Z) : Z :=
  match xs with
  | [] => dflt
  | x :: xs' => foldl Z.max x xs'
  end.

(** [max([meal.get("id", 0) for meal in meals_data], default=0) + 1] *)
Definition new_id (meals_data : list meal) : Z :=
  (max_default ((λ m, default 0%Z (id m)) <$> meals_data) 0 + 1)%Z.

Definition uploads_dir : string := "uploads/meals".

Definition new_filename (e : upload_env) (file : UploadFile) (i : Z) : string :=
  "meals_" +:+ pretty i +:+ "_" +:+ strftime_now e +:+ splitext_ext (filename file).

Definition final_image_path (e : upload_env) (file : UploadFile) (i : Z) : string :=
  uploads_dir +:+ "/" +:+ new_filename e file i.

(** The inner [try] around the vision call: whatever it raises becomes
    the stored analysis. *)
Definition analysis_result (e : upload_env) (path description : string)
    : analysis :=
  let question :=
    if truthy_str description then description +:+ " with this image"
    else "Analyze this meal image" in
  match analyze_meal_image e path question with
  | Return a => AnalysisDict a
  | Raise err => ErrorResult (exn_str err)
  end.

Section Upload.

Variable h : host.
Variable e : upload_env.

(** The outer [try] block from reading [meals.json] to the response.
    Besides the disk and the outcome it tells whether the local
    [final_image_path] was bound when the block ended. *)
Definition save_meal (d : disk) (file : UploadFile) (tmp_path descr : string)
    : disk * option string * result UploadResponse :=
  match meals_json d with
  | Malformed err => (d, None, Raise err)
  | stored =>
      let meals_data := match stored with Array l => l | _ => [] end in
      let i := new_id meals_data in
      let final := final_image_path e file i in
      match move_error e, tmpdir d !! tmp_path with
      | Some err, _ => (d, Some final, Raise err)
      | None, None =>
          (d, Some final, Raise (Exn FileNotFoundError tmp_path))
      | None, Some b =>
          let d1 := {| tmpdir := delete tmp_path (tmpdir d);
                       uploads_meals := <[final := b]> (uploads_meals d);
                       meals_json := meals_json d |} in
          match get_user_id h with
          | Raise err => (d1, Some final, Raise err)
          | Return uid =>
              let new_meals :=
                {| id := Some i;
                   name := filename file;
                   description :=
                     if truthy_str descr then descr
                     else "No description provided";
                   image_path := final;
                   upload_date := isoformat_now e;
                   user_id := uid;
                   analysis_response := Some (analysis_result e final descr) |} in
              match json_write_error e with
              | Some (OpenFails err) => (d1, Some final, Raise err)
              | Some (DumpFails err unreadable) =>
                  ({| tmpdir := tmpdir d1; uploads_meals := uploads_meals d1;
                      meals_json := Malformed unreadable |},
                   Some final, Raise err)
              | None =>
                  ({| tmpdir := tmpdir d1; uploads_meals := uploads_meals d1;
                      meals_json := Array (meals_data ++ [new_meals]) |},
                   Some final,
                   Return
                     {| status := "success";
                        detail :=
                          "Meal image uploaded and analyzed successfully. ID: "
                          +:+ pretty i;
                        document_path := Some final |})
              end
          end
      end
  end.

Definition upload_image (d : disk) (file : UploadFile) (descr : string)
    : disk * result UploadResponse :=
  if negb (endswith_any (lower (filename file)) allowed_extensions)
  then (d, Raise (http 400 "Only PNG, JPG, and JPEG images are accepted."))
  else
    let tmp_path := mkstemp e (splitext_ext (filename file)) in
    match tmp_write_error e with
    | Some (CreateFails err) =>
        (d, Raise (http 500 ("Failed to save upload: " +:+ exn_str err)))
    | Some (WriteFails err written) =>
        ({| tmpdir := <[tmp_path := written]> (tmpdir d);
            uploads_meals := uploads_meals d;
            meals_json := meals_json d |},
         Raise (http 500 ("Failed to save upload: " +:+ exn_str err)))
    | None =>
        let d1 := {| tmpdir := <[tmp_path := contents file]> (tmpdir d);
                     uploads_meals := uploads_meals d;
                     meals_json := meals_json d |} in
        match validate_image e d1 tmp_path with
        | Raise err => (remove_tmp e d1 tmp_path, Raise err)
        | Return _ =>
            match makedirs_error e with
            | Some err => (d1, Raise err)
            | None =>
                match save_meal d1 file tmp_path descr with
                | (d2, _, Return r) => (d2, Return r)
                | (d2, bound, Raise err) =>
                    (match bound with
                     | Some final => remove_upload e d2 final
                     | None => d2
                     end,
                     Raise (http 500 ("Failed to save meal data: " +:+ exn_str err)))
                end
            end
        end
    end.

End Upload.

End Main.

(* ===================================================================== *)
(** ** src/app/tools/meals_detect.py *)
(* ===================================================================== *)

Module MealsDetect.

(** A Python string is held as its UTF-8 text, one [ascii] per byte.
    The characters [str.strip()] removes are those [str.isspace] holds
    of: U+0009 to U+000D, U+001C to U+0020, U+0085, U+00A0, U+1680,
    U+2000 to U+200A, U+2028, U+2029, U+202F, U+205F and U+3000.  In
    UTF-8 the first ten are one byte, the next two are two bytes and the
    others are three bytes. *)

(** The whitespace characters of one byte: tab to carriage return, the
    four separators from 28 to 31, and the space. *)
Definition is_space (c : ascii) : bool :=
  let n := Ascii.nat_of_ascii c in
  ((9 <=? n)%nat && (n <=? 13)%nat) || ((28 <=? n)%nat && (n <=? 32)%nat).

(** The whitespace characters of two bytes: C2 85 and C2 A0. *)
Definition is_space2 (a b : ascii) : bool :=
  let x := Ascii.nat_of_ascii a in
  let y := Ascii.nat_of_ascii b in
  (x =? 194)%nat && ((y =? 133)%nat || (y =? 160)%nat).

(** The whitespace characters of three bytes: E1 9A 80, E2 80 80 to
    E2 80 8A, E2 80 A8, E2 80 A9, E2 80 AF, E2 81 9F and E3 80 80. *)
Definition is_space3 (a b c : ascii) : bool :=
  let x := Ascii.nat_of_ascii a in
  let y := Ascii.nat_of_ascii b in
  let z := Ascii.nat_of_ascii c in
  ((x =? 225)%nat && (y =? 154)%nat && (z =? 128)%nat)
  || ((x =? 226)%nat && (y =? 128)%nat
      && (((128 <=? z)%nat && (z <=? 138)%nat)
          || (z =? 168)%nat || (z =? 169)%nat || (z =? 175)%nat))
  || ((x =? 226)%nat && (y =? 129)%nat && (z =? 159)%nat)
  || ((x =? 227)%nat && (y =? 128)%nat && (z =? 128)%nat).

(** The text is the encoding of one whitespace character. *)
Definition is_whitespace (w : string) : bool :=
  match w with
  | String a EmptyString => is_space a
  | String a (String b EmptyString) => is_space2 a b
  | String a (String b (String c EmptyString)) => is_space3 a b c
  | _ => false
  end.

(** [s.lstrip()]: while the text begins with a whitespace character,
    drop that character. *)
Fixpoint lstrip_space (s : string) : string :=
  match s with
  | EmptyString => EmptyString
  | String a s1 =>
      if is_space a then lstrip_space s1
      else
        match s1 with
        | EmptyString => s
        | String b s2 =>
            if is_space2 a b then lstrip_space s2
            else
              match s2 with
              | EmptyString => s
              | String c s3 => if is_space3 a b c then lstrip_space s3 else s
              end
        end
  end.

(** [s.rstrip()]: the text without the whitespace characters it ends
    with.  With [kept] what is left of the text after its first byte, the
    byte is dropped too exactly when, put before [kept], it makes up one
    whitespace character: nothing else of the text is left then. *)
Fixpoint rstrip_space (s : string) : string :=
  match s with
  | EmptyString => EmptyString
  | String c s' =>
      let kept := rstrip_space s' in
      if is_whitespace (String c kept) then EmptyString else String c kept
  end.

(** [s.strip()] *)
Definition strip_space (s : string) : string := rstrip_space (lstrip_space s).

(** The characters the second [strip] removes: the single and the double
    quote. *)
Definition is_quote (c : ascii) : bool :=
  let n := Ascii.nat_of_ascii c in
  (n =? 39)%nat || (n =? 34)%nat.

(** [s.lstrip(chars)], [s.rstrip(chars)] and [s.strip(chars)] for
    characters of one byte, those that satisfy [p]. *)
Fixpoint lstrip (p : ascii → bool) (s : string) : string :=
  match s with
  | EmptyString => EmptyString
  | String c s' => if p c then lstrip p s' else s
  end.
Fixpoint rstrip (p : ascii → bool) (s : string) : string :=
  match s with
  | EmptyString => EmptyString
  | String c s' =>
      match rstrip p s' with
      | EmptyString => if p c then EmptyString else String c EmptyString
      | kept => String c kept
      end
  end.
Definition strip (p : ascii → bool) (s : string) : string :=
  rstrip p (lstrip p s).

(** The module constant: the value of the environment variable (empty
    when unset) stripped of whitespace, then of quotes, then of whitespace
    again. *)
Definition OPENAI_API_KEY (getenv : option string) : string :=
  strip_space (strip is_quote (strip_space (default "" getenv))).

(** Executing the module body, which is what importing the module does:
    it stops with [ValueError] when the key is empty. *)
Definition import_module (getenv : option string) : result unit :=
  if negb (truthy_str (OPENAI_API_KEY getenv))
  then Raise (Exn ValueError "OPENAI_API_KEY is not set in environment variables.")
  else Return ().

(** The table of image formats, and [table.get(image_ext, 'image/jpeg')]. *)
Definition mime_types : list (string * string) :=
  [(".jpg", "image/jpeg"); (".jpeg", "image/jpeg"); (".png", "image/png");
   (".gif", "image/gif"); (".webp", "image/webp")].

Fixpoint table_get (table : list (string * string)) (key dflt : string) : string :=
  match table with
  | [] => dflt
  | (k, v) :: table' => if decide (k = key) then v else table_get table' key dflt
  end.

Definition mime_type (image_path : string) : string :=
  table_get mime_types (lower (splitext_ext image_path)) "image/jpeg".

(** The request sent to [client.chat.completions.create]. *)
Record vision_request := mkRequest {
  req_model : string;
  req_system : string;
  req_text : string;
  req_image_url : string;
  req_max_tokens : nat;
}.

(** What the function reads of a response: [choices[0].message.content],
    [model] and [usage.total_tokens]. *)
Record vision_response := mkResponse {
  resp_analysis : string;
  resp_model : string;
  resp_total_tokens : nat;
}.

(** The dict the function returns. *)
Record analysis_dict := mkAnalysis {
  analysis : string;
  model : string;
  tokens_used : nat;
  image_path : string;
  user_question : string;
}.

Section Vision.

(** [base64.b64encode(data).decode('utf-8')] *)
Variable b64encode : list Byte.byte → string.
(** The text of the system prompt of the vision call. *)
Variable system_prompt : string.
(** The provider: the response to a request, or the exception raised by
    the call or by reading the response. *)
Variable create : vision_request → result vision_response.
(** The files that exist, with their contents. *)
Variable files : gmap string (list Byte.byte).

(** The [try] block of [analyze_meal_image]. *)
Definition analyze_body (image_path user_question : string)
    : result analysis_dict :=
  match files !! image_path with
  | None => Raise (Exn FileNotFoundError image_path)
  | Some image_data =>
      let image_base64 := b64encode image_data in
      response ←
        create {| req_model := "gpt-4o";
                  req_system := system_prompt;
                  req_text := user_question;
                  req_image_url :=
                    "data:" +:+ mime_type image_path +:+ ";base64," +:+ image_base64;
                  req_max_tokens := 2000 |};
      mret {| analysis := resp_analysis response;
              model := resp_model response;
              tokens_used := resp_total_tokens response;
              image_path := image_path;
              user_question := user_question |}
  end.

(** The function [main.upload_image] imports: the second definition of
    the name in the module, which replaces the decorated first one. *)
Definition analyze_meal_image (image_path user_question : string)
    : result analysis_dict :=
  if negb (bool_decide (is_Some (files !! image_path)))
  then Raise (Exn FileNotFoundError ("Image not found: " +:+ image_path))
  else
    try_except (analyze_body image_path user_question)
      (λ e, Raise (Exn RuntimeError
                     ("OpenAI Vision API analysis failed: " +:+ exn_str e))).

(** [from app.tools.meals_detect import analyze_meal_image] followed by
    the call, as in [main.upload_image]: the import runs the module body
    first. *)
Definition import_and_analyze (getenv : option string)
    (image_path user_question : string) : result analysis_dict :=
  _ ← import_module getenv;
  analyze_meal_image image_path user_question.

End Vision.

End MealsDetect.

(* ===================================================================== *)
(** ** src/app/tools/__init__.py and src/app/app.py *)
(* ===================================================================== *)

Module App.

(** [get_tools(llm)]: the names of the tools given to the model and to the
    tool node, whatever [llm] is. *)
Definition get_tools : list string := ["web_search_nutrition"].

Definition user_input : string :=
  "Analyze this meal: grilled chicken breast (150g), brown rice (1 cup), " +:+
  "steamed broccoli (100g)".

Section App.

Variable uuid4 : nat → string.
Variable system_prompt : string.
Variable llm_with_tool : list Message → result Message.
Variable run_tool : ToolCall → string.
Variable recursion_limit : nat.

(** [app()]: one invocation on the thread ["1"]; what it prints as the
    agent response, or the exception it ends with. *)
Definition app (w : world) : world * result string :=
  let '(w', result) :=
    invoke uuid4 system_prompt llm_with_tool run_tool recursion_limit w "1"
      {| messages := [HumanMessage user_input None] |} in
  (w',
   r ← result;
   match last (messages r) with
   | None => Raise (Exn IndexError "list index out of range")
   | Some m => Return (Messages.content m)
   end).

End App.

End App.

(* ===================================================================== *)
(** ** Examples of servers, uploads, models and tools *)
(* ===================================================================== *)

(** A concrete server, used to run the endpoints on examples. *)

Module Fixture.
Import Main.

Definition alice : host :=
  {| getuser := Return "alice";
     node_name := "kitchen";
     md5_hexdigest := λ s, String.rev s +:+ "00000000" |}.

(** JPEG files start with the bytes FF D8. *)
Definition verify_jpeg (b : bytes) : option exn :=
  match b with
  | Byte.xff :: Byte.xd8 :: _ => None
  | _ => Some (Exn OtherException "cannot identify image file")
  end.

(** An environment without I/O failures in which the vision call fails. *)
Definition vision_down : upload_env :=
  {| mkstemp := λ suffix, "/tmp/tmpk3x9" +:+ suffix;
     image_verify := verify_jpeg;
     strftime_now := "20240101_120000";
     isoformat_now := "2024-01-01T12:00:00";
     analyze_meal_image := λ _ _,
       Raise (Exn RuntimeError "OpenAI Vision API analysis failed: timeout");
     tmp_write_error := None;
     remove_fails := false;
     makedirs_error := None;
     move_error := None;
     json_write_error := None |}.

Definition old_meal (i : Z) : meal :=
  {| id := Some i; name := "old.png"; description := "No description provided";
     image_path := "uploads/meals/old.png"; upload_date := "2023-12-31T08:00:00";
     user_id := "user_ecila"; analysis_response := None |}.

(** A store whose records are not sorted by id. *)
Definition unsorted_disk : disk :=
  {| tmpdir := ∅; uploads_meals := ∅;
     meals_json := Array [old_meal 3; old_meal 7; old_meal 5] |}.

Definition photo_jpg : UploadFile :=
  {| filename := "photo.jpg"; contents := [Byte.xff; Byte.xd8; Byte.xff; Byte.xe0] |}.

Definition photo_txt : UploadFile :=
  {| filename := "photo.txt"; contents := [Byte.xff; Byte.xd8; Byte.xff; Byte.xe0] |}.

Definition corrupt_jpg : UploadFile :=
  {| filename := "broken.JPG"; contents := [Byte.x00; Byte.x01] |}.

End Fixture.

(** Further environments and disks for the upload endpoint. *)

Module UploadFixture.
Import Main Fixture.

(** The environment of [vision_down] on a full disk: writing the record
    store fails. *)
Definition disk_full : upload_env :=
  {| mkstemp := mkstemp vision_down;
     image_verify := image_verify vision_down;
     strftime_now := strftime_now vision_down;
     isoformat_now := isoformat_now vision_down;
     analyze_meal_image := analyze_meal_image vision_down;
     tmp_write_error := None;
     remove_fails := false;
     makedirs_error := None;
     move_error := None;
     json_write_error :=
       Some (DumpFails (Exn OSError "[Errno 28] No space left on device")
               (Exn ValueError "Expecting value: line 1 column 1 (char 0)")) |}.

(** A disk whose record store does not parse. *)
Definition broken_store : disk :=
  {| tmpdir := ∅; uploads_meals := ∅;
     meals_json := Malformed (Exn ValueError "Expecting value: line 1 column 1 (char 0)") |}.

End UploadFixture.

(** Stub models and tools for running turns on examples. *)

Module Stubs.

Definition uuid4 (n : nat) : string := "uuid-" +:+ pretty n.

Definition system_prompt : string := "You are NutriGuide".

Definition search_call : ToolCall :=
  {| tc_name := "web_search_nutrition";
     tc_args := [("query", "calories in cooked rice")];
     tc_id := "call_1" |}.

(** A model that requests a tool on every call. *)
Definition always_tool (history : list Message) : result Message :=
  Return (AIMessage "" [search_call] None).

(** A model that answers at once. *)
Definition final_answer (history : list Message) : result Message :=
  Return (AIMessage "One cup of cooked rice has about 200 kcal." [] None).

(** A model that searches once and answers when it sees the tool result. *)
Definition search_then_answer (history : list Message) : result Message :=
  match last history with
  | Some (ToolMessage _ _ _) => final_answer history
  | _ => always_tool history
  end.

(** A model whose provider cannot be reached. *)
Definition unreachable (history : list Message) : result Message :=
  Raise (Exn OtherException "Connection error.").

(** A search backend with one result, and the tool node's rendering of a
    call through the registry [get_tools() = [web_search_nutrition]]. *)
Definition one_result (query : string) : result Websearch.search_value :=
  Return (Websearch.Items
            [Websearch.Dict
               [("title", Websearch.str_val "Rice, cooked");
                ("url", Websearch.str_val "https://example.org/rice");
                ("content", Websearch.str_val "205 kcal per cup");
                ("score", {| Websearch.py_str := "0.91"; Websearch.py_truthy := true |})]]).

Definition run_tool (c : ToolCall) : string :=
  if decide (tc_name c = "web_search_nutrition") then
    match Websearch.web_search_nutrition one_result
            (default "" (snd <$> head (tc_args c))) with
    | Return s => s
    | Raise e => "Error: " +:+ exn_str e
    end
  else "Error: " +:+ tc_name c +:+ " is not a valid tool".

(** A search backend that answers as [langchain_tavily.TavilySearch],
    the backend [websearch.py] builds, does: with the response of the
    search API, a dict that holds the list of results under ["results"]. *)
Definition tavily_search (query : string) : result Websearch.search_value :=
  Return (Websearch.dict_value
            ["query"; "follow_up_questions"; "answer"; "images"; "results";
             "response_time"]).

Definition fresh_world : world := {| checkpoints := ∅; drawn := 0 |}.

Definition hello : Main.ChatRequest :=
  {| Main.message := Some "hello"; Main.messages := Some []; Main.history := None |}.

Definition vegan : Main.ChatRequest :=
  {| Main.message := Some "I am vegan."; Main.messages := None; Main.history := None |}.

Definition what_did_i_say : Main.ChatRequest :=
  {| Main.message := Some "What did I tell you?"; Main.messages := None;
     Main.history := None |}.

End Stubs.

(* ===================================================================== *)
(** ** Vocabulary of the properties *)
(* ===================================================================== *)

(** Requests, uploads and the record store. *)

Module RequestTerms.
Import Main.

(** [message] is supplied: a non-empty string. *)
Definition message_supplied (req : ChatRequest) : Prop :=
  ∃ s, message req = Some s ∧ s ≠ "".

(** [messages] is supplied: a non-empty list. *)
Definition messages_supplied (req : ChatRequest) : Prop :=
  ∃ l, messages req = Some l ∧ l ≠ [].

(** The id a record counts with: its ["id"], or 0 when it has none. *)
Definition id_or_0 (m : meal) : Z := default 0%Z (id m).

(** The records in the store as the endpoint reads them. *)
Definition stored (d : disk) : list meal :=
  match meals_json d with Array l => l | _ => [] end.

(** The upload is one the endpoint must refuse: the file name does not
    end in an accepted extension, or the bytes do not verify as an
    image. *)
Definition invalid_upload (e : upload_env) (file : UploadFile) : Prop :=
  endswith_any (lower (filename file)) allowed_extensions = false
  ∨ is_Some (image_verify e (contents file)).

Definition valid_image (e : upload_env) (file : UploadFile) : Prop :=
  endswith_any (lower (filename file)) allowed_extensions = true
  ∧ image_verify e (contents file) = None.

(** No file operation of the request is hit by an operating-system
    failure. *)
Definition no_io_fault (e : upload_env) : Prop :=
  tmp_write_error e = None ∧ makedirs_error e = None
  ∧ move_error e = None ∧ json_write_error e = None.

(** [meals.json] is missing or parses. *)
Definition readable_store (d : disk) : Prop :=
  ∀ err, meals_json d ≠ Malformed err.

(** The record [upload_image] builds for id [i]. *)
Definition record_for (e : upload_env) (file : UploadFile) (descr uid : string)
    (i : Z) (a : analysis) : meal :=
  {| id := Some i;
     name := filename file;
     description := if truthy_str descr then descr else "No description provided";
     image_path := final_image_path e file i;
     upload_date := isoformat_now e;
     user_id := uid;
     analysis_response := Some a |}.

Definition success_response (e : upload_env) (file : UploadFile) (i : Z)
    : UploadResponse :=
  {| status := "success";
     detail := "Meal image uploaded and analyzed successfully. ID: " +:+ pretty i;
     document_path := Some (final_image_path e file i) |}.

End RequestTerms.

(** The text the web-search tool is expected to produce. *)

Module SearchTerms.
Import Websearch.

(** The text shown for a key of a result, with the fallback the tool uses. *)
Definition field (d : list (string * pyval)) (key fallback : string) : string :=
  match dict_get d key with
  | Some v => py_str v
  | None => fallback
  end.

(** The relevance line: present when the result has a score that is not
    zero or empty. *)
Definition score_line (d : list (string * pyval)) : string :=
  match dict_get d "score" with
  | Some v => if py_truthy v then "   Relevance Score: " +:+ py_str v +:+ nl else ""
  | None => ""
  end.

(** The snippet of the result numbered [idx]: title, URL, content,
    relevance, and a blank line. *)
Definition snippet (idx : nat) (d : list (string * pyval)) : string :=
  pretty idx +:+ ". " +:+ field d "title" "No title" +:+ nl +:+
  "   URL: " +:+ field d "url" "No URL" +:+ nl +:+
  "   Content: " +:+ field d "content" "No content" +:+ nl +:+
  score_line d +:+ nl.

Fixpoint snippets (idx : nat) (ds : list (list (string * pyval))) : string :=
  match ds with
  | [] => ""
  | d :: ds' => snippet idx d +:+ snippets (S idx) ds'
  end.

Definition header (query : string) : string :=
  "Search Results for: '" +:+ query +:+ "'" +:+ nl +:+ nl.

(** The backend answers as [langchain_tavily.TavilySearch] does: by
    raising, or with a dict that is not empty, which is the response of
    the search API or, when the request failed, [{"error": e}]. *)
Definition answers_with_dict (tavily_invoke : string → Py.result search_value)
    : Prop :=
  ∀ query,
    (∃ e, tavily_invoke query = Raise e)
    ∨ (∃ keys, keys ≠ [] ∧ tavily_invoke query = Return (dict_value keys)).

End SearchTerms.

(** Histories, runs and sessions. *)

Module HistoryTerms.

Definition has_id (m : Message) : Prop := is_Some (msg_id m).

(** A stored history: every message has an id and no id occurs twice. *)
Definition wf_history (ms : list Message) : Prop :=
  NoDup (ids ms) ∧ Forall has_id ms.

(** [d] maps exactly the ids of [l] to their positions. *)
Definition indexes (d : gmap (option string) nat) (l : list Message) : Prop :=
  ∀ k i, d !! k = Some i ↔ ids l !! i = Some k.

(** The merge of an update, as a fold of [upsert]. *)
Definition upserts (l r : list Message) : list Message :=
  foldl (λ acc m, upsert m acc) l r.

(** The message as the reducer stores it, and the draws made after it. *)
Definition stored_as (uuid4 : nat → string) (m : Message) (g : nat) : Message * nat :=
  match msg_id m with
  | None => (set_id (Some (uuid4 g)) m, S g)
  | Some _ => (m, g)
  end.

(** The tool invocation requests an answer carries. *)
Definition requests (answer : Message) : list ToolCall :=
  default [] (tool_calls_attr answer).

(** How [chat] words an exception in the response content. *)
Definition rendered (e : exn) : string :=
  (if is_ImportError e then "**Configuration Error:** " else "**Error:** ")
  +:+ exn_str e.

Definition nonempty (s : AgentState) : Prop := messages s ≠ [].

(** The loop state of a run whose input had a message: no streamed value
    is empty and the last streamed value is the current channel value. *)
Definition streaming (l : loop) : Prop :=
  nonempty (state l) ∧ Forall nonempty (emitted l)
  ∧ last (emitted l) = Some (state l).

(** The text [chat] answers with when the stream ends on the value [s]. *)
Definition spoken (s : AgentState) : string :=
  let response_content := default "" (Messages.content <$> last (messages s)) in
  if truthy_str response_content then response_content else Main.apology.

(** A history as the reducer has built it after [g] draws: no id occurs
    twice, every message has an id, and no stored id is a uuid that is
    still to be drawn. *)
Definition settled (uuid4 : nat → string) (g : nat) (l : list Message) : Prop :=
  NoDup (ids l)
  ∧ Forall (λ m, ∃ i, msg_id m = Some i ∧ ∀ k, i = uuid4 k → k < g) l.

(** The message brings no id of its own that is stored in [l] or that
    [uuid4] can produce. *)
Definition brings_new_id (uuid4 : nat → string) (l : list Message) (m : Message)
    : Prop :=
  ∀ i, msg_id m = Some i → (Some i ∉ ids l) ∧ (∀ k, i ≠ uuid4 k).

(** The ids the provider puts on its answers are its own and new. *)
Definition provider_ids_new (uuid4 : nat → string) (system_prompt : string)
    (llm_with_tool : list Message → result Message) : Prop :=
  ∀ history answer,
    llm_with_tool (SystemMessage system_prompt None :: history) = Return answer →
    brings_new_id uuid4 history answer.

(** The message has no id yet. *)
Definition no_id (m : Message) : Prop := msg_id m = None.

(** The messages of an update as the reducer leaves them: it sets the
    missing ids on the message objects themselves, so a caller that
    replays its appends replays these. *)
Definition as_appended (uuid4 : nat → string) (r : list Message) (g : nat)
    : list Message :=
  (assign_ids uuid4 r g).1.

(** The claim C4 read on the reducer that keeps the history: appending
    a sequence of messages to a stored history a second time leaves the
    history that appending it once gave. *)
Definition replay_is_idempotent (uuid4 : nat → string) : Prop :=
  ∀ (l r : list Message) (g : nat),
    wf_history l →
    (add_messages uuid4 (add_messages uuid4 l r g).1 r
       (add_messages uuid4 l r g).2).1
    = (add_messages uuid4 l r g).1.

(** The update overwrites nothing stored: a message that carries the id
    of a stored message is that stored message. *)
Definition overwrites_nothing (l r : list Message) : Prop :=
  ∀ m, m ∈ r → msg_id m ∈ ids l → m ∈ l.

(** The claim C3 read on the code: each request carries a key, the thread
    whose history the request resumes is named by that key, and two
    requests can carry different keys. *)
Definition session_key_selects_history (h : Main.host) : Prop :=
  ∃ key : Main.ChatRequest → string,
    (∀ req, Main.chat_thread_id h req = Return (key req))
    ∧ ∃ r1 r2, key r1 ≠ key r2.

End HistoryTerms.

(** Runs of the examples. *)

Module ExampleTerms.

(** The loop state at the start of the first turn of a new thread whose
    input is the message [hello]. *)
Definition first_turn : loop :=
  enter Stubs.uuid4 {| messages := [] |} 0
    {| messages := [HumanMessage "hello" None] |}.

(** The thread of [Fixture.alice]'s server. *)
Definition alice_thread : string := "user_nehctik@_api_session".

(** [chat] on [Fixture.alice]'s server with the stub tools and a model. *)
Definition chat_with (llm : list Message → result Message) :=
  Main.chat Stubs.uuid4 Stubs.system_prompt llm Stubs.run_tool 25 Fixture.alice.

(** One run of the searching stub on the thread ["t"] with the input
    [hello]. *)
Definition hello_run (w : world) : world :=
  (invoke_on Stubs.uuid4 Stubs.system_prompt Stubs.search_then_answer Stubs.run_tool 25
     w "t" {| messages := [HumanMessage "hello" None] |}).1.

End ExampleTerms.

(** Terms of the further properties of the upload endpoint. *)

Module UploadTerms.
Import Main.

(** The name of the temporary copy of an upload. *)
Definition tmp_path_of (e : upload_env) (file : UploadFile) : string :=
  mkstemp e (splitext_ext (filename file)).

(** The path the image of the next successful upload is stored under. *)
Definition next_path (e : upload_env) (d : disk) (file : UploadFile) : string :=
  final_image_path e file (new_id (RequestTerms.stored d)).

(** The upload passes the checks made before the record store is read. *)
Definition reaches_store (e : upload_env) (file : UploadFile) : Prop :=
  RequestTerms.valid_image e file
  ∧ tmp_write_error e = None ∧ makedirs_error e = None.

(** The exception that ends the save before the image is moved, if any:
    an unreadable record store, or a failing move. *)
Definition failure_before_move (e : upload_env) (d : disk) : option exn :=
  match meals_json d with
  | Malformed err => Some err
  | _ => move_error e
  end.

(** The record store after a save that failed once the image was
    moved: as it was, unless the dump of the store failed after [open]
    had emptied the file, which leaves the cut-off text. *)
Definition store_after_failure (h : host) (e : upload_env) (d : disk) : json_file :=
  match get_user_id h, json_write_error e with
  | Return _, Some (DumpFails _ unreadable) => Malformed unreadable
  | _, _ => meals_json d
  end.

(** The exception that ends the save after the image is moved, if any:
    reading the user id fails, or writing the record store does. *)
Definition failure_after_move (h : host) (e : upload_env) : option exn :=
  match get_user_id h with
  | Raise err => Some err
  | Return _ => store_exn <$> json_write_error e
  end.

End UploadTerms.

(** Terms of the properties of the vision tool. *)

Module VisionTerms.
Import MealsDetect.

(** The first and the last character of a string. *)
Definition first_char (s : string) : option ascii :=
  match s with
  | EmptyString => None
  | String c _ => Some c
  end.

Fixpoint last_char (s : string) : option ascii :=
  match s with
  | EmptyString => None
  | String c EmptyString => Some c
  | String _ s' => last_char s'
  end.

(** Every character of the string satisfies [p]. *)
Fixpoint all_chars (p : ascii → bool) (s : string) : bool :=
  match s with
  | EmptyString => true
  | String c s' => p c && all_chars p s'
  end.

(** The text begins with a whitespace character. *)
Definition begins_with_space (s : string) : bool :=
  match s with
  | String a EmptyString => is_space a
  | String a (String b EmptyString) => is_space a || is_space2 a b
  | String a (String b (String c _)) =>
      is_space a || is_space2 a b || is_space3 a b c
  | EmptyString => false
  end.

(** The text ends with a whitespace character: one of its suffixes is the
    encoding of one. *)
Fixpoint ends_with_space (s : string) : bool :=
  match s with
  | EmptyString => false
  | String _ s' => is_whitespace s || ends_with_space s'
  end.

(** How [main.upload_image] obtains an analysis when the vision tool is
    the module above: the import, the call, and the returned dict as the
    JSON text [dumps] gives for it. *)
Definition vision_oracle (dumps : analysis_dict → string)
    (b64encode : list Byte.byte → string) (system_prompt : string)
    (create : vision_request → result vision_response)
    (files : gmap string (list Byte.byte)) (getenv : option string)
    (image_path user_question : string) : result string :=
  a ← import_and_analyze b64encode system_prompt create files getenv
         image_path user_question;
  mret (dumps a).

(** The question [main.upload_image] asks about an upload. *)
Definition question_for (descr : string) : string :=
  if truthy_str descr then descr +:+ " with this image"
  else "Analyze this meal image".

(** The request the vision tool sends for an image and a question. *)
Definition request_for (b64encode : list Byte.byte → string)
    (system_prompt : string) (path : string) (image_data : list Byte.byte)
    (question : string) : vision_request :=
  {| req_model := "gpt-4o"; req_system := system_prompt; req_text := question;
     req_image_url := "data:" +:+ mime_type path +:+ ";base64,"
                      +:+ b64encode image_data;
     req_max_tokens := 2000 |}.

End VisionTerms.

(** Terms of the further properties of runs. *)

Module RunTerms.
Import HistoryTerms.

(** The exception is one the model call raises on some history. *)
Definition model_raises (system_prompt : string)
    (llm_with_tool : list Message → result Message) (e : exn) : Prop :=
  ∃ history, llm_with_tool (SystemMessage system_prompt None :: history) = Raise e.

(** The exception is the runtime's for a used-up step budget: a
    [GraphRecursionError] whose text begins by naming the limit. *)
Definition out_of_steps (recursion_limit : nat) (e : exn) : Prop :=
  exn_cls e = GraphRecursionError
  ∧ ∃ rest,
      exn_str e
      = "Recursion limit of " +:+ pretty recursion_limit +:+
        " reached without hitting a stop condition." +:+ rest.

(** What holds of the loop state throughout a run whose input had a
    message: the channel is not empty; when the tool node is due, the
    last message is an [AIMessage] with a tool call; when the run is
    finished, a model step was made and the last message requests no
    tool; when it failed, the exception is the runtime's for the used-up
    step budget or one the model call raised. *)
Definition on_track (system_prompt : string)
    (llm_with_tool : list Message → result Message) (recursion_limit : nat)
    (l : loop) : Prop :=
  messages (state l) ≠ []
  ∧ match stat l with
    | Next agent => True
    | Next tool =>
        ∃ text c calls i,
          last (messages (state l)) = Some (AIMessage text (c :: calls) i)
    | Finished =>
        1 ≤ step l
        ∧ ∃ m, last (messages (state l)) = Some m ∧ requests m = []
    | Failed e =>
        e = recursion_error recursion_limit
        ∨ model_raises system_prompt llm_with_tool e
    end.

(** The messages that answer the calls [calls], as the channel stores
    them when [g] uuids have been drawn before: one per call, in the order
    of the calls, each with the id of its call, the text from the tool
    node, and the next uuid as its id. *)
Definition tool_messages (uuid4 : nat → string) (run_tool : ToolCall → string)
    (g : nat) (calls : list ToolCall) : list Message :=
  imap (λ k c, ToolMessage (run_tool c) (tc_id c) (Some (uuid4 (g + k)))) calls.

(** The run of the graph that [chat] makes for a request, once the user
    id is [uid]. *)
Definition chat_run (uuid4 : nat → string) (system_prompt : string)
    (llm_with_tool : list Message → result Message)
    (run_tool : ToolCall → string) (recursion_limit : nat)
    (w : world) (uid : string) (req : Main.ChatRequest) : world * loop :=
  invoke_on uuid4 system_prompt llm_with_tool run_tool recursion_limit
    w (uid +:+ "_api_session") {| messages := Main.input_messages req |}.

(** The run of the graph that [app] makes. *)
Definition app_run (uuid4 : nat → string) (system_prompt : string)
    (llm_with_tool : list Message → result Message)
    (run_tool : ToolCall → string) (recursion_limit : nat)
    (w : world) : world * loop :=
  invoke_on uuid4 system_prompt llm_with_tool run_tool recursion_limit
    w "1" {| messages := [HumanMessage App.user_input None] |}.

(** What [chat] answers when the run ends on the message [m]. *)
Definition answer_text (m : Message) : string :=
  if truthy_str (Messages.content m) then Messages.content m else Main.apology.

(** The text the search tool returns when an element of the results has
    no [get]. *)
Definition no_get_text (type_name : string) : string :=
  "Error performing web search: '" +:+ type_name +:+
  "' object has no attribute 'get'".

End RunTerms.

(** A server whose vision tool is the module, with stubs for the encoder,
    the JSON writer and the provider. *)

Module VisionFixture.
Import Main Fixture.

Definition stub_b64 (data : list Byte.byte) : string := "/9j/4A==".

Definition stub_dumps (a : MealsDetect.analysis_dict) : string :=
  "{analysis: " +:+ MealsDetect.analysis a +:+ ", image_path: "
  +:+ MealsDetect.image_path a +:+ "}".

(** A provider that refuses every request. *)
Definition rate_limited (r : MealsDetect.vision_request)
    : result MealsDetect.vision_response :=
  Raise (Exn OtherException "Error code: 429").

(** The environment of [vision_down] with the vision tool of the module
    in place of the failing stub, seeing the image of the next upload to
    [unsorted_disk] where the endpoint stores it. *)
Definition with_vision (getenv : option string) : upload_env :=
  {| mkstemp := mkstemp vision_down;
     image_verify := image_verify vision_down;
     strftime_now := strftime_now vision_down;
     isoformat_now := isoformat_now vision_down;
     analyze_meal_image :=
       VisionTerms.vision_oracle stub_dumps stub_b64 "You are a nutritionist"
         rate_limited
         {[ "uploads/meals/meals_8_20240101_120000.jpg" := contents photo_jpg ]}
         getenv;
     tmp_write_error := None;
     remove_fails := false;
     makedirs_error := None;
     move_error := None;
     json_write_error := None |}.

End VisionFixture.

(* ===================================================================== *)
(** * Properties *)
(* ===================================================================== *)

(** ** The string helpers on examples *)

Module PyExamples.

Example splitext_jpg : splitext_ext "photo.jpg" = ".jpg".
Proof. reflexivity. Qed.

Example splitext_last_dot : splitext_ext "meal.tar.gz" = ".gz".
Proof. reflexivity. Qed.

Example splitext_hidden_file : splitext_ext ".bashrc" = "".
Proof. reflexivity. Qed.

Example splitext_dot_in_directory : splitext_ext "a.b/c" = "".
Proof. reflexivity. Qed.

Example extension_check_ignores_case :
  endswith_any (lower "PHOTO.JPG") Main.allowed_extensions = true
  ∧ endswith_any (lower "photo.txt") Main.allowed_extensions = false
  ∧ endswith_any (lower "jpg") Main.allowed_extensions = false.
Proof. repeat split; reflexivity. Qed.

Example join_paragraphs :
  Main.combined_message
    {| Main.message := None; Main.messages := Some ["a"; "b"]; Main.history := None |}
  = "a" +:+ Websearch.nl +:+ Websearch.nl +:+ "b".
Proof. reflexivity. Qed.

End PyExamples.

(** ** Request validation *)

Module ValidationFacts.
Import Main RequestTerms.

Lemma truthy_str_spec s : truthy_str s = true ↔ s ≠ "".
Proof. destruct s; simpl; split; congruence. Qed.

Lemma truthy_list_spec {A} (l : list A) : truthy_list l = true ↔ l ≠ [].
Proof. destruct l; simpl; split; congruence. Qed.

Lemma message_supplied_truthy req :
  message_supplied req ↔ truthy_opt truthy_str (message req) = true.
Proof.
  unfold message_supplied. destruct (message req) as [s|]; simpl.
  - rewrite truthy_str_spec. split; [intros (s' & [= <-] & ?); done | eauto].
  - split; [intros (? & ? & ?); done | done].
Qed.

Lemma messages_supplied_truthy req :
  messages_supplied req ↔ truthy_opt truthy_list (messages req) = true.
Proof.
  unfold messages_supplied. destruct (messages req) as [l|]; simpl.
  - rewrite truthy_list_spec. split; [intros (l' & [= <-] & ?); done | eauto].
  - split; [intros (? & ? & ?); done | done].
Qed.

(** C6. Validation of a chat request succeeds, returning the request,
    whenever [message] is a non-empty string or [messages] is a non-empty
    list; it succeeds in particular for a request with a message and an
    empty [messages] list; and when neither is supplied it fails with
    the [ValueError] that the framework reports as an invalid request. *)
Theorem ensure_message_spec (req : ChatRequest) :
  (message_supplied req ∨ messages_supplied req → ensure_message req = Return req)
  ∧ (∀ s hist, s ≠ "" →
       ensure_message (mkChatRequest (Some s) (Some []) hist)
       = Return (mkChatRequest (Some s) (Some []) hist))
  ∧ (¬ message_supplied req → ¬ messages_supplied req →
       ensure_message req
       = Raise (Exn ValueError "Either 'message' or 'messages' must be provided.")).
Proof.
  unfold ensure_message. repeat split.
  - rewrite message_supplied_truthy, messages_supplied_truthy.
    intros [-> | ->]; simpl; [done|].
    by rewrite andb_false_r.
  - intros s hist Hs. simpl. apply truthy_str_spec in Hs. by rewrite Hs.
  - rewrite message_supplied_truthy, messages_supplied_truthy.
    intros H1%not_true_is_false H2%not_true_is_false. by rewrite H1, H2.
Qed.

Lemma ensure_message_spec_witness :
  ensure_message (mkChatRequest (Some "hello") (Some []) None)
    = Return (mkChatRequest (Some "hello") (Some []) None)
  ∧ ensure_message (mkChatRequest None None None)
    = Raise (Exn ValueError "Either 'message' or 'messages' must be provided.").
Proof.
  split.
  - apply (proj1 (ensure_message_spec (mkChatRequest (Some "hello") (Some []) None))).
    left. exists "hello". split; [reflexivity | discriminate].
  - apply (proj2 (proj2 (ensure_message_spec (mkChatRequest None None None)))).
    + intros (s & Hs & _). discriminate Hs.
    + intros (l & Hl & _). discriminate Hl.
Defined.

End ValidationFacts.

(** ** The upload endpoint: record ids *)

Module IdFacts.
Import Main RequestTerms.

Lemma foldl_max_ge_init (xs : list Z) (a : Z) : (a ≤ foldl Z.max a xs)%Z.
Proof.
  revert a. induction xs as [|x xs IH]; intros a; simpl; [lia|].
  specialize (IH (Z.max a x)). lia.
Qed.

Lemma foldl_max_ge_elem (xs : list Z) (a x : Z) :
  x ∈ xs → (x ≤ foldl Z.max a xs)%Z.
Proof.
  revert a. induction xs as [|y xs IH]; intros a Hx; [by apply elem_of_nil in Hx|].
  apply elem_of_cons in Hx as [-> | Hx]; simpl.
  - pose proof (foldl_max_ge_init xs (Z.max a y)). lia.
  - by apply IH.
Qed.

Lemma foldl_max_attained (xs : list Z) (a : Z) :
  foldl Z.max a xs = a ∨ foldl Z.max a xs ∈ xs.
Proof.
  revert a. induction xs as [|y xs IH]; intros a; simpl; [by left|].
  destruct (IH (Z.max a y)) as [-> | Hin].
  - destruct (Z.max_spec a y) as [[_ ->] | [_ ->]]; [right; left | by left].
  - right. by right.
Qed.

Lemma max_default_ge (xs : list Z) (dflt x : Z) :
  x ∈ xs → (x ≤ max_default xs dflt)%Z.
Proof.
  destruct xs as [|y xs]; [intros H; by apply elem_of_nil in H|].
  intros [-> | Hx]%elem_of_cons; simpl.
  - apply foldl_max_ge_init.
  - by apply foldl_max_ge_elem.
Qed.

Lemma max_default_attained (xs : list Z) (dflt : Z) :
  xs ≠ [] → max_default xs dflt ∈ xs.
Proof.
  destruct xs as [|y xs]; [done|]. intros _. simpl.
  destruct (foldl_max_attained xs y) as [-> | Hin]; [left | by right].
Qed.

(** The maximum does not depend on the order of the list. *)
Lemma max_default_perm (xs ys : list Z) (dflt : Z) :
  xs ≡ₚ ys → max_default xs dflt = max_default ys dflt.
Proof.
  intros Hp. destruct xs as [|x xs].
  - apply Permutation_nil_l in Hp. by subst.
  - assert (Hys : ys ≠ []).
    { intros ->. by apply Permutation_nil_r in Hp. }
    pose proof (max_default_attained (x :: xs) dflt ltac:(done)) as H1.
    pose proof (max_default_attained ys dflt Hys) as H2.
    apply (elem_of_Permutation_proper _ _ _ Hp) in H1.
    apply (elem_of_Permutation_proper _ _ _ Hp) in H2.
    apply (max_default_ge _ dflt) in H2.
    apply (max_default_ge _ dflt) in H1. lia.
Qed.

Lemma new_id_perm (ms ms' : list meal) : ms ≡ₚ ms' → new_id ms = new_id ms'.
Proof.
  intros Hp. unfold new_id. f_equal.
  apply max_default_perm. by apply fmap_Permutation.
Qed.

Lemma new_id_above (ms : list meal) (m : meal) :
  m ∈ ms → (id_or_0 m < new_id ms)%Z.
Proof.
  intros Hm. unfold new_id.
  assert (id_or_0 m ∈ (λ m, default 0%Z (id m)) <$> ms) as Hin.
  { apply list_elem_of_fmap. by exists m. }
  apply (max_default_ge _ 0%Z) in Hin. lia.
Qed.

Lemma new_id_attained (ms : list meal) :
  ms ≠ [] → ∃ m, m ∈ ms ∧ new_id ms = (id_or_0 m + 1)%Z.
Proof.
  intros Hne. unfold new_id.
  assert ((λ m, default 0%Z (id m)) <$> ms ≠ []) as Hne'.
  { destruct ms; [done | discriminate]. }
  apply (max_default_attained _ 0%Z) in Hne'.
  apply list_elem_of_fmap in Hne' as (m & Heq & Hm).
  exists m. split; [done|]. unfold id_or_0. by rewrite <- Heq.
Qed.

End IdFacts.

(** ** The upload endpoint: rejection, persistence, analysis failures *)

Module UploadFacts.
Import Main IdFacts RequestTerms.

Lemma validate_image_written e d path b :
  validate_image e
    {| tmpdir := <[path := b]> (tmpdir d);
       uploads_meals := uploads_meals d; meals_json := meals_json d |} path
  = match image_verify e b with
    | Some err => Raise (http 400 ("Invalid image file: " +:+ exn_str err))
    | None => Return ()
    end.
Proof. unfold validate_image. simpl. by rewrite lookup_insert_eq. Qed.

(** Every successful upload went through [save_meal] to its end. *)
Lemma upload_success_inv h e d file descr d' r :
  upload_image h e d file descr = (d', Return r) →
  ∃ uid,
    get_user_id h = Return uid
    ∧ r = success_response e file (new_id (stored d))
    ∧ meals_json d'
      = Array (stored d ++
               [record_for e file descr uid (new_id (stored d))
                  (analysis_result e (final_image_path e file (new_id (stored d))) descr)])
    ∧ uploads_meals d'
      = <[final_image_path e file (new_id (stored d)) := contents file]>
          (uploads_meals d).
Proof.
  unfold upload_image.
  destruct (negb _); [intros [= _ ?]; done|].
  destruct (tmp_write_error e) as [[werr|werr written]|]; [intros [= _ ?]; done..|].
  rewrite validate_image_written.
  destruct (image_verify e (contents file)); [intros [= _ ?]; done|].
  destruct (makedirs_error e); [intros [= _ ?]; done|].
  unfold save_meal, stored. simpl. rewrite lookup_insert_eq.
  destruct (meals_json d) as [|ms|err]; simpl;
    destruct (move_error e); simpl; try (intros [= _ ?]; done);
    destruct (get_user_id h) as [uid|]; simpl; try (intros [= _ ?]; done);
    destruct (json_write_error e) as [[jerr|jerr bad]|]; simpl;
    try (intros [= _ ?]; done);
    intros [= <- <-]; exists uid; done.
Qed.

End UploadFacts.

(** ** Claims about the upload endpoint *)

Module UploadClaims.
Import Main IdFacts UploadFacts Fixture RequestTerms.

(** C7. Whenever an upload succeeds, the record appended to the store and
    the response carry the id [new_id] of the records stored before; that
    id is 1 when there were none, otherwise it is one more than the id of
    some stored record and exceeds the id of every stored record (a record
    without an id counting as 0), so it is one plus the maximum; and it is
    the same for every reordering of the stored records. *)
Theorem upload_assigns_max_plus_one (h : host) (e : upload_env) (d d' : disk)
    (file : UploadFile) (descr : string) (r : UploadResponse) :
  upload_image h e d file descr = (d', Return r) →
  (∃ rec, meals_json d' = Array (stored d ++ [rec])
          ∧ id rec = Some (new_id (stored d)))
  ∧ detail r = "Meal image uploaded and analyzed successfully. ID: "
               +:+ pretty (new_id (stored d))
  ∧ (stored d = [] → new_id (stored d) = 1%Z)
  ∧ (∀ m, m ∈ stored d → (id_or_0 m < new_id (stored d))%Z)
  ∧ (stored d ≠ [] → ∃ m, m ∈ stored d ∧ new_id (stored d) = (id_or_0 m + 1)%Z)
  ∧ (∀ ms, ms ≡ₚ stored d → new_id ms = new_id (stored d)).
Proof.
  intros (uid & _ & -> & Hjson & _)%upload_success_inv.
  split; [eexists; split; [exact Hjson | reflexivity] |].
  split; [reflexivity|].
  split; [by intros -> |].
  split; [intros m; apply new_id_above |].
  split; [apply new_id_attained | intros ms Hp; by apply new_id_perm].
Qed.

Lemma upload_assigns_max_plus_one_witness :
  (∃ rec, meals_json (fst (upload_image alice vision_down unsorted_disk photo_jpg "lunch"))
          = Array ([old_meal 3; old_meal 7; old_meal 5] ++ [rec])
          ∧ id rec = Some 8%Z)
  ∧ new_id [old_meal 5; old_meal 3; old_meal 7] = 8%Z.
Proof.
  destruct (upload_assigns_max_plus_one alice vision_down unsorted_disk
              (fst (upload_image alice vision_down unsorted_disk photo_jpg "lunch"))
              photo_jpg "lunch" (success_response vision_down photo_jpg 8)
              ltac:(vm_compute; reflexivity))
    as (Hrec & _ & _ & _ & _ & Hperm).
  split; [exact Hrec|].
  exact (Hperm [old_meal 5; old_meal 3; old_meal 7]
           (Permutation_cons_append [old_meal 3; old_meal 7] (old_meal 5))).
Defined.

(** C8. An upload whose file name has no accepted image extension, or
    whose bytes do not verify as an image, is rejected with an HTTP error:
    the content directory and the record store are left exactly as they
    were.  With a wrong extension the answer is the 400 of the extension
    check and nothing on disk is touched at all.  With an accepted
    extension and undecodable bytes the only file ever written is the
    temporary copy outside the content directory: when it was written in
    full, the answer is the 400 of the image check and the rejection
    removes the copy again; when writing it failed after the file was
    made, what was written stays under the temporary name. *)
Theorem upload_rejects_invalid (h : host) (e : upload_env) (d : disk)
    (file : UploadFile) (descr : string) :
  invalid_upload e file →
  (∃ d' code reason,
      upload_image h e d file descr = (d', Raise (http code reason))
      ∧ uploads_meals d' = uploads_meals d
      ∧ meals_json d' = meals_json d
      ∧ (endswith_any (lower (filename file)) allowed_extensions = true →
         (∀ err, tmp_write_error e = Some (CreateFails err) → tmpdir d' = tmpdir d)
         ∧ (∀ err written,
              tmp_write_error e = Some (WriteFails err written) →
              tmpdir d'
              = <[mkstemp e (splitext_ext (filename file)) := written]> (tmpdir d))
         ∧ (tmp_write_error e = None →
            code = 400
            ∧ tmpdir d'
              = if remove_fails e
                then <[mkstemp e (splitext_ext (filename file)) := contents file]>
                       (tmpdir d)
                else delete (mkstemp e (splitext_ext (filename file))) (tmpdir d))))
  ∧ (endswith_any (lower (filename file)) allowed_extensions = false →
     upload_image h e d file descr
     = (d, Raise (http 400 "Only PNG, JPG, and JPEG images are accepted."))).
Proof.
  intros Hinv. split.
  - unfold upload_image.
    destruct (endswith_any _ _) eqn:Hext; simpl.
    + destruct Hinv as [? | [err Herr]]; [congruence|].
      destruct (tmp_write_error e) as [[werr|werr written]|].
      * do 3 eexists. split; [reflexivity|]. repeat split; done.
      * do 3 eexists. split; [reflexivity|]. repeat split; try done.
        by intros ? ? [= _ ->].
      * rewrite validate_image_written, Herr.
        do 3 eexists. split; [reflexivity|].
        unfold remove_tmp. destruct (remove_fails e); simpl; repeat split; try done.
        by rewrite delete_insert_eq.
    + do 3 eexists. repeat split; try done.
  - intros Hext. unfold upload_image. by rewrite Hext.
Qed.

Lemma upload_rejects_invalid_witness :
  upload_image alice vision_down unsorted_disk photo_txt ""
  = (unsorted_disk, Raise (http 400 "Only PNG, JPG, and JPEG images are accepted."))
  ∧ ∃ d' code reason,
      upload_image alice vision_down unsorted_disk corrupt_jpg "" = (d', Raise (http code reason))
      ∧ uploads_meals d' = uploads_meals unsorted_disk
      ∧ meals_json d' = meals_json unsorted_disk.
Proof.
  split.
  - apply (proj2 (upload_rejects_invalid alice vision_down unsorted_disk photo_txt ""
                    (or_introl eq_refl))).
    reflexivity.
  - destruct (proj1 (upload_rejects_invalid alice vision_down unsorted_disk corrupt_jpg ""
                       (or_intror (ex_intro _ _ eq_refl))))
      as (d' & code & reason & Hup & Hfiles & Hjson & _).
    exists d', code, reason. auto.
Defined.

(** C10. For an upload of a valid image on which no file operation fails,
    a vision call that raises does not fail the upload: the endpoint moves
    the image into the content directory, appends a record whose analysis
    field is the error description [{"error": str(e)}], and answers with
    the success response that names the assigned id and the stored path. *)
Theorem upload_survives_analysis_failure (h : host) (e : upload_env) (d : disk)
    (file : UploadFile) (descr uid : string) (err : exn) :
  valid_image e file →
  no_io_fault e →
  readable_store d →
  get_user_id h = Return uid →
  (∀ path question, analyze_meal_image e path question = Raise err) →
  ∃ d',
    upload_image h e d file descr
    = (d', Return (success_response e file (new_id (stored d))))
    ∧ meals_json d'
      = Array (stored d ++
               [record_for e file descr uid (new_id (stored d))
                  (ErrorResult (exn_str err))])
    ∧ uploads_meals d' !! final_image_path e file (new_id (stored d))
      = Some (contents file).
Proof.
  intros [Hext Himg] (Htmp & Hmk & Hmv & Hwr) Hstore Huid Hfail.
  unfold upload_image. rewrite Hext, Htmp. simpl.
  rewrite validate_image_written, Himg, Hmk.
  unfold save_meal, stored. simpl. rewrite lookup_insert_eq, Hmv, Huid, Hwr.
  unfold record_for, analysis_result.
  destruct (meals_json d) as [|ms|bad] eqn:Hjson; [| |by destruct (Hstore bad)];
    rewrite !Hfail; (eexists; split; [reflexivity|]); simpl;
    (split; [reflexivity | apply lookup_insert_eq]).
Qed.

Lemma upload_survives_analysis_failure_witness :
  ∃ d',
    upload_image alice vision_down unsorted_disk photo_jpg "lunch"
    = (d', Return {| status := "success";
                     detail := "Meal image uploaded and analyzed successfully. ID: 8";
                     document_path := Some "uploads/meals/meals_8_20240101_120000.jpg" |})
    ∧ meals_json d'
      = Array ([old_meal 3; old_meal 7; old_meal 5] ++
               [record_for vision_down photo_jpg "lunch" "user_nehctik@" 8
                  (ErrorResult "OpenAI Vision API analysis failed: timeout")]).
Proof.
  destruct (upload_survives_analysis_failure alice vision_down unsorted_disk photo_jpg
              "lunch" "user_nehctik@"
              (Exn RuntimeError "OpenAI Vision API analysis failed: timeout"))
    as (d' & Hup & Hjson & _).
  - split; reflexivity.
  - repeat split; reflexivity.
  - intros bad; discriminate.
  - reflexivity.
  - reflexivity.
  - exists d'. split; [exact Hup | exact Hjson].
Defined.

End UploadClaims.

(** ** The web-search tool *)

Module WebsearchFacts.
Import Websearch SearchTerms.

Lemma string_app_cons (x : ascii) (a b : string) :
  String x a +:+ b = String x (a +:+ b).
Proof. reflexivity. Qed.

Lemma string_app_assoc (a b c : string) : (a +:+ b) +:+ c = a +:+ (b +:+ c).
Proof.
  induction a as [|x a IH]; [reflexivity|].
  rewrite !string_app_cons. by f_equal.
Qed.

Lemma string_app_empty_r (a : string) : a +:+ "" = a.
Proof.
  induction a as [|x a IH]; [reflexivity|].
  rewrite string_app_cons. by f_equal.
Qed.

Lemma format_result_dict idx d : format_result idx (Dict d) = Return (snippet idx d).
Proof.
  unfold format_result, snippet, field, score_line, get. simpl.
  unfold mbind, result_bind, mret, result_ret.
  destruct (dict_get d "title"), (dict_get d "url"), (dict_get d "content"),
    (dict_get d "score") as [v|]; simpl; try destruct (py_truthy v); reflexivity.
Qed.

Lemma format_results_dicts ds idx acc :
  format_results idx (Dict <$> ds) acc = Return (acc +:+ snippets idx ds).
Proof.
  revert idx acc. induction ds as [|d ds IH]; intros idx acc.
  - simpl. by rewrite string_app_empty_r.
  - rewrite fmap_cons.
    change (format_results idx (Dict d :: (Dict <$> ds)) acc)
      with (format_result idx (Dict d)
              ≫= λ lines, format_results (S idx) (Dict <$> ds) (acc +:+ lines)).
    rewrite format_result_dict.
    change (format_results (S idx) (Dict <$> ds) (acc +:+ snippet idx d)
            = Return (acc +:+ snippets idx (d :: ds))).
    rewrite IH. by rewrite string_app_assoc.
Qed.

(** What the tool is written to do, for every query and every behaviour
    of a backend: it returns a string and does not raise; when the
    backend raises, the string describes the error; when it returns
    something empty, the string is the explicit no-results message; when
    it returns a non-empty list of result dicts, the string is the header
    followed by one numbered snippet per result with its title, URL,
    content and relevance score. *)
Lemma web_search_nutrition_total (tavily_invoke : string → Py.result search_value)
    (query : string) :
  ∃ s, web_search_nutrition tavily_invoke query = Return s
    ∧ (∀ e, tavily_invoke query = Raise e →
            s = "Error performing web search: " +:+ exn_str e)
    ∧ (∀ v, tavily_invoke query = Return v → truthy v = false →
            s = "No results found for the query.")
    ∧ (∀ ds, tavily_invoke query = Return (Items (Dict <$> ds)) → ds ≠ [] →
            s = header query +:+ snippets 1 ds).
Proof.
  unfold web_search_nutrition, search_body, try_except.
  destruct (tavily_invoke query) as [v|e] eqn:Hcall; simpl.
  - unfold mbind, result_bind.
    destruct (truthy v) eqn:Htruthy; simpl.
    + destruct v as [l|ty t]; simpl.
      * destruct (format_results 1 l _) as [s|e] eqn:Hfmt; eexists;
          (split; [reflexivity|]); (split; [intros ? [=] |]);
          (split; [intros ? [= <-]; simpl in *; congruence |]);
          intros ds [= ->] _; rewrite format_results_dicts in Hfmt;
          by inversion Hfmt.
      * eexists. split; [reflexivity|]. split; [intros ? [=] |].
        split; [intros ? [= <-]; simpl in *; congruence | intros ? [=]].
    + eexists. split; [reflexivity|]. split; [intros ? [=] |].
      split; [done|].
      intros ds [= ->] Hne. destruct ds; simpl in *; congruence.
  - eexists. split; [reflexivity|]. split; [by intros ? [= <-] |].
    split; intros ? [=].
Qed.

(** The three outcomes on concrete backends. *)
Example search_text :
  web_search_nutrition Stubs.one_result "rice"
  = Return "Search Results for: 'rice'

1. Rice, cooked
   URL: https://example.org/rice
   Content: 205 kcal per cup
   Relevance Score: 0.91

".
Proof. vm_compute. reflexivity. Qed.

Example search_without_results :
  web_search_nutrition (λ _, Return (Items [])) "rice"
  = Return "No results found for the query.".
Proof. reflexivity. Qed.

Example search_backend_down :
  web_search_nutrition (λ _, Raise (Exn OtherException "401 Unauthorized")) "rice"
  = Return "Error performing web search: 401 Unauthorized".
Proof. reflexivity. Qed.

(** A backend that answers with a dict instead of a list of dicts: the
    loop then meets its keys, which are strings, and the tool reports the
    attribute error as text. *)
Example search_answer_of_wrong_shape :
  web_search_nutrition (λ _, Return (Items [NotDict "str"; NotDict "str"])) "rice"
  = Return "Error performing web search: 'str' object has no attribute 'get'".
Proof. reflexivity. Qed.

End WebsearchFacts.

(** ** The reducer *)

Module ReducerFacts.
Import HistoryTerms.

Lemma ids_app (l1 l2 : list Message) : ids (l1 ++ l2) = ids l1 ++ ids l2.
Proof. apply fmap_app. Qed.

Lemma length_ids (l : list Message) : length (ids l) = length l.
Proof. apply length_fmap. Qed.

Lemma msg_id_set_id i m : msg_id (set_id i m) = i.
Proof. by destruct m. Qed.

Lemma content_set_id i m : Messages.content (set_id i m) = Messages.content m.
Proof. by destruct m. Qed.

Lemma tool_calls_set_id i m : tool_calls_attr (set_id i m) = tool_calls_attr m.
Proof. by destruct m. Qed.

(** *** [upsert] *)

Lemma upsert_fresh (m : Message) (l : list Message) :
  msg_id m ∉ ids l → upsert m l = l ++ [m].
Proof.
  induction l as [|x l IH]; simpl; [done|].
  intros Hnin. apply not_elem_of_cons in Hnin as [Hne Hnin].
  case_decide; [congruence|]. by rewrite IH.
Qed.

Lemma ids_upsert_known (m : Message) (l : list Message) :
  msg_id m ∈ ids l → ids (upsert m l) = ids l.
Proof.
  induction l as [|x l IH]; simpl; [by intros ?%elem_of_nil|].
  intros Hin. case_decide as Heq; simpl; [by rewrite Heq|].
  apply elem_of_cons in Hin as [? | Hin]; [congruence|].
  by rewrite IH.
Qed.

Lemma ids_upsert (m : Message) (l : list Message) :
  ids (upsert m l) = if decide (msg_id m ∈ ids l) then ids l else ids l ++ [msg_id m].
Proof.
  case_decide as Hin; [by apply ids_upsert_known|].
  rewrite upsert_fresh by done. apply ids_app.
Qed.

Lemma upsert_NoDup (m : Message) (l : list Message) :
  NoDup (ids l) → NoDup (ids (upsert m l)).
Proof.
  intros Hnd. rewrite ids_upsert. case_decide as Hin; [done|].
  apply NoDup_app. split; [done|]. split; [|apply NoDup_singleton].
  intros k Hk ->%list_elem_of_singleton. done.
Qed.

Lemma upsert_has_id (m : Message) (l : list Message) :
  has_id m → Forall has_id l → Forall has_id (upsert m l).
Proof.
  intros Hm. induction 1 as [|x l Hx Hl IH]; simpl; [by constructor|].
  case_decide; constructor; auto.
Qed.

Lemma upsert_insert (m : Message) (l : list Message) (i : nat) :
  NoDup (ids l) → ids l !! i = Some (msg_id m) → upsert m l = <[i:=m]> l.
Proof.
  revert i. induction l as [|x l IH]; intros i Hnd Hi; [done|].
  simpl in Hnd. apply NoDup_cons in Hnd as [Hx Hnd]. simpl.
  destruct i as [|i]; simpl in Hi.
  - injection Hi as Hi. by rewrite decide_True.
  - rewrite decide_False.
    + simpl. f_equal. by apply IH.
    + intros Heq. apply Hx. rewrite Heq. eapply list_elem_of_lookup_2, Hi.
Qed.

Lemma upsert_member (m : Message) (l : list Message) :
  NoDup (ids l) → m ∈ l → upsert m l = l.
Proof.
  intros Hnd [i Hi]%list_elem_of_lookup.
  rewrite (upsert_insert m l i Hnd).
  - by apply list_insert_id.
  - unfold ids. by rewrite list_lookup_fmap, Hi.
Qed.

Lemma upsert_idem (m : Message) (l : list Message) :
  upsert m (upsert m l) = upsert m l.
Proof.
  induction l as [|x l IH]; simpl.
  - by rewrite decide_True.
  - case_decide as Heq; simpl.
    + by rewrite decide_True.
    + rewrite decide_False by done. by rewrite IH.
Qed.

Lemma upsert_absorb (m1 m2 : Message) (l : list Message) :
  msg_id m1 = msg_id m2 → upsert m2 (upsert m1 l) = upsert m2 l.
Proof.
  intros Heq. induction l as [|x l IH]; simpl.
  - by rewrite decide_True.
  - rewrite Heq. case_decide as Hx; simpl.
    + by rewrite decide_True.
    + rewrite decide_False by done. by rewrite IH.
Qed.

Lemma upsert_comm (m1 m2 : Message) (l : list Message) :
  msg_id m1 ≠ msg_id m2 → msg_id m1 ∈ ids l →
  upsert m2 (upsert m1 l) = upsert m1 (upsert m2 l).
Proof.
  intros Hne. induction l as [|x l IH]; simpl; [by intros ?%elem_of_nil|].
  intros Hin.
  destruct (decide (msg_id x = msg_id m1)) as [H1|H1];
    destruct (decide (msg_id x = msg_id m2)) as [H2|H2]; simpl.
  - congruence.
  - rewrite decide_False by congruence. by rewrite decide_True.
  - rewrite decide_True by done. by rewrite decide_False by congruence.
  - rewrite !decide_False by done.
    apply elem_of_cons in Hin as [? | Hin]; [congruence|]. by rewrite IH.
Qed.

(** *** Folding [upsert] over the messages of an update *)

Lemma upserts_cons l m r : upserts l (m :: r) = upserts (upsert m l) r.
Proof. reflexivity. Qed.

Lemma upserts_snoc l r m : upserts l (r ++ [m]) = upsert m (upserts l r).
Proof. unfold upserts. by rewrite foldl_app. Qed.

Lemma upserts_NoDup l r : NoDup (ids l) → NoDup (ids (upserts l r)).
Proof.
  revert l. induction r as [|m r IH]; intros l Hnd; [done|].
  rewrite upserts_cons. by apply IH, upsert_NoDup.
Qed.

Lemma upserts_has_id l r :
  Forall has_id l → Forall has_id r → Forall has_id (upserts l r).
Proof.
  intros Hl Hr. revert l Hl. induction Hr as [|m r Hm Hr IH]; intros l Hl; [done|].
  rewrite upserts_cons. by apply IH, upsert_has_id.
Qed.

(** Nothing is removed or reordered: the ids of the old history are the
    first ids of the new one. *)
Lemma upserts_ids_prefix l r : ids l `prefix_of` ids (upserts l r).
Proof.
  revert l. induction r as [|m r IH]; intros l; [done|].
  rewrite upserts_cons. etrans; [|apply IH].
  rewrite ids_upsert. case_decide; [done | by apply prefix_app_r].
Qed.

Lemma upserts_known_id m l r :
  msg_id m ∈ ids l → msg_id m ∈ ids (upserts l r).
Proof.
  intros Hin. destruct (upserts_ids_prefix l r) as [k ->].
  apply elem_of_app. by left.
Qed.

(** Messages with new, pairwise distinct ids are appended in order. *)
Lemma upserts_fresh l r :
  NoDup (ids r) → (∀ k, k ∈ ids r → k ∉ ids l) → upserts l r = l ++ r.
Proof.
  revert l. induction r as [|m r IH]; intros l Hnd Hfresh.
  - by rewrite app_nil_r.
  - simpl in Hnd. apply NoDup_cons in Hnd as [Hm Hnd].
    rewrite upserts_cons, upsert_fresh.
    + rewrite IH; [by rewrite <- app_assoc | done |].
      intros k Hk. rewrite ids_app. intros [Hl | ->%list_elem_of_singleton]%elem_of_app.
      * by apply (Hfresh k); [right|].
      * done.
    + apply Hfresh. by left.
Qed.

(** Messages that are already stored leave the history as it is. *)
Lemma upserts_members l r :
  NoDup (ids l) → (∀ m, m ∈ r → m ∈ l) → upserts l r = l.
Proof.
  intros Hnd. induction r as [|m r IH]; intros Hsub; [done|].
  rewrite upserts_cons, upsert_member; [|done|apply Hsub; by left].
  apply IH. intros m' Hm'. apply Hsub. by right.
Qed.

Lemma upserts_comm m l r :
  msg_id m ∈ ids l → msg_id m ∉ ids r →
  upsert m (upserts l r) = upserts (upsert m l) r.
Proof.
  revert l. induction r as [|x r IH]; intros l Hin Hnin; [done|].
  simpl in Hnin. apply not_elem_of_cons in Hnin as [Hne Hnin].
  rewrite !upserts_cons, IH; [| |done].
  - by rewrite (upsert_comm m x l).
  - rewrite ids_upsert. case_decide; [done|]. apply elem_of_app. by left.
Qed.

Lemma upserts_absorb m l r :
  msg_id m ∈ ids l → msg_id m ∈ ids r →
  upserts (upsert m l) r = upserts l r.
Proof.
  revert l. induction r as [|x r IH]; intros l Hin Hr; [by apply elem_of_nil in Hr|].
  rewrite !upserts_cons.
  destruct (decide (msg_id m = msg_id x)) as [Heq|Hne].
  - by rewrite upsert_absorb.
  - simpl in Hr. apply elem_of_cons in Hr as [? | Hr]; [done|].
    rewrite (upsert_comm m x l) by done. apply IH; [|done].
    rewrite ids_upsert. case_decide; [done|]. apply elem_of_app. by left.
Qed.

(** Replaying an update whose messages carry their ids changes nothing. *)
Lemma upserts_replay l r : upserts (upserts l r) r = upserts l r.
Proof.
  revert l. induction r as [|m r IH]; intros l; [done|].
  rewrite !upserts_cons.
  assert (msg_id m ∈ ids (upsert m l)) as Hin.
  { rewrite ids_upsert. case_decide; [done|]. apply elem_of_app. right. by left. }
  destruct (decide (msg_id m ∈ ids r)) as [Hr|Hr].
  - rewrite upserts_absorb; [apply IH | by apply upserts_known_id | done].
  - rewrite upserts_comm by done. by rewrite upsert_idem.
Qed.

(** A message whose id is not stored leaves the stored messages alone. *)
Lemma upsert_app_new m l k :
  msg_id m ∉ ids l → upsert m (l ++ k) = l ++ upsert m k.
Proof.
  induction l as [|x l IH]; simpl; [done|].
  intros [Hne Hnin]%not_elem_of_cons.
  rewrite decide_False by congruence. by rewrite IH.
Qed.

(** An update that overwrites nothing (a message carrying a stored id is
    the stored message itself) only appends: the stored history is an
    initial segment of the new one. *)
Lemma upserts_prefix l acc r :
  NoDup (ids acc) → l `prefix_of` acc →
  (∀ m, m ∈ r → msg_id m ∈ ids l → m ∈ l) →
  l `prefix_of` upserts acc r.
Proof.
  revert acc. induction r as [|m r IH]; intros acc Hnd Hpre Hsame; [done|].
  rewrite upserts_cons. apply IH.
  - by apply upsert_NoDup.
  - destruct (decide (msg_id m ∈ ids l)) as [Hin|Hnin].
    + rewrite upsert_member; [done | done |].
      destruct Hpre as [k ->]. apply elem_of_app. left. apply Hsame; [by left | done].
    + destruct Hpre as [k ->]. rewrite upsert_app_new by done. by apply prefix_app_r.
  - intros m' Hm'. apply Hsame. by right.
Qed.

(** *** The merge loop with its index is [upserts] *)

Lemma indexes_snoc d l m :
  NoDup (ids (l ++ [m])) → indexes d l →
  indexes (<[msg_id m := length l]> d) (l ++ [m]).
Proof.
  unfold indexes. rewrite !ids_app. simpl.
  intros [Hnd [Hdisj _]]%NoDup_app Hd k i.
  assert (msg_id m ∉ ids l) as Hm.
  { intros Hin. apply (Hdisj _ Hin). by left. }
  rewrite lookup_insert. case_decide as Hk.
  - subst k. split.
    + intros [= <-]. rewrite lookup_app_r by (by rewrite length_ids).
      by rewrite length_ids, Nat.sub_diag.
    + intros Hi. f_equal. destruct (decide (i < length l)) as [Hlt|Hge].
      * rewrite lookup_app_l in Hi by (by rewrite length_ids).
        destruct Hm. eapply list_elem_of_lookup_2, Hi.
      * apply lookup_lt_Some in Hi. rewrite length_app, length_ids in Hi.
        simpl in Hi. lia.
  - rewrite (Hd k i). split.
    + intros Hi. by apply lookup_app_l_Some.
    + intros Hi. apply lookup_app_Some in Hi as [Hi | [_ Hi]]; [done|].
      apply list_lookup_singleton_Some in Hi as [_ ?]. congruence.
Qed.

Lemma index_by_id_indexes p l d :
  NoDup (ids (p ++ l)) → indexes d p →
  indexes (index_by_id l (length p) d) (p ++ l).
Proof.
  revert p d. induction l as [|m l IH]; intros p d Hnd Hd; simpl.
  - by rewrite app_nil_r.
  - replace (p ++ m :: l) with ((p ++ [m]) ++ l) in * by (by rewrite <- app_assoc).
    replace (S (length p)) with (length (p ++ [m])) by (rewrite length_app; simpl; lia).
    apply IH; [done|]. apply indexes_snoc; [|done].
    rewrite ids_app in Hnd. by apply NoDup_app in Hnd as [? _].
Qed.

Lemma index_by_id_start l : NoDup (ids l) → indexes (index_by_id l 0 ∅) l.
Proof.
  intros Hnd. apply (index_by_id_indexes [] l ∅ Hnd).
  intros k i. rewrite lookup_empty. simpl. by rewrite lookup_nil.
Qed.

Lemma merge_step_upsert l d m :
  NoDup (ids l) → indexes d l →
  ∃ d', merge_step (l, d) m = (upsert m l, d') ∧ indexes d' (upsert m l).
Proof.
  intros Hnd Hd. unfold merge_step.
  destruct (d !! msg_id m) as [i|] eqn:Hlook.
  - apply Hd in Hlook. exists d. split.
    + by rewrite (upsert_insert m l i).
    + intros k j. rewrite ids_upsert_known; [apply Hd|].
      eapply list_elem_of_lookup_2, Hlook.
  - assert (msg_id m ∉ ids l) as Hm.
    { intros [i Hi]%list_elem_of_lookup. apply Hd in Hi. congruence. }
    rewrite upsert_fresh by done. eexists. split; [done|].
    apply indexes_snoc; [|done].
    rewrite <- (upsert_fresh m l Hm). by apply upsert_NoDup.
Qed.

Lemma foldl_merge_step l d r :
  NoDup (ids l) → indexes d l →
  (foldl merge_step (l, d) r).1 = upserts l r.
Proof.
  revert l d. induction r as [|m r IH]; intros l d Hnd Hd; [done|].
  change (foldl merge_step (l, d) (m :: r))
    with (foldl merge_step (merge_step (l, d) m) r).
  destruct (merge_step_upsert l d m Hnd Hd) as (d' & -> & Hd').
  rewrite upserts_cons. apply IH; [by apply upsert_NoDup | done].
Qed.

(** On a history without repeated ids, the library's merge is [upserts]. *)
Lemma merge_upserts l r : NoDup (ids l) → merge l r = upserts l r.
Proof.
  intros Hnd. unfold merge. apply foldl_merge_step; [done|].
  by apply index_by_id_start.
Qed.

(** *** [assign_ids] and [add_messages] *)

Section WithUuid.

Variable uuid4 : nat → string.

Local Abbreviation stored_as := (stored_as uuid4).

Lemma assign_ids_keeps ms g : Forall has_id ms → assign_ids uuid4 ms g = (ms, g).
Proof.
  induction 1 as [|m ms [i Hi] Hms IH]; simpl; [done|].
  by rewrite Hi, IH.
Qed.

Lemma assign_ids_has_id ms g : Forall has_id (assign_ids uuid4 ms g).1.
Proof.
  revert g. induction ms as [|m ms IH]; intros g; simpl; [constructor|].
  destruct (msg_id m) as [i|] eqn:Hi.
  - specialize (IH g). destruct (assign_ids uuid4 ms g) as [r g']; simpl in *.
    constructor; [by exists i | done].
  - specialize (IH (S g)). destruct (assign_ids uuid4 ms (S g)) as [r g']; simpl in *.
    constructor; [|done]. unfold has_id. rewrite msg_id_set_id. by eexists.
Qed.

Lemma assign_ids_snoc ms m g :
  Forall has_id ms →
  assign_ids uuid4 (ms ++ [m]) g = (ms ++ [(stored_as m g).1], (stored_as m g).2).
Proof.
  induction 1 as [|x ms [i Hi] Hms IH]; simpl.
  - unfold stored_as. by destruct (msg_id m).
  - by rewrite Hi, IH.
Qed.

Lemma assign_ids_one m g :
  assign_ids uuid4 [m] g = ([(stored_as m g).1], (stored_as m g).2).
Proof. apply (assign_ids_snoc [] m g). constructor. Qed.

Lemma stored_as_has_id m g : has_id (stored_as m g).1.
Proof.
  unfold stored_as, has_id. destruct (msg_id m) as [i|] eqn:Hi; simpl.
  - by rewrite Hi.
  - by rewrite msg_id_set_id.
Qed.

Lemma stored_as_content m g : Messages.content (stored_as m g).1 = Messages.content m.
Proof. unfold stored_as. destruct (msg_id m); simpl; [done | apply content_set_id]. Qed.

Lemma stored_as_tool_calls m g :
  tool_calls_attr (stored_as m g).1 = tool_calls_attr m.
Proof. unfold stored_as. destruct (msg_id m); simpl; [done | apply tool_calls_set_id]. Qed.

(** On a stored history the reducer is [upserts] of the update with its
    ids assigned. *)
Lemma add_messages_stored l r g :
  wf_history l →
  add_messages uuid4 l r g
  = (upserts l (assign_ids uuid4 r g).1, (assign_ids uuid4 r g).2).
Proof.
  intros [Hnd Hids]. unfold add_messages. rewrite (assign_ids_keeps l g Hids).
  destruct (assign_ids uuid4 r g) as [r' g']. simpl. by rewrite merge_upserts.
Qed.

Lemma add_messages_wf l r g :
  wf_history l → wf_history (add_messages uuid4 l r g).1.
Proof.
  intros Hwf. rewrite add_messages_stored by done. simpl.
  destruct Hwf as [Hnd Hids]. split.
  - by apply upserts_NoDup.
  - apply upserts_has_id; [done | apply assign_ids_has_id].
Qed.

Lemma wf_history_nil : wf_history [].
Proof. split; [apply NoDup_nil_2 | constructor]. Qed.

(** What [llm_call]'s update, the whole history plus the answer, does to
    the stored history: the answer replaces the message that has its id,
    or is appended when its id is new. *)
Lemma add_messages_history_plus l m g :
  wf_history l →
  add_messages uuid4 l (l ++ [m]) g = (upsert (stored_as m g).1 l, (stored_as m g).2).
Proof.
  intros Hwf. rewrite add_messages_stored by done.
  destruct Hwf as [Hnd Hids]. rewrite assign_ids_snoc by done. simpl.
  by rewrite upserts_snoc, upserts_members.
Qed.

(** The reducer never shortens a history, and a non-empty update leaves
    a non-empty history. *)
Lemma merge_step_length acc m : length acc.1 ≤ length (merge_step acc m).1.
Proof.
  destruct acc as [merged d]. unfold merge_step.
  destruct (d !! msg_id m); simpl.
  - by rewrite length_insert.
  - rewrite length_app. lia.
Qed.

Lemma foldl_merge_step_length acc r :
  length acc.1 ≤ length (foldl merge_step acc r).1.
Proof.
  revert acc. induction r as [|m r IH]; intros acc; [done|].
  simpl. etrans; [apply (merge_step_length acc m) | apply IH].
Qed.

Lemma merge_length l r : length l ≤ length (merge l r).
Proof. apply (foldl_merge_step_length (l, _) r). Qed.

Lemma merge_nonempty l r : r ≠ [] → merge l r ≠ [].
Proof.
  intros Hr Hnil. pose proof (merge_length l r) as Hlen. rewrite Hnil in Hlen.
  destruct l as [|x l]; [|simpl in Hlen; lia].
  destruct r as [|m r]; [done|].
  pose proof (foldl_merge_step_length (merge_step ([], index_by_id [] 0 ∅) m) r) as Hle.
  unfold merge in Hnil. simpl in Hnil, Hle.
  rewrite Hnil in Hle. simpl in Hle. rewrite lookup_empty in Hle. simpl in Hle. lia.
Qed.

Lemma assign_ids_length ms g : length (assign_ids uuid4 ms g).1 = length ms.
Proof.
  revert g. induction ms as [|m ms IH]; intros g; simpl; [done|].
  destruct (msg_id m).
  - specialize (IH g). destruct (assign_ids uuid4 ms g). simpl in *. lia.
  - specialize (IH (S g)). destruct (assign_ids uuid4 ms (S g)). simpl in *. lia.
Qed.

Lemma add_messages_length l r g :
  length l ≤ length (add_messages uuid4 l r g).1.
Proof.
  unfold add_messages.
  pose proof (assign_ids_length l g) as Hl.
  destruct (assign_ids uuid4 l g) as [l' g1].
  destruct (assign_ids uuid4 r g1) as [r' g2]. simpl in *.
  rewrite <- Hl. apply merge_length.
Qed.

Lemma add_messages_nonempty l r g :
  r ≠ [] → (add_messages uuid4 l r g).1 ≠ [].
Proof.
  intros Hr. unfold add_messages.
  destruct (assign_ids uuid4 l g) as [l' g1].
  pose proof (assign_ids_length r g1) as Hlen.
  destruct (assign_ids uuid4 r g1) as [r' g2]. simpl in *.
  apply merge_nonempty. intros ->. destruct r; [done | simpl in Hlen; lia].
Qed.

End WithUuid.

End ReducerFacts.

(** ** The turn loop *)

Module WorkflowFacts.
Import ReducerFacts HistoryTerms.

Section Loop.

Variable uuid4 : nat → string.
Variable system_prompt : string.
Variable llm_with_tool : list Message → result Message.
Variable run_tool : ToolCall → string.
Variable recursion_limit : nat.

Local Abbreviation superstep := (superstep uuid4 system_prompt llm_with_tool run_tool recursion_limit).
Local Abbreviation ticks := (ticks uuid4 system_prompt llm_with_tool run_tool recursion_limit).
Local Abbreviation enter := (enter uuid4).
Local Abbreviation invoke_on := (invoke_on uuid4 system_prompt llm_with_tool run_tool recursion_limit).

Lemma superstep_terminal l : is_terminal (stat l) = true → superstep l = l.
Proof. unfold Workflow.superstep. by destruct (stat l). Qed.

Lemma ticks_succ n l : ticks (S n) l = ticks n (superstep l).
Proof. unfold Workflow.ticks. apply Nat.iter_succ_r. Qed.

Lemma ticks_terminal n l : is_terminal (stat l) = true → ticks n l = l.
Proof.
  intros Hl. induction n as [|n IH]; [done|].
  by rewrite ticks_succ, superstep_terminal.
Qed.

Lemma ticks_add n k l : ticks (n + k) l = ticks k (ticks n l).
Proof.
  unfold Workflow.ticks. rewrite Nat.add_comm. apply Nat.iter_add.
Qed.

(** A turn of the loop either ends the invocation or uses up one unit of
    the step budget. *)
Lemma superstep_progress l n :
  stat l = Next n →
  (is_terminal (stat (superstep l)) = true ∧ step (superstep l) ≤ S (step l)
   ∧ (step l ≤ recursion_limit → step (superstep l) ≤ recursion_limit))
  ∨ (step l < recursion_limit ∧ step (superstep l) = S (step l)).
Proof.
  intros Hn. unfold Workflow.superstep. rewrite Hn.
  case_decide as Hlim; [left; simpl; auto|].
  destruct (run_node _ _ _ n (state l)) as [update|e]; [|left; simpl; auto].
  destruct (add_messages _ _ _ _) as [ms g].
  destruct (edge_from n _) as [[n'|]|e]; simpl.
  - right. lia.
  - left. repeat split; lia.
  - left. auto.
Qed.

Lemma bounded_from k l :
  step l + k = recursion_limit →
  ∃ n, n ≤ S k ∧ is_terminal (stat (ticks n l)) = true
       ∧ step (ticks n l) ≤ recursion_limit.
Proof.
  revert l. induction k as [|k IH]; intros l Hk.
  - destruct (stat l) as [nd| |e] eqn:Hs.
    + exists 1. split; [lia|]. rewrite ticks_succ. simpl.
      destruct (superstep_progress l nd Hs) as [(Ht & _ & Hle) | [Hlt _]]; [|lia].
      split; [done | apply Hle; lia].
    + exists 0. simpl. rewrite Hs. split; [lia|]. split; [done | lia].
    + exists 0. simpl. rewrite Hs. split; [lia|]. split; [done | lia].
  - destruct (stat l) as [nd| |e] eqn:Hs.
    + destruct (superstep_progress l nd Hs) as [(Ht & _ & Hle) | [Hlt Hstep]].
      * exists 1. split; [lia|]. rewrite ticks_succ. simpl.
        split; [done | apply Hle; lia].
      * destruct (IH (superstep l)) as (n & Hn & Ht & Hle); [lia|].
        exists (S n). rewrite ticks_succ. split; [lia | done].
    + exists 0. simpl. rewrite Hs. split; [lia|]. split; [done | lia].
    + exists 0. simpl. rewrite Hs. split; [lia|]. split; [done | lia].
Qed.

End Loop.

(** C1. For every saved history of the thread, every input and every
    model, also one whose every answer requests a tool, one invocation of
    the compiled graph terminates within the step budget: after some
    number [n] of turns of the loop, at most one more than the recursion
    limit, the loop has stopped (the graph reached END, or a task or the
    budget check raised), it has executed at most [recursion_limit]
    supersteps, further turns change nothing, and this stopped state is
    what the invocation returns. *)
Theorem invocation_terminates_within_limit
    (uuid4 : nat → string) (system_prompt : string)
    (llm_with_tool : list Message → result Message)
    (run_tool : ToolCall → string) (recursion_limit : nat)
    (w : world) (thread_id : string) (input : AgentState) :
  ∃ n, n ≤ S recursion_limit
    ∧ is_terminal
        (stat (ticks uuid4 system_prompt llm_with_tool run_tool recursion_limit n
                 (enter uuid4 (default {| messages := [] |} (checkpoints w !! thread_id))
                    (drawn w) input))) = true
    ∧ (build_workflow uuid4 system_prompt llm_with_tool run_tool recursion_limit
         w thread_id input).2
      = ticks uuid4 system_prompt llm_with_tool run_tool recursion_limit n
          (enter uuid4 (default {| messages := [] |} (checkpoints w !! thread_id))
             (drawn w) input)
    ∧ step (build_workflow uuid4 system_prompt llm_with_tool run_tool recursion_limit
              w thread_id input).2 ≤ recursion_limit
    ∧ ∀ k, ticks uuid4 system_prompt llm_with_tool run_tool recursion_limit (n + k)
             (enter uuid4 (default {| messages := [] |} (checkpoints w !! thread_id))
                (drawn w) input)
           = ticks uuid4 system_prompt llm_with_tool run_tool recursion_limit n
               (enter uuid4 (default {| messages := [] |} (checkpoints w !! thread_id))
                  (drawn w) input).
Proof.
  unfold build_workflow.
  set (l0 := enter uuid4 _ _ _).
  assert (step l0 = 0) as H0.
  { unfold l0, enter. by destruct (add_messages _ _ _ _). }
  destruct (bounded_from uuid4 system_prompt llm_with_tool run_tool recursion_limit
              recursion_limit l0) as (n & Hn & Ht & Hle); [lia|].
  exists n. split; [done|]. split; [done|].
  assert ((invoke_on uuid4 system_prompt llm_with_tool run_tool recursion_limit
             w thread_id input).2
          = ticks uuid4 system_prompt llm_with_tool run_tool recursion_limit n l0) as ->.
  { change (ticks uuid4 system_prompt llm_with_tool run_tool recursion_limit
              (S recursion_limit) l0
            = ticks uuid4 system_prompt llm_with_tool run_tool recursion_limit n l0).
    replace (S recursion_limit) with (n + (S recursion_limit - n)) by lia.
    by rewrite ticks_add, ticks_terminal. }
  split; [done|]. split; [done|]. intros k. by rewrite ticks_add, ticks_terminal.
Qed.

Section Routing.

Variable uuid4 : nat → string.
Variable system_prompt : string.
Variable llm_with_tool : list Message → result Message.
Variable run_tool : ToolCall → string.
Variable recursion_limit : nat.

Local Abbreviation superstep :=
  (superstep uuid4 system_prompt llm_with_tool run_tool recursion_limit).

Lemma decision_node_last ms m :
  decision_node {| messages := ms ++ [m] |}
  = Return (match requests m with [] => "end" | _ => "continue" end).
Proof.
  unfold decision_node, requests. simpl. rewrite last_snoc.
  by destruct (tool_calls_attr m) as [[|c cs]|].
Qed.

(** The model step: the answer is appended and the status follows the
    requests it carries. *)
Lemma agent_step l answer :
  stat l = Next agent →
  step l < recursion_limit →
  wf_history (messages (state l)) →
  llm_with_tool (SystemMessage system_prompt None :: messages (state l)) = Return answer →
  msg_id (stored_as uuid4 answer (uuid_draws l)).1 ∉ ids (messages (state l)) →
  superstep l
  = {| state := {| messages := messages (state l)
                               ++ [(stored_as uuid4 answer (uuid_draws l)).1] |};
       uuid_draws := (stored_as uuid4 answer (uuid_draws l)).2;
       step := S (step l);
       stat := match requests answer with [] => Finished | _ => Next tool end;
       emitted := emitted l ++
                  [ {| messages := messages (state l)
                                   ++ [(stored_as uuid4 answer (uuid_draws l)).1] |} ] |}.
Proof.
  intros Hs Hlt Hwf Hllm Hfresh. unfold Workflow.superstep. rewrite Hs.
  rewrite decide_False by lia.
  unfold run_node, llm_call. rewrite Hllm.
  change (Return answer ≫= _)
    with (Return {| messages := messages (state l) ++ [answer] |}).
  cbn [messages].
  rewrite add_messages_history_plus by done.
  rewrite upsert_fresh by done.
  unfold edge_from. rewrite decision_node_last.
  unfold requests. rewrite stored_as_tool_calls.
  by destruct (tool_calls_attr answer) as [[|c cs]|].
Qed.

(** The tool step always hands control back to the model node. *)
Lemma tool_step l c cs content i :
  stat l = Next tool →
  step l < recursion_limit →
  last (messages (state l)) = Some (AIMessage content (c :: cs) i) →
  stat (superstep l) = Next agent.
Proof.
  intros Hs Hlt Hlast. unfold Workflow.superstep. rewrite Hs.
  rewrite decide_False by lia.
  unfold run_node, tool_node. rewrite Hlast.
  by destruct (add_messages _ _ _ _).
Qed.

(** C2. In a turn, after the model call the controller appends the answer
    and routes on it.  If the answer carries one or more tool invocation
    requests, the tool node is due next, and the tool step (when the step
    budget allows it) makes the model node due again.  If it carries none,
    the turn ends, and the turn's output is the content of that answer,
    the last appended message. *)
Theorem controller_routes_on_answer (l : loop) (answer : Message) :
  stat l = Next agent →
  step l < recursion_limit →
  wf_history (messages (state l)) →
  llm_with_tool (SystemMessage system_prompt None :: messages (state l)) = Return answer →
  msg_id (stored_as uuid4 answer (uuid_draws l)).1 ∉ ids (messages (state l)) →
  last (messages (state (superstep l))) = Some (stored_as uuid4 answer (uuid_draws l)).1
  ∧ (requests answer ≠ [] →
       stat (superstep l) = Next tool
       ∧ (S (step l) < recursion_limit → stat (superstep (superstep l)) = Next agent))
  ∧ (requests answer = [] →
       stat (superstep l) = Finished
       ∧ turn_output (state (superstep l)) = Some (Messages.content answer)).
Proof.
  intros Hs Hlt Hwf Hllm Hfresh.
  rewrite (agent_step l answer Hs Hlt Hwf Hllm Hfresh). cbn [state messages stat].
  split; [apply last_snoc|]. split.
  - intros Hreq. destruct (requests answer) as [|c cs] eqn:Hcalls; [done|].
    split; [done|]. intros Hlt'.
    unfold requests in Hcalls. rewrite <- (stored_as_tool_calls uuid4 answer (uuid_draws l)) in Hcalls.
    destruct ((stored_as uuid4 answer (uuid_draws l)).1) as [| ct calls i | |] eqn:Hst;
      simpl in Hcalls; try done. subst calls.
    eapply tool_step; [done | done |]. cbn [state messages]. apply last_snoc.
  - intros ->. split; [done|].
    unfold turn_output. cbn [messages]. rewrite last_snoc. simpl.
    by rewrite stored_as_content.
Qed.

End Routing.

End WorkflowFacts.

(** ** The chat endpoint *)

Module ChatFacts.
Import ReducerFacts WorkflowFacts HistoryTerms.

Lemma consume_spec steps c :
  Forall nonempty steps →
  Main.consume steps c
  = Return (match last steps with
            | Some s => default "" (Messages.content <$> last (messages s))
            | None => c
            end).
Proof.
  intros Hne. revert c. induction Hne as [|s steps Hs Hne IH]; intros c; [done|].
  simpl. destruct (last (messages s)) as [m|] eqn:Hlast.
  - rewrite IH. destruct steps as [|s' steps']; simpl; [by rewrite Hlast|].
    destruct (last (s' :: steps')) eqn:Hl; [done | by apply last_None in Hl].
  - apply last_None in Hlast. done.
Qed.

Section Chat.

Variable uuid4 : nat → string.
Variable system_prompt : string.
Variable llm_with_tool : list Message → result Message.
Variable run_tool : ToolCall → string.
Variable recursion_limit : nat.
Variable h : Main.host.

Local Abbreviation superstep :=
  (superstep uuid4 system_prompt llm_with_tool run_tool recursion_limit).
Local Abbreviation ticks :=
  (ticks uuid4 system_prompt llm_with_tool run_tool recursion_limit).
Local Abbreviation invoke_on :=
  (invoke_on uuid4 system_prompt llm_with_tool run_tool recursion_limit).
Local Abbreviation chat_try :=
  (Main.chat_try uuid4 system_prompt llm_with_tool run_tool recursion_limit h).
Local Abbreviation chat :=
  (Main.chat uuid4 system_prompt llm_with_tool run_tool recursion_limit h).

Lemma enter_streaming saved g input :
  messages input ≠ [] → streaming (enter uuid4 saved g input).
Proof.
  intros Hin. unfold enter.
  pose proof (add_messages_nonempty uuid4 (messages saved) (messages input) g Hin) as Hne.
  destruct (add_messages _ _ _ _) as [ms g']. simpl in Hne.
  repeat split; simpl; [done | by repeat constructor].
Qed.

Lemma superstep_streaming l : streaming l → streaming (superstep l).
Proof.
  intros (Hst & Hem & Hlast). unfold Workflow.superstep.
  destruct (stat l) as [n| |e]; [|done|done].
  case_decide; [done|].
  destruct (run_node _ _ _ n (state l)) as [update|e]; [|done].
  pose proof (add_messages_length uuid4 (messages (state l)) (messages update)
                (uuid_draws l)) as Hlen.
  destruct (add_messages _ _ _ _) as [ms g]. simpl in Hlen.
  assert (ms ≠ []) as Hms.
  { intros ->. unfold nonempty in Hst. destruct (messages (state l)); [done|].
    simpl in Hlen. lia. }
  destruct (edge_from n _) as [t|e]; [|done].
  repeat split; simpl; [done | | apply last_snoc].
  apply Forall_app. split; [done | by repeat constructor].
Qed.

Lemma ticks_streaming n l : streaming l → streaming (ticks n l).
Proof.
  revert l. induction n as [|n IH]; intros l Hl; [done|].
  rewrite ticks_succ. by apply IH, superstep_streaming.
Qed.

Lemma input_messages_nonempty req : Main.input_messages req ≠ [].
Proof. unfold Main.input_messages. by intros [_ ?]%app_eq_nil. Qed.

(** The [try] block of [chat] once the thread id is known: the exception
    of a failed run, or the content of the last message of the value the
    run ended on (the apology when that content is empty). *)
Lemma chat_try_spec w req uid :
  Main.get_user_id h = Return uid →
  chat_try w req
  = ((invoke_on w (uid +:+ "_api_session")
        {| messages := Main.input_messages req |}).1,
     match stat (invoke_on w (uid +:+ "_api_session")
                   {| messages := Main.input_messages req |}).2 with
     | Failed e => Raise e
     | _ => Return (spoken (state (invoke_on w (uid +:+ "_api_session")
                                     {| messages := Main.input_messages req |}).2))
     end).
Proof.
  intros Huid.
  unfold Main.chat_try, Main.chat_thread_id, Main.workflow_app, build_workflow.
  rewrite Huid.
  change (Return uid ≫= _) with (Return (uid +:+ "_api_session")).
  set (thread_id := uid +:+ "_api_session").
  set (input := {| messages := Main.input_messages req |}).
  assert (streaming (invoke_on w thread_id input).2) as (_ & Hem & Hlast).
  { apply ticks_streaming, enter_streaming, input_messages_nonempty. }
  destruct (invoke_on w thread_id input) as [w' final]. simpl in *.
  rewrite (consume_spec (emitted final) "" Hem), Hlast.
  f_equal. unfold spoken.
  destruct (stat final); simpl; try done; by destruct (truthy_str _).
Qed.

Lemma chat_responds w req :
  ∃ resp, (chat w req).2 = Return resp ∧ Main.resp_role resp = "assistant".
Proof.
  unfold Main.chat. destruct (Main.chat_try _ _ _ _ _ _ w req) as [w' [c|e]]; simpl.
  - by eexists.
  - unfold Main.chat_handler. destruct (is_ImportError e); by eexists.
Qed.

Lemma chat_renders w req e :
  (chat_try w req).2 = Raise e →
  (chat w req).2 = Return (Main.ChatResponse_of (rendered e)).
Proof.
  unfold Main.chat, rendered.
  destruct (Main.chat_try _ _ _ _ _ _ w req) as [w' r]. simpl. intros ->. simpl.
  unfold Main.chat_handler. by destruct (is_ImportError e).
Qed.

End Chat.

(** C9. Every chat request, validated or not, is answered with a response
    payload whose role is [assistant]; no exception leaves the handler.
    A failure is worded in the content: when reading the user id fails
    and when the run of the turn fails (the model call raises, or the
    runtime does), the content is the text of the exception, introduced
    as a configuration error for an import error and as an error
    otherwise. *)
Theorem chat_always_answers
    (uuid4 : nat → string) (system_prompt : string)
    (llm_with_tool : list Message → result Message)
    (run_tool : ToolCall → string) (recursion_limit : nat) (h : Main.host)
    (w : world) (req : Main.ChatRequest) :
  ∃ resp,
    (Main.chat uuid4 system_prompt llm_with_tool run_tool recursion_limit h w req).2
    = Return resp
    ∧ Main.resp_role resp = "assistant"
    ∧ (∀ e, Main.get_user_id h = Raise e → Main.resp_content resp = rendered e)
    ∧ (∀ uid e,
         Main.get_user_id h = Return uid →
         stat (invoke_on uuid4 system_prompt llm_with_tool run_tool recursion_limit
                 w (uid +:+ "_api_session")
                 {| messages := Main.input_messages req |}).2 = Failed e →
         Main.resp_content resp = rendered e).
Proof.
  destruct (chat_responds uuid4 system_prompt llm_with_tool run_tool recursion_limit
              h w req) as (resp & Hresp & Hrole).
  exists resp. split; [done|]. split; [done|]. split.
  - intros e Huid.
    rewrite (chat_renders _ _ _ _ _ _ w req e) in Hresp; [by injection Hresp as <- |].
    unfold Main.chat_try, Main.chat_thread_id. by rewrite Huid.
  - intros uid e Huid Hfail.
    rewrite (chat_renders _ _ _ _ _ _ w req e) in Hresp; [by injection Hresp as <- |].
    rewrite (chat_try_spec _ _ _ _ _ _ w req uid Huid). cbn [snd]. by rewrite Hfail.
Qed.

End ChatFacts.

(** ** Turns run on the stubs *)

Module TurnExamples.
Import ReducerFacts WorkflowFacts Stubs HistoryTerms ExampleTerms.

Lemma first_turn_wf : wf_history (messages (state first_turn)).
Proof.
  apply (add_messages_wf uuid4 [] [HumanMessage "hello" None] 0), wf_history_nil.
Qed.

Lemma first_turn_fresh (answer : Message) :
  msg_id answer = None →
  msg_id (stored_as uuid4 answer (uuid_draws first_turn)).1
    ∉ ids (messages (state first_turn)).
Proof.
  intros Hid. unfold stored_as. rewrite Hid. simpl. rewrite msg_id_set_id.
  intros Hin. apply list_elem_of_singleton in Hin. discriminate Hin.
Qed.

Lemma controller_routes_on_answer_witness :
  (stat (superstep uuid4 system_prompt final_answer run_tool 25 first_turn) = Finished
   ∧ turn_output (state (superstep uuid4 system_prompt final_answer run_tool 25 first_turn))
     = Some "One cup of cooked rice has about 200 kcal.")
  ∧ (stat (superstep uuid4 system_prompt always_tool run_tool 25 first_turn) = Next tool
     ∧ stat (superstep uuid4 system_prompt always_tool run_tool 25
               (superstep uuid4 system_prompt always_tool run_tool 25 first_turn))
       = Next agent).
Proof.
  split.
  - apply (controller_routes_on_answer uuid4 system_prompt final_answer run_tool 25
             first_turn (AIMessage "One cup of cooked rice has about 200 kcal." [] None)).
    + reflexivity.
    + vm_compute. lia.
    + exact first_turn_wf.
    + reflexivity.
    + by apply first_turn_fresh.
    + reflexivity.
  - destruct (controller_routes_on_answer uuid4 system_prompt always_tool run_tool 25
                first_turn (AIMessage "" [search_call] None)) as (_ & Htool & _).
    + reflexivity.
    + vm_compute. lia.
    + exact first_turn_wf.
    + reflexivity.
    + by apply first_turn_fresh.
    + destruct Htool as [H1 H2]; [discriminate|].
      split; [exact H1 | apply H2; vm_compute; lia].
Defined.

(** A model that requests a tool on every call never reaches END: the
    run is stopped by the step budget, here after four supersteps, and the
    chat endpoint answers with the text of that error. *)
Example always_tool_is_stopped :
  stat (invoke_on uuid4 system_prompt always_tool run_tool 4 fresh_world "t"
          {| messages := [HumanMessage "hello" None] |}).2
  = Failed (recursion_error 4)
  ∧ step (invoke_on uuid4 system_prompt always_tool run_tool 4 fresh_world "t"
            {| messages := [HumanMessage "hello" None] |}).2 = 4
  ∧ (Main.chat uuid4 system_prompt always_tool run_tool 4 Fixture.alice
       fresh_world hello).2
    = Return (Main.ChatResponse_of ("**Error:** " +:+ exn_str (recursion_error 4))).
Proof. repeat split; vm_compute; reflexivity. Qed.

(** A turn with one tool round trip: model, tool, model. *)
Example search_then_answer_turn :
  messages (state (invoke_on uuid4 system_prompt search_then_answer run_tool 25
                     fresh_world "t" {| messages := [HumanMessage "hello" None] |}).2)
  = [HumanMessage "hello" (Some "uuid-0");
     AIMessage "" [search_call] (Some "uuid-1");
     ToolMessage (run_tool search_call) "call_1" (Some "uuid-2");
     AIMessage "One cup of cooked rice has about 200 kcal." [] (Some "uuid-3")]
  ∧ stat (invoke_on uuid4 system_prompt search_then_answer run_tool 25
            fresh_world "t" {| messages := [HumanMessage "hello" None] |}).2
    = Finished.
Proof. split; vm_compute; reflexivity. Qed.

(** A provider failure is reported as the answer. *)
Example unreachable_model_is_reported :
  (Main.chat uuid4 system_prompt unreachable run_tool 25 Fixture.alice
     fresh_world hello).2
  = Return (Main.ChatResponse_of "**Error:** Connection error.").
Proof. vm_compute. reflexivity. Qed.

End TurnExamples.

(** ** Histories only grow during a run *)

Module GrowthFacts.
Import ReducerFacts WorkflowFacts HistoryTerms.

Section Growth.

Variable uuid4 : nat → string.
Variable system_prompt : string.
Variable llm_with_tool : list Message → result Message.
Variable run_tool : ToolCall → string.
Variable recursion_limit : nat.

Local Abbreviation superstep :=
  (superstep uuid4 system_prompt llm_with_tool run_tool recursion_limit).
Local Abbreviation ticks :=
  (ticks uuid4 system_prompt llm_with_tool run_tool recursion_limit).
Local Abbreviation settled := (settled uuid4).
Local Abbreviation brings_new_id := (brings_new_id uuid4).
Local Abbreviation provider_ids_new :=
  (provider_ids_new uuid4 system_prompt llm_with_tool).

Lemma settled_wf g l : settled g l → wf_history l.
Proof.
  intros [Hnd Hall]. split; [done|].
  eapply Forall_impl; [exact Hall|]. intros m (i & Hi & _). by exists i.
Qed.

Lemma settled_nil g : settled g [].
Proof. split; [apply NoDup_nil_2 | constructor]. Qed.

Lemma settled_mono g g' l : g ≤ g' → settled g l → settled g' l.
Proof.
  intros Hle [Hnd Hall]. split; [done|].
  eapply Forall_impl; [exact Hall|]. intros m (i & Hi & Hk).
  exists i. split; [done|]. intros k Hik. specialize (Hk k Hik). lia.
Qed.

Hypothesis uuid4_inj : Inj (=) (=) uuid4.

Lemma settled_next_uuid g l : settled g l → Some (uuid4 g) ∉ ids l.
Proof.
  intros [_ Hall] Hin. apply list_elem_of_fmap in Hin as (m & Hid & Hm).
  rewrite Forall_forall in Hall. destruct (Hall m Hm) as (i & Hi & Hk).
  rewrite Hi in Hid. injection Hid as <-. specialize (Hk g eq_refl). lia.
Qed.

(** Storing one more message that brings a new id, or none. *)
Lemma settled_snoc g l m :
  settled g l → brings_new_id l m →
  (msg_id (stored_as uuid4 m g).1 ∉ ids l)
  ∧ settled (stored_as uuid4 m g).2 (l ++ [(stored_as uuid4 m g).1])
  ∧ g ≤ (stored_as uuid4 m g).2.
Proof.
  intros Hl Hm. unfold stored_as.
  destruct (msg_id m) as [i|] eqn:Hi; simpl.
  - destruct (Hm i Hi) as [Hnin Hnot]. rewrite Hi.
    split; [done|]. split; [|lia].
    destruct Hl as [Hnd Hall]. split.
    + rewrite ids_app. apply NoDup_app. split; [done|].
      split; [|apply NoDup_singleton].
      intros k Hk ->%list_elem_of_singleton. simpl in *. congruence.
    + apply Forall_app. split; [done|]. repeat constructor.
      exists i. split; [done|]. intros k ->. by destruct (Hnot k).
  - rewrite msg_id_set_id. pose proof (settled_next_uuid g l Hl) as Hnin.
    split; [done|]. split; [|lia].
    destruct (settled_mono g (S g) l ltac:(lia) Hl) as [Hnd Hall]. split.
    + rewrite ids_app. apply NoDup_app. split; [done|].
      split; [|apply NoDup_singleton].
      intros k Hk ->%list_elem_of_singleton. simpl in *.
      rewrite msg_id_set_id in Hk. done.
    + apply Forall_app. split; [done|]. repeat constructor.
      exists (uuid4 g). rewrite msg_id_set_id. split; [done|].
      intros k ->%uuid4_inj. lia.
Qed.

Lemma assign_ids_cons_no_id m r g :
  no_id m →
  assign_ids uuid4 (m :: r) g
  = (set_id (Some (uuid4 g)) m :: (assign_ids uuid4 r (S g)).1,
     (assign_ids uuid4 r (S g)).2).
Proof.
  unfold no_id. intros Hm. simpl. rewrite Hm.
  by destruct (assign_ids uuid4 r (S g)).
Qed.

Lemma upserts_no_ids g l r :
  settled g l → Forall no_id r →
  ∃ r', upserts l (assign_ids uuid4 r g).1 = l ++ r'
        ∧ (assign_ids uuid4 r g).2 = g + length r
        ∧ settled (g + length r) (l ++ r').
Proof.
  intros Hl Hr. revert g l Hl. induction Hr as [|m r Hm Hr IH]; intros g l Hl.
  - exists []. simpl. by rewrite app_nil_r, Nat.add_0_r.
  - rewrite (assign_ids_cons_no_id m r g Hm). cbn [fst snd].
    destruct (settled_snoc g l m Hl) as (Hnew & Hl' & _).
    { intros i Hi. unfold no_id in Hm. congruence. }
    unfold stored_as in Hnew, Hl'. rewrite Hm in Hnew, Hl'. cbn [fst snd] in Hnew, Hl'.
    destruct (IH (S g) _ Hl') as (r' & Hup & Hg & Hset).
    exists (set_id (Some (uuid4 g)) m :: r').
    rewrite upserts_cons, upsert_fresh by done.
    rewrite Hup, Hg, <- app_assoc. simpl.
    replace (g + S (length r)) with (S (g + length r)) by lia.
    split; [done|]. split; [done|]. by rewrite <- app_assoc in Hset.
Qed.

(** Reducing an update of messages without ids appends them. *)
Lemma add_messages_no_ids g l r :
  settled g l → Forall no_id r →
  ∃ r', add_messages uuid4 l r g = (l ++ r', g + length r)
        ∧ settled (g + length r) (l ++ r').
Proof.
  intros Hl Hr. rewrite add_messages_stored by (by eapply settled_wf).
  destruct (upserts_no_ids g l r Hl Hr) as (r' & -> & -> & Hset). by exists r'.
Qed.

Hypothesis provider_ok : provider_ids_new.

(** A turn of the loop appends to the channel value, if it changes it. *)
Lemma superstep_extends l :
  settled (uuid_draws l) (messages (state l)) →
  messages (state l) `prefix_of` messages (state (superstep l))
  ∧ settled (uuid_draws (superstep l)) (messages (state (superstep l))).
Proof.
  intros Hl. unfold Workflow.superstep.
  destruct (stat l) as [n| |e]; [|done|done].
  case_decide; [done|].
  destruct n; unfold run_node.
  - unfold llm_call.
    destruct (llm_with_tool _) as [answer|e] eqn:Hllm; [|done].
    change (Return answer ≫= _)
      with (Return {| messages := messages (state l) ++ [answer] |}).
    cbn [messages].
    rewrite add_messages_history_plus by (by eapply settled_wf).
    destruct (settled_snoc (uuid_draws l) (messages (state l)) answer Hl)
      as (Hnew & Hl' & _); [by apply provider_ok|].
    rewrite upsert_fresh by done.
    destruct (edge_from agent _) as [t|e]; [|done].
    simpl. split; [by apply prefix_app_r | done].
  - unfold tool_node.
    destruct (last (messages (state l))) as [[|c calls i| |]|]; try done.
    cbn [messages].
    destruct (add_messages_no_ids (uuid_draws l) (messages (state l))
                ((λ c, ToolMessage (run_tool c) (tc_id c) None) <$> calls) Hl)
      as (r' & -> & Hl').
    { apply Forall_fmap. by apply Forall_true. }
    simpl. split; [by apply prefix_app_r | done].
Qed.

Lemma ticks_extends n l :
  settled (uuid_draws l) (messages (state l)) →
  messages (state l) `prefix_of` messages (state (ticks n l))
  ∧ settled (uuid_draws (ticks n l)) (messages (state (ticks n l))).
Proof.
  revert l. induction n as [|n IH]; intros l Hl; [done|].
  rewrite ticks_succ. destruct (superstep_extends l Hl) as [Hpre Hl'].
  destruct (IH _ Hl') as [Hpre' Hl'']. split; [by etrans | done].
Qed.

(** One invocation on a thread: the history saved before is an initial
    segment of the history saved after. *)
Lemma invoke_on_extends w thread_id input :
  settled (drawn w) (messages (default {| messages := [] |} (checkpoints w !! thread_id))) →
  Forall no_id (messages input) →
  ∃ saved',
    checkpoints
      (invoke_on uuid4 system_prompt llm_with_tool run_tool recursion_limit
         w thread_id input).1 !! thread_id = Some saved'
    ∧ messages (default {| messages := [] |} (checkpoints w !! thread_id))
        `prefix_of` messages saved'
    ∧ settled
        (drawn (invoke_on uuid4 system_prompt llm_with_tool run_tool recursion_limit
                  w thread_id input).1)
        (messages saved').
Proof.
  intros Hsaved Hin. unfold invoke_on. cbn [fst checkpoints drawn].
  rewrite lookup_insert_eq. eexists. split; [done|].
  set (saved := default {| messages := [] |} (checkpoints w !! thread_id)) in *.
  destruct (add_messages_no_ids (drawn w) (messages saved) (messages input) Hsaved Hin)
    as (r' & Hadd & Hset).
  unfold enter. rewrite Hadd.
  match goal with
  | |- context [Workflow.ticks _ _ _ _ _ _ ?x] => set (start := x)
  end.
  destruct (ticks_extends (S recursion_limit) start Hset) as [Hpre Hset'].
  split; [|done]. etrans; [|exact Hpre]. by apply prefix_app_r.
Qed.

End Growth.

End GrowthFacts.

(** ** Session histories *)

Module HistoryClaims.
Import ReducerFacts WorkflowFacts ChatFacts GrowthFacts HistoryTerms ExampleTerms.

(** The reducer on one update.  If the update overwrites nothing stored,
    the stored history is an initial segment of the new one; if moreover
    the ids of the update are all new and distinct, the new history is the
    old one followed by the update's messages in their order; and replaying
    the update's messages, which carry their ids after the first time,
    gives back the same history and draws no further id. *)
Lemma reducer_append_only_idempotent (uuid4 : nat → string)
    (l r : list Message) (g : nat) :
  wf_history l →
  overwrites_nothing l (as_appended uuid4 r g) →
  l `prefix_of` (add_messages uuid4 l r g).1
  ∧ (NoDup (ids (as_appended uuid4 r g)) →
     (∀ k, k ∈ ids (as_appended uuid4 r g) → k ∉ ids l) →
     (add_messages uuid4 l r g).1 = l ++ as_appended uuid4 r g)
  ∧ add_messages uuid4 (add_messages uuid4 l r g).1 (as_appended uuid4 r g)
      (add_messages uuid4 l r g).2
    = add_messages uuid4 l r g.
Proof.
  intros Hwf Hsame. unfold as_appended in *.
  pose proof (add_messages_wf uuid4 l r g Hwf) as Hwf'.
  pose proof (assign_ids_has_id uuid4 r g) as Hids.
  rewrite (add_messages_stored uuid4 (add_messages uuid4 l r g).1) by done.
  rewrite (add_messages_stored uuid4 l r g) in * by done.
  destruct (assign_ids uuid4 r g) as [r1 g1] eqn:Hassign. cbn [fst snd] in *.
  rewrite (assign_ids_keeps uuid4 r1 g1 Hids). cbn [fst snd].
  destruct Hwf as [Hnd _].
  split; [by apply upserts_prefix|].
  split; [apply upserts_fresh | by rewrite upserts_replay].
Qed.

Lemma reducer_append_only_idempotent_example :
  (add_messages Stubs.uuid4 [HumanMessage "hello" (Some "uuid-0")]
     [HumanMessage "hello" (Some "uuid-0"); AIMessage "hi" [] None] 1).1
  = [HumanMessage "hello" (Some "uuid-0")] ++ [AIMessage "hi" [] (Some "uuid-1")]
  ∧ add_messages Stubs.uuid4
      [HumanMessage "hello" (Some "uuid-0"); AIMessage "hi" [] (Some "uuid-1")]
      [HumanMessage "hello" (Some "uuid-0"); AIMessage "hi" [] (Some "uuid-1")] 2
    = ([HumanMessage "hello" (Some "uuid-0"); AIMessage "hi" [] (Some "uuid-1")], 2).
Proof.
  destruct (reducer_append_only_idempotent Stubs.uuid4
              [HumanMessage "hello" (Some "uuid-0")]
              [HumanMessage "hello" (Some "uuid-0"); AIMessage "hi" [] None] 1)
    as (_ & _ & Hreplay).
  - split; [apply NoDup_singleton | repeat constructor; by eexists].
  - intros m Hm Hid. vm_compute in Hm.
    apply elem_of_cons in Hm as [-> | Hm]; [by left|].
    apply list_elem_of_singleton in Hm as ->.
    apply list_elem_of_singleton in Hid. discriminate Hid.
  - split; [vm_compute; reflexivity | exact Hreplay].
Qed.

(** C4 does not hold of the code as it is stated.  The reducer tells a
    replayed message from a new one by its id, and an append is made of
    messages without ids, as the chat endpoint and the script build them:
    appended a second time, they get new ids and are stored again.  On the
    reducer, appending [hello] twice stores it twice; in a session, the
    same invocation made twice leaves eight messages where one leaves
    four. *)
Lemma replayed_appends_are_stored_again :
  ¬ replay_is_idempotent Stubs.uuid4
  ∧ ∃ once twice,
      checkpoints (hello_run Stubs.fresh_world) !! "t" = Some once
      ∧ checkpoints (hello_run (hello_run Stubs.fresh_world)) !! "t" = Some twice
      ∧ length (messages once) = 4
      ∧ length (messages twice) = 8.
Proof.
  split.
  - intros Hreplay.
    assert (wf_history []) as Hnil by (split; constructor).
    specialize (Hreplay [] [HumanMessage "hello" None] 0 Hnil).
    vm_compute in Hreplay. discriminate Hreplay.
  - vm_compute. do 2 eexists. repeat split; reflexivity.
Qed.

(** C4, amended.  For every session: when a thread is invoked with new
    messages, under a recursion limit the runtime accepts, the history
    stored for the thread before the invocation is an initial segment of
    the history stored after it, so stored messages are never removed,
    changed or reordered, only followed by new ones; the new history is
    again one the reducer built; and replay is idempotent for messages
    that carry their ids: appending again the messages of an append as
    the reducer stored them yields the stored history that appending them
    once yields.  The uuids the reducer draws are taken to be distinct,
    and the ids the provider puts on answers to be its own. *)
Theorem session_history_append_only
    (uuid4 : nat → string) (system_prompt : string)
    (llm_with_tool : list Message → result Message)
    (run_tool : ToolCall → string) (recursion_limit : nat)
    (w : world) (thread_id : string) (input : AgentState) :
  Inj (=) (=) uuid4 →
  provider_ids_new uuid4 system_prompt llm_with_tool →
  settled uuid4 (drawn w)
    (messages (default {| messages := [] |} (checkpoints w !! thread_id))) →
  Forall no_id (messages input) →
  1 ≤ recursion_limit →
  ∃ saved',
    checkpoints
      (invoke_on uuid4 system_prompt llm_with_tool run_tool recursion_limit
         w thread_id input).1 !! thread_id = Some saved'
    ∧ messages (default {| messages := [] |} (checkpoints w !! thread_id))
        `prefix_of` messages saved'
    ∧ settled uuid4
        (drawn (invoke_on uuid4 system_prompt llm_with_tool run_tool recursion_limit
                  w thread_id input).1)
        (messages saved')
    ∧ ∀ r g,
        add_messages uuid4 (add_messages uuid4 (messages saved') r g).1
          (as_appended uuid4 r g) (add_messages uuid4 (messages saved') r g).2
        = add_messages uuid4 (messages saved') r g.
Proof.
  intros Hinj Hprov Hsaved Hin _.
  destruct (invoke_on_extends uuid4 system_prompt llm_with_tool run_tool
              recursion_limit Hinj Hprov w thread_id input Hsaved Hin)
    as (saved' & Hlook & Hpre & Hset).
  exists saved'. split; [done|]. split; [done|]. split; [done|].
  intros r g.
  pose proof (settled_wf uuid4 _ _ Hset) as Hwf.
  pose proof (add_messages_wf uuid4 (messages saved') r g Hwf) as Hwf'.
  pose proof (assign_ids_has_id uuid4 r g) as Hids.
  unfold as_appended.
  rewrite (add_messages_stored uuid4 (add_messages uuid4 (messages saved') r g).1)
    by done.
  rewrite (add_messages_stored uuid4 (messages saved') r g) in * by done.
  destruct (assign_ids uuid4 r g) as [r1 g1]. cbn [fst snd] in *.
  rewrite (assign_ids_keeps uuid4 r1 g1 Hids). cbn [fst snd].
  by rewrite upserts_replay.
Qed.

Lemma stub_uuid4_inj : Inj (=) (=) Stubs.uuid4.
Proof.
  intros x y Heq. unfold Stubs.uuid4 in Heq.
  apply (inj (String.append "uuid-")) in Heq. by apply (inj pretty) in Heq.
Qed.

Lemma stub_answers_have_no_id :
  provider_ids_new Stubs.uuid4 Stubs.system_prompt Stubs.search_then_answer.
Proof.
  intros history answer Hanswer i Hi.
  unfold Stubs.search_then_answer, Stubs.final_answer, Stubs.always_tool in Hanswer.
  destruct (last _) as [[]|]; injection Hanswer as <-; discriminate Hi.
Qed.

Lemma session_history_append_only_witness :
  ∃ first second,
    checkpoints (hello_run Stubs.fresh_world) !! "t" = Some first
    ∧ checkpoints (hello_run (hello_run Stubs.fresh_world)) !! "t" = Some second
    ∧ messages first `prefix_of` messages second.
Proof.
  destruct (session_history_append_only Stubs.uuid4 Stubs.system_prompt
              Stubs.search_then_answer Stubs.run_tool 25 Stubs.fresh_world "t"
              {| messages := [HumanMessage "hello" None] |})
    as (first & Hfirst & _ & Hset & _).
  - exact stub_uuid4_inj.
  - exact stub_answers_have_no_id.
  - apply settled_nil.
  - repeat constructor.
  - lia.
  - destruct (session_history_append_only Stubs.uuid4 Stubs.system_prompt
                Stubs.search_then_answer Stubs.run_tool 25
                (hello_run Stubs.fresh_world) "t"
                {| messages := [HumanMessage "hello" None] |})
      as (second & Hsecond & Hpre & _ & _).
    + exact stub_uuid4_inj.
    + exact stub_answers_have_no_id.
    + unfold hello_run. rewrite Hfirst. exact Hset.
    + repeat constructor.
    + lia.
    + exists first, second. split; [exact Hfirst|]. split; [exact Hsecond|].
      unfold hello_run in Hpre. rewrite Hfirst in Hpre. exact Hpre.
Defined.

(** A second message with the same text is not a replay: a message built
    anew has no id, the reducer gives it a fresh one, and it is stored
    after the first.  This is what happens to the user message of a chat
    request that is sent twice. *)
Lemma equal_text_is_appended_again :
  (add_messages Stubs.uuid4
     (add_messages Stubs.uuid4 [] [HumanMessage "hello" None] 0).1
     [HumanMessage "hello" None] 1).1
  = [HumanMessage "hello" (Some "uuid-0"); HumanMessage "hello" (Some "uuid-1")]
  ∧ checkpoints
      (chat_with Stubs.final_answer
         (chat_with Stubs.final_answer Stubs.fresh_world Stubs.hello).1 Stubs.hello).1
      !! alice_thread
    = Some {| messages :=
                [HumanMessage "hello" (Some "uuid-0");
                 AIMessage "One cup of cooked rice has about 200 kcal." []
                   (Some "uuid-1");
                 HumanMessage "hello" (Some "uuid-2");
                 AIMessage "One cup of cooked rice has about 200 kcal." []
                   (Some "uuid-3")] |}.
Proof. split; vm_compute; reflexivity. Qed.

End HistoryClaims.

(** ** Sessions of the chat endpoint *)

Module SessionClaims.
Import ReducerFacts WorkflowFacts ChatFacts HistoryClaims HistoryTerms ExampleTerms.

Lemma chat_thread_id_constant h r1 r2 :
  Main.chat_thread_id h r1 = Main.chat_thread_id h r2.
Proof. reflexivity. Qed.

(** C3 does not hold of the code.  A chat request has no field for a
    session key, and the thread id is computed from the server's user and
    machine name: no key carried by requests selects the history.  Two
    unrelated requests to one server share one history: the second is
    appended to the messages of the first. *)
Lemma requests_share_one_history :
  ¬ session_key_selects_history Fixture.alice
  ∧ checkpoints
      (chat_with Stubs.final_answer
         (chat_with Stubs.final_answer Stubs.fresh_world Stubs.vegan).1
         Stubs.what_did_i_say).1
    = {[ alice_thread :=
           {| messages :=
                [HumanMessage "I am vegan." (Some "uuid-0");
                 AIMessage "One cup of cooked rice has about 200 kcal." []
                   (Some "uuid-1");
                 HumanMessage "What did I tell you?" (Some "uuid-2");
                 AIMessage "One cup of cooked rice has about 200 kcal." []
                   (Some "uuid-3")] |} ]}.
Proof.
  split.
  - intros (key & Hkey & r1 & r2 & Hne). apply Hne.
    pose proof (Hkey r1) as H1. pose proof (Hkey r2) as H2.
    rewrite (chat_thread_id_constant Fixture.alice r1 r2) in H1. congruence.
  - vm_compute. reflexivity.
Qed.

(** C3, amended. The thread id of a chat request is computed from the
    server's user and machine name alone, so it is the same for every
    request handled by one server process; the request resumes the
    history saved under that thread id and saves the extended history
    there, and the histories saved under all other thread ids are left as
    they were. *)
Theorem chat_uses_the_server_thread
    (uuid4 : nat → string) (system_prompt : string)
    (llm_with_tool : list Message → result Message)
    (run_tool : ToolCall → string) (recursion_limit : nat) (h : Main.host)
    (w : world) (req : Main.ChatRequest) :
  (∀ req', Main.chat_thread_id h req' = Main.chat_thread_id h req)
  ∧ (∀ uid, Main.get_user_id h = Return uid →
       Main.chat_thread_id h req = Return (uid +:+ "_api_session")
       ∧ checkpoints
           (Main.chat uuid4 system_prompt llm_with_tool run_tool recursion_limit
              h w req).1 !! (uid +:+ "_api_session")
         = Some (state
                   (ticks uuid4 system_prompt llm_with_tool run_tool recursion_limit
                      (S recursion_limit)
                      (enter uuid4
                         (default {| messages := [] |}
                            (checkpoints w !! (uid +:+ "_api_session")))
                         (drawn w) {| messages := Main.input_messages req |})))
       ∧ ∀ other, other ≠ uid +:+ "_api_session" →
           checkpoints
             (Main.chat uuid4 system_prompt llm_with_tool run_tool recursion_limit
                h w req).1 !! other
           = checkpoints w !! other).
Proof.
  split; [done|]. intros uid Huid.
  split; [unfold Main.chat_thread_id; by rewrite Huid|].
  unfold Main.chat.
  rewrite (chat_try_spec uuid4 system_prompt llm_with_tool run_tool recursion_limit
             h w req uid Huid).
  unfold invoke_on. cbn [fst snd checkpoints].
  split; [apply lookup_insert_eq|].
  intros other Hne. by apply lookup_insert_ne.
Qed.

End SessionClaims.

(** ** The upload endpoint: outcomes, files and ids *)

Module UploadExtras.
Import Main RequestTerms UploadTerms IdFacts UploadFacts Fixture.

(** Every way [upload_image] can end, by the checks in their order. *)
Lemma upload_cases (h : host) (e : upload_env) (d : disk) (file : UploadFile)
    (descr : string) :
  (¬ reaches_store e file ∧
   ∃ err, (upload_image h e d file descr).2 = Raise err
          ∧ uploads_meals (upload_image h e d file descr).1 = uploads_meals d
          ∧ meals_json (upload_image h e d file descr).1 = meals_json d
          ∧ (exn_cls err = HTTPException 400 ∨ exn_cls err = HTTPException 500
             ∨ makedirs_error e = Some err))
  ∨ (reaches_store e file ∧
     ∃ err, failure_before_move e d = Some err
            ∧ (upload_image h e d file descr).2
              = Raise (http 500 ("Failed to save meal data: " +:+ exn_str err))
            ∧ meals_json (upload_image h e d file descr).1 = meals_json d
            ∧ tmpdir (upload_image h e d file descr).1
              = <[tmp_path_of e file := contents file]> (tmpdir d))
  ∨ (reaches_store e file ∧ failure_before_move e d = None ∧
     ∃ err, failure_after_move h e = Some err
            ∧ (upload_image h e d file descr).2
              = Raise (http 500 ("Failed to save meal data: " +:+ exn_str err))
            ∧ meals_json (upload_image h e d file descr).1
              = store_after_failure h e d
            ∧ tmpdir (upload_image h e d file descr).1
              = delete (tmp_path_of e file) (tmpdir d)
            ∧ uploads_meals (upload_image h e d file descr).1
              = (if remove_fails e
                 then <[next_path e d file := contents file]> (uploads_meals d)
                 else delete (next_path e d file) (uploads_meals d)))
  ∨ (reaches_store e file ∧ failure_before_move e d = None
     ∧ failure_after_move h e = None ∧
     ∃ uid, get_user_id h = Return uid
            ∧ (upload_image h e d file descr).2
              = Return (success_response e file (new_id (stored d)))
            ∧ meals_json (upload_image h e d file descr).1
              = Array (stored d ++
                       [record_for e file descr uid (new_id (stored d))
                          (analysis_result e (next_path e d file) descr)])
            ∧ tmpdir (upload_image h e d file descr).1
              = delete (tmp_path_of e file) (tmpdir d)
            ∧ uploads_meals (upload_image h e d file descr).1
              = <[next_path e d file := contents file]> (uploads_meals d)).
Proof.
  unfold reaches_store, valid_image, failure_before_move, failure_after_move,
    store_after_failure, next_path, tmp_path_of, upload_image.
  destruct (endswith_any _ _) eqn:Hext; simpl.
  2:{ left. split; [intros [[? _] _]; congruence|].
      eexists. repeat split; eauto. }
  destruct (tmp_write_error e) as [[werr|werr written]|] eqn:Htmp.
  { left. split; [intros (_ & ? & _); congruence|].
    eexists. repeat split; eauto. }
  { left. split; [intros (_ & ? & _); congruence|].
    eexists. repeat split; eauto. }
  rewrite validate_image_written.
  destruct (image_verify e (contents file)) as [ierr|] eqn:Himg.
  { left. split; [intros [[_ ?] _]; congruence|].
    eexists. split; [reflexivity|].
    unfold remove_tmp. destruct (remove_fails e); simpl; repeat split; eauto. }
  destruct (makedirs_error e) as [merr|] eqn:Hmk.
  { left. split; [intros (_ & _ & ?); congruence|].
    eexists. repeat split; eauto. }
  right. unfold save_meal, stored. simpl. rewrite lookup_insert_eq.
  destruct (meals_json d) as [|ms|bad] eqn:Hjson; simpl.
  - destruct (move_error e) as [mverr|] eqn:Hmv; simpl.
    { left. split; [done|]. eexists. split; [done|].
      unfold remove_upload. destruct (remove_fails e); simpl; by rewrite ?Hjson. }
    right. destruct (get_user_id h) as [uid|uerr] eqn:Huid; simpl.
    + destruct (json_write_error e) as [[jerr|jerr bad]|] eqn:Hwr; simpl.
      * left. split; [done|]. split; [done|]. eexists. split; [done|].
        unfold remove_upload. destruct (remove_fails e); simpl;
          rewrite ?Hjson, ?delete_insert_eq; done.
      * left. split; [done|]. split; [done|]. eexists. split; [done|].
        unfold remove_upload. destruct (remove_fails e); simpl;
          rewrite ?Hjson, ?delete_insert_eq; done.
      * right. split; [done|]. split; [done|]. split; [done|].
        exists uid. by rewrite ?delete_insert_eq.
    + left. split; [done|]. split; [done|]. eexists. split; [done|].
      unfold remove_upload. destruct (remove_fails e); simpl;
        rewrite ?Hjson, ?delete_insert_eq; done.
  - destruct (move_error e) as [mverr|] eqn:Hmv; simpl.
    { left. split; [done|]. eexists. split; [done|].
      unfold remove_upload. destruct (remove_fails e); simpl; by rewrite ?Hjson. }
    right. destruct (get_user_id h) as [uid|uerr] eqn:Huid; simpl.
    + destruct (json_write_error e) as [[jerr|jerr bad]|] eqn:Hwr; simpl.
      * left. split; [done|]. split; [done|]. eexists. split; [done|].
        unfold remove_upload. destruct (remove_fails e); simpl;
          rewrite ?Hjson, ?delete_insert_eq; done.
      * left. split; [done|]. split; [done|]. eexists. split; [done|].
        unfold remove_upload. destruct (remove_fails e); simpl;
          rewrite ?Hjson, ?delete_insert_eq; done.
      * right. split; [done|]. split; [done|]. split; [done|].
        exists uid. by rewrite ?delete_insert_eq.
    + left. split; [done|]. split; [done|]. eexists. split; [done|].
      unfold remove_upload. destruct (remove_fails e); simpl;
        rewrite ?Hjson, ?delete_insert_eq; done.
  - left. split; [done|]. eexists. split; [done|]. by rewrite ?Hjson.
Qed.

(** X1. [upload_image] ends in one of four ways: the success response, an
    HTTP 400, an HTTP 500, or, when creating the content directory fails,
    the exception of [os.makedirs] itself, which is the one call of the
    endpoint outside every [try]. *)
Theorem upload_outcomes (h : host) (e : upload_env) (d : disk)
    (file : UploadFile) (descr : string) :
  (∃ r, (upload_image h e d file descr).2 = Return r ∧ status r = "success")
  ∨ (∃ reason, (upload_image h e d file descr).2 = Raise (http 400 reason))
  ∨ (∃ reason, (upload_image h e d file descr).2 = Raise (http 500 reason))
  ∨ (∃ err, makedirs_error e = Some err
            ∧ (upload_image h e d file descr).2 = Raise err).
Proof.
  destruct (upload_cases h e d file descr)
    as [(_ & err & Hres & _ & _ & Hcls)
       | [(_ & err & _ & Hres & _)
         | [(_ & _ & err & _ & Hres & _) | (_ & _ & _ & uid & _ & Hres & _)]]].
  - destruct Hcls as [Hcls | [Hcls | Hmk]].
    + right. left. exists (exn_str err). rewrite Hres.
      destruct err as [cls str]. simpl in Hcls. by subst cls.
    + right. right. left. exists (exn_str err). rewrite Hres.
      destruct err as [cls str]. simpl in Hcls. by subst cls.
    + right. right. right. by exists err.
  - right. right. left. by eexists.
  - right. right. left. by eexists.
  - left. eexists. by split.
Qed.


(** X3. A successful upload moves the file: the temporary copy is gone,
    the uploaded bytes are stored under the path that the response and
    the appended record both name, and every other file of the content
    directory is untouched. *)
Theorem upload_success_moves_file (h : host) (e : upload_env) (d : disk)
    (file : UploadFile) (descr : string) (r : UploadResponse) :
  (upload_image h e d file descr).2 = Return r →
  tmpdir (upload_image h e d file descr).1 !! tmp_path_of e file = None
  ∧ uploads_meals (upload_image h e d file descr).1 !! next_path e d file
    = Some (contents file)
  ∧ document_path r = Some (next_path e d file)
  ∧ (∃ rec, last (stored (upload_image h e d file descr).1) = Some rec
            ∧ image_path rec = next_path e d file)
  ∧ ∀ other, other ≠ next_path e d file →
      uploads_meals (upload_image h e d file descr).1 !! other
      = uploads_meals d !! other.
Proof.
  intros Hok.
  destruct (upload_cases h e d file descr)
    as [(_ & err & Hres & _)
       | [(_ & err & _ & Hres & _)
         | [(_ & _ & err & _ & Hres & _)
           | (_ & _ & _ & uid & _ & Hres & Hjson & Htmp & Hup)]]];
    try congruence.
  rewrite Hres in Hok. injection Hok as <-.
  rewrite Htmp, Hup. unfold stored. rewrite Hjson.
  split; [apply lookup_delete_eq|]. split; [apply lookup_insert_eq|].
  split; [done|]. split.
  - eexists. split; [apply last_snoc | done].
  - intros other Hne. by apply lookup_insert_ne.
Qed.

Lemma upload_success_moves_file_witness :
  tmpdir (upload_image alice vision_down unsorted_disk photo_jpg "lunch").1
    !! "/tmp/tmpk3x9.jpg" = None
  ∧ uploads_meals (upload_image alice vision_down unsorted_disk photo_jpg "lunch").1
      !! "uploads/meals/meals_8_20240101_120000.jpg"
    = Some [Byte.xff; Byte.xd8; Byte.xff; Byte.xe0].
Proof.
  destruct (upload_success_moves_file alice vision_down unsorted_disk photo_jpg
              "lunch" (success_response vision_down photo_jpg 8))
    as (Htmp & Hup & _).
  - vm_compute. reflexivity.
  - split; [exact Htmp | exact Hup].
Defined.

(** X4. When the save fails after the image was moved (the user id cannot
    be read, or the record store cannot be written), the endpoint answers
    HTTP 500 with the text of the exception and removes the moved image
    again: the temporary copy is gone and, unless a file of that name was
    there before, the content directory is as it was.  The record store
    is as it was when the user id could not be read or [open] failed; but
    when the dump failed after [open] had emptied the file, the store is
    left cut off and no longer parses. *)
Theorem upload_cleans_up_after_failed_save (h : host) (e : upload_env) (d : disk)
    (file : UploadFile) (descr : string) (err : exn) :
  reaches_store e file →
  failure_before_move e d = None →
  failure_after_move h e = Some err →
  remove_fails e = false →
  (upload_image h e d file descr).2
  = Raise (http 500 ("Failed to save meal data: " +:+ exn_str err))
  ∧ tmpdir (upload_image h e d file descr).1 !! tmp_path_of e file = None
  ∧ uploads_meals (upload_image h e d file descr).1 !! next_path e d file = None
  ∧ (uploads_meals d !! next_path e d file = None →
     uploads_meals (upload_image h e d file descr).1 = uploads_meals d)
  ∧ (get_user_id h = Raise err →
     meals_json (upload_image h e d file descr).1 = meals_json d)
  ∧ (json_write_error e = Some (OpenFails err) →
     meals_json (upload_image h e d file descr).1 = meals_json d)
  ∧ (∀ uid unreadable,
       get_user_id h = Return uid →
       json_write_error e = Some (DumpFails err unreadable) →
       meals_json (upload_image h e d file descr).1 = Malformed unreadable).
Proof.
  intros Hreach Hbefore Hafter Hrm.
  destruct (upload_cases h e d file descr)
    as [(Hno & _)
       | [(_ & err' & Hb & _)
         | [(_ & _ & err' & Ha & Hres & Hjson & Htmp & Hup)
           | (_ & _ & Ha & _)]]]; try congruence; try done.
  rewrite Hafter in Ha. injection Ha as <-.
  rewrite Hres, Htmp, Hup, Hrm, Hjson.
  split; [done|]. split; [apply lookup_delete_eq|].
  split; [apply lookup_delete_eq|].
  split; [intros Hnew; by apply delete_id|].
  unfold store_after_failure, failure_after_move in *.
  split; [by intros ->|].
  split; [intros ->; by destruct (get_user_id h)|].
  intros uid unreadable -> ->. done.
Qed.

Lemma upload_cleans_up_after_failed_save_witness :
  (upload_image alice UploadFixture.disk_full unsorted_disk photo_jpg "lunch").2
  = Raise (http 500
             "Failed to save meal data: [Errno 28] No space left on device")
  ∧ uploads_meals
      (upload_image alice UploadFixture.disk_full unsorted_disk photo_jpg "lunch").1
    = uploads_meals unsorted_disk
  ∧ meals_json unsorted_disk = Array [old_meal 3; old_meal 7; old_meal 5]
  ∧ meals_json
      (upload_image alice UploadFixture.disk_full unsorted_disk photo_jpg "lunch").1
    = Malformed (Exn ValueError "Expecting value: line 1 column 1 (char 0)").
Proof.
  destruct (upload_cleans_up_after_failed_save alice UploadFixture.disk_full
              unsorted_disk photo_jpg "lunch"
              (Exn OSError "[Errno 28] No space left on device"))
    as (Hres & _ & _ & Hsame & _ & _ & Hcut).
  - repeat split; reflexivity.
  - reflexivity.
  - reflexivity.
  - reflexivity.
  - split; [exact Hres|]. split; [apply Hsame; reflexivity|].
    split; [reflexivity|].
    exact (Hcut "user_nehctik@"
             (Exn ValueError "Expecting value: line 1 column 1 (char 0)")
             eq_refl eq_refl).
Defined.

(** X5. When the save fails before the image is moved (the record store
    does not parse, or the move fails), the endpoint answers HTTP 500 and
    the record store is unchanged, but the temporary copy of the upload
    is left behind in the temporary directory: this path removes only the
    final image path, never the temporary file. *)
Theorem upload_leaves_temp_copy (h : host) (e : upload_env) (d : disk)
    (file : UploadFile) (descr : string) (err : exn) :
  reaches_store e file →
  failure_before_move e d = Some err →
  (upload_image h e d file descr).2
  = Raise (http 500 ("Failed to save meal data: " +:+ exn_str err))
  ∧ meals_json (upload_image h e d file descr).1 = meals_json d
  ∧ tmpdir (upload_image h e d file descr).1 !! tmp_path_of e file
    = Some (contents file).
Proof.
  intros Hreach Hbefore.
  destruct (upload_cases h e d file descr)
    as [(Hno & _)
       | [(_ & err' & Hb & Hres & Hjson & Htmp)
         | [(_ & Hb & _) | (_ & Hb & _)]]]; try congruence; try done.
  rewrite Hbefore in Hb. injection Hb as <-.
  rewrite Hres, Hjson, Htmp. split; [done|]. split; [done|].
  apply lookup_insert_eq.
Qed.

Lemma upload_leaves_temp_copy_witness :
  (upload_image alice vision_down UploadFixture.broken_store photo_jpg "").2
  = Raise (http 500
             "Failed to save meal data: Expecting value: line 1 column 1 (char 0)")
  ∧ tmpdir (upload_image alice vision_down UploadFixture.broken_store photo_jpg "").1
      !! "/tmp/tmpk3x9.jpg"
    = Some [Byte.xff; Byte.xd8; Byte.xff; Byte.xe0].
Proof.
  destruct (upload_leaves_temp_copy alice vision_down UploadFixture.broken_store
              photo_jpg ""
              (Exn ValueError "Expecting value: line 1 column 1 (char 0)"))
    as (Hres & _ & Htmp).
  - repeat split; reflexivity.
  - reflexivity.
  - split; [exact Hres | exact Htmp].
Defined.

Lemma max_default_snoc_succ (xs : list Z) :
  max_default (xs ++ [(max_default xs 0 + 1)%Z]) 0 = (max_default xs 0 + 1)%Z.
Proof.
  set (top := max_default xs 0).
  assert (xs ++ [(top + 1)%Z] ≠ []) as Hne by (by destruct xs).
  pose proof (max_default_attained _ 0%Z Hne) as Hin.
  assert ((top + 1)%Z ∈ xs ++ [(top + 1)%Z]) as Hnew.
  { apply elem_of_app. right. by left. }
  apply (max_default_ge _ 0%Z) in Hnew.
  apply elem_of_app in Hin as [Hin | Hin%list_elem_of_singleton]; [|done].
  apply (max_default_ge _ 0%Z) in Hin. fold top in Hin. lia.
Qed.

Lemma new_id_after_upload (ms : list meal) (rec : meal) :
  id rec = Some (new_id ms) → new_id (ms ++ [rec]) = (new_id ms + 1)%Z.
Proof.
  intros Hid. unfold new_id.
  rewrite (fmap_app (λ m : meal, default 0%Z (id m)) ms [rec]). simpl.
  rewrite Hid. simpl. by rewrite max_default_snoc_succ.
Qed.

(** The record a successful upload appends. *)
Lemma upload_success_record (h : host) (e : upload_env) (d : disk)
    (file : UploadFile) (descr : string) (r : UploadResponse) :
  (upload_image h e d file descr).2 = Return r →
  ∃ rec, meals_json (upload_image h e d file descr).1 = Array (stored d ++ [rec])
         ∧ id rec = Some (new_id (stored d)).
Proof.
  intros Hok.
  destruct (upload_cases h e d file descr)
    as [(_ & err & Hres & _)
       | [(_ & err & _ & Hres & _)
         | [(_ & _ & err & _ & Hres & _)
           | (_ & _ & _ & uid & _ & _ & Hjson & _)]]]; [congruence..|].
  eexists. split; [exact Hjson | done].
Qed.

(** X6. Ids of successive uploads: after a successful upload the next id
    to be assigned is one more than the id just assigned, and if the ids
    in the store were pairwise distinct before (a record without an id
    counting as 0) they still are afterwards. *)
Theorem upload_keeps_ids_distinct (h : host) (e : upload_env) (d : disk)
    (file : UploadFile) (descr : string) (r : UploadResponse) :
  (upload_image h e d file descr).2 = Return r →
  new_id (stored (upload_image h e d file descr).1) = (new_id (stored d) + 1)%Z
  ∧ (NoDup (id_or_0 <$> stored d) →
     NoDup (id_or_0 <$> stored (upload_image h e d file descr).1)).
Proof.
  intros Hok.
  destruct (upload_success_record h e d file descr r Hok) as (rec & Hjson & Hid).
  assert (stored (upload_image h e d file descr).1 = stored d ++ [rec]) as ->.
  { unfold stored at 1. by rewrite Hjson. }
  split; [by apply new_id_after_upload|].
  intros Hnd. rewrite fmap_app. apply NoDup_app. split; [done|].
  split; [|apply NoDup_singleton].
  intros k Hk Hnew. simpl in Hnew. apply list_elem_of_singleton in Hnew.
  apply list_elem_of_fmap in Hk as (m & -> & Hm).
  apply new_id_above in Hm. unfold id_or_0 in Hnew at 2. rewrite Hid in Hnew.
  simpl in Hnew. lia.
Qed.

Lemma upload_keeps_ids_distinct_witness :
  new_id (stored (upload_image alice vision_down unsorted_disk photo_jpg "lunch").1)
  = 9%Z
  ∧ NoDup (id_or_0 <$>
           stored (upload_image alice vision_down unsorted_disk photo_jpg "lunch").1).
Proof.
  destruct (upload_keeps_ids_distinct alice vision_down unsorted_disk photo_jpg
              "lunch" (success_response vision_down photo_jpg 8))
    as (Hnext & Hnd).
  - vm_compute. reflexivity.
  - split; [exact Hnext|]. apply Hnd. vm_compute.
    repeat (constructor; [intros Hin; repeat (apply elem_of_cons in Hin as [Hin|Hin];
      [discriminate Hin|]); by apply elem_of_nil in Hin|]).
    constructor.
Defined.

End UploadExtras.

(** ** The vision tool *)

Module VisionFacts.
Import MealsDetect VisionTerms.

Lemma app_cons (x : ascii) (a b : string) : String x a +:+ b = String x (a +:+ b).
Proof. reflexivity. Qed.

(** *** Stripping characters of one byte *)

Lemma lstrip_first p s c : first_char (lstrip p s) = Some c → p c = false.
Proof.
  induction s as [|x s IH]; simpl; [done|].
  destruct (p x) eqn:Hx; [done|]. simpl. by intros [= <-].
Qed.

Lemma lstrip_all p s : all_chars p s = true → lstrip p s = "".
Proof.
  induction s as [|x s IH]; simpl; [done|].
  intros [Hx Hs]%andb_true_iff. rewrite Hx. by apply IH.
Qed.

Lemma rstrip_cons p c s :
  rstrip p (String c s)
  = match rstrip p s with
    | EmptyString => if p c then EmptyString else String c EmptyString
    | kept => String c kept
    end.
Proof. reflexivity. Qed.

Lemma rstrip_last p s c : last_char (rstrip p s) = Some c → p c = false.
Proof.
  induction s as [|x s IH]; [done|].
  rewrite rstrip_cons. destruct (rstrip p s) as [|y kept] eqn:Hkept.
  - destruct (p x) eqn:Hx; simpl; [done|]. by intros [= <-].
  - simpl. exact IH.
Qed.

Lemma rstrip_first p s c :
  first_char (rstrip p s) = Some c → first_char s = Some c.
Proof.
  destruct s as [|x s]; [done|]. rewrite rstrip_cons.
  destruct (rstrip p s); [destruct (p x)|]; simpl; done.
Qed.

Lemma strip_first p s c : first_char (strip p s) = Some c → p c = false.
Proof. unfold strip. intros H%rstrip_first. by eapply lstrip_first. Qed.

Lemma strip_last p s c : last_char (strip p s) = Some c → p c = false.
Proof. unfold strip. apply rstrip_last. Qed.

Lemma strip_all p s : all_chars p s = true → strip p s = "".
Proof. unfold strip. intros H. by rewrite lstrip_all. Qed.

Lemma lstrip_app_all p q s : all_chars p q = true → lstrip p (q +:+ s) = lstrip p s.
Proof.
  induction q as [|x q IH]; [done|]. simpl all_chars.
  intros [Hx Hq]%andb_true_iff. rewrite app_cons. simpl lstrip. rewrite Hx.
  by apply IH.
Qed.

Lemma lstrip_clean p s :
  (∀ c, first_char s = Some c → p c = false) → lstrip p s = s.
Proof.
  destruct s as [|x s]; [done|]. simpl. intros H. by rewrite (H x eq_refl).
Qed.

Lemma rstrip_all p q : all_chars p q = true → rstrip p q = "".
Proof.
  induction q as [|x q IH]; [done|]. simpl all_chars.
  intros [Hx Hq]%andb_true_iff. rewrite rstrip_cons, (IH Hq). by rewrite Hx.
Qed.

Lemma rstrip_app_all p s q : all_chars p q = true → rstrip p (s +:+ q) = rstrip p s.
Proof.
  intros Hq. induction s as [|x s IH]; [by apply rstrip_all|].
  by rewrite app_cons, !rstrip_cons, IH.
Qed.

Lemma rstrip_clean p s :
  (∀ c, last_char s = Some c → p c = false) → rstrip p s = s.
Proof.
  induction s as [|x s IH]; [done|]. intros H. rewrite rstrip_cons.
  destruct s as [|y s].
  - simpl. by rewrite (H x eq_refl).
  - rewrite IH; [done|]. intros c Hc. by apply H.
Qed.

Lemma strip_between p q k q' :
  all_chars p q = true → all_chars p q' = true →
  (∀ c, first_char k = Some c → p c = false) →
  (∀ c, last_char k = Some c → p c = false) →
  strip p (q +:+ k +:+ q') = k.
Proof.
  intros Hq Hq' Hfirst Hlast. unfold strip.
  rewrite lstrip_app_all by done.
  destruct k as [|x k].
  - change ("" +:+ q') with q'. by rewrite (lstrip_all p q' Hq').
  - rewrite app_cons. simpl lstrip. rewrite (Hfirst x eq_refl).
    rewrite <- app_cons. rewrite rstrip_app_all by done. by apply rstrip_clean.
Qed.

(** *** The whitespace characters *)

Ltac bool_props H :=
  repeat first [ rewrite andb_true_iff in H | rewrite orb_true_iff in H
               | rewrite Nat.eqb_eq in H | rewrite Nat.leb_le in H ].

Lemma is_space_no_quote a : is_space a = true → is_quote a = false.
Proof.
  unfold is_space, is_quote. intros H. bool_props H.
  rewrite orb_false_iff, !Nat.eqb_neq. lia.
Qed.

Lemma is_space2_no_quote a b :
  is_space2 a b = true → is_quote a = false ∧ is_quote b = false.
Proof.
  unfold is_space2, is_quote. intros H. bool_props H.
  rewrite !orb_false_iff, !Nat.eqb_neq. lia.
Qed.

Lemma is_space3_no_quote a b c :
  is_space3 a b c = true →
  is_quote a = false ∧ is_quote b = false ∧ is_quote c = false.
Proof.
  unfold is_space3, is_quote. intros H. bool_props H.
  rewrite !orb_false_iff, !Nat.eqb_neq. lia.
Qed.

Lemma is_space_not2 a b : is_space a = true → is_space2 a b = false.
Proof.
  unfold is_space, is_space2. intros H. bool_props H.
  apply andb_false_iff. left. apply Nat.eqb_neq. lia.
Qed.

Lemma is_space_not3 a b c : is_space a = true → is_space3 a b c = false.
Proof.
  unfold is_space, is_space3. intros H. bool_props H.
  destruct (is_space3 a b c) eqn:H3; [|done]. exfalso.
  unfold is_space3 in H3. bool_props H3. lia.
Qed.

Lemma is_space2_not3 a b c : is_space2 a b = true → is_space3 a b c = false.
Proof.
  unfold is_space2. intros H. bool_props H.
  destruct (is_space3 a b c) eqn:H3; [|done]. exfalso.
  unfold is_space3 in H3. bool_props H3. lia.
Qed.

Lemma is_space2_lead a b : is_space2 a b = true → is_space a = false.
Proof.
  intros H. destruct (is_space a) eqn:Ha; [|done].
  by rewrite (is_space_not2 a b Ha) in H.
Qed.

Lemma is_space3_lead a b c :
  is_space3 a b c = true → is_space a = false ∧ is_space2 a b = false.
Proof.
  intros H. split.
  - destruct (is_space a) eqn:Ha; [|done]. by rewrite (is_space_not3 a b c Ha) in H.
  - destruct (is_space2 a b) eqn:Hab; [|done].
    by rewrite (is_space2_not3 a b c Hab) in H.
Qed.

Lemma is_space2_tail a b : is_space2 a b = true → is_space b = false.
Proof.
  unfold is_space2. intros H. bool_props H.
  destruct (is_space b) eqn:Hb; [|done]. exfalso.
  unfold is_space in Hb. bool_props Hb. lia.
Qed.

Lemma is_space3_tail a b c :
  is_space3 a b c = true → is_space c = false ∧ is_space2 b c = false.
Proof.
  unfold is_space3. intros H. bool_props H. split.
  - destruct (is_space c) eqn:Hc; [|done]. exfalso.
    unfold is_space in Hc. bool_props Hc. lia.
  - destruct (is_space2 b c) eqn:Hbc; [|done]. exfalso.
    unfold is_space2 in Hbc. bool_props Hbc. lia.
Qed.

Lemma is_whitespace_no_quote w :
  is_whitespace w = true → all_chars (λ c, negb (is_quote c)) w = true.
Proof.
  destruct w as [|a [|b [|c [|d w]]]]; simpl; try done.
  - intros H%is_space_no_quote. by rewrite H.
  - intros (Ha & Hb)%is_space2_no_quote. by rewrite Ha, Hb.
  - intros (Ha & Hb & Hc)%is_space3_no_quote. by rewrite Ha, Hb, Hc.
Qed.

Lemma is_whitespace_quote a x : is_quote a = true → is_whitespace (String a x) = false.
Proof.
  intros Ha. destruct (is_whitespace (String a x)) eqn:H; [|done].
  apply is_whitespace_no_quote in H. simpl in H. by rewrite Ha in H.
Qed.

(** *** [lstrip_space] *)




Lemma lstrip_space_clean s : begins_with_space s = false → lstrip_space s = s.
Proof.
  destruct s as [|a [|b [|c s3]]]; cbn [begins_with_space lstrip_space]; [done|..].
  - by intros ->.
  - intros [-> ->]%orb_false_iff. done.
  - intros [[-> ->]%orb_false_iff ->]%orb_false_iff. done.
Qed.

(** Dropping one whitespace character from the front is what [lstrip]
    repeats. *)
Lemma lstrip_space_drops w s :
  is_whitespace w = true → lstrip_space (w +:+ s) = lstrip_space s.
Proof.
  destruct w as [|a [|b [|c [|d w]]]]; simpl is_whitespace; try done; intros Hw;
    rewrite ?app_cons; change ("" +:+ s) with s; cbn [lstrip_space].
  - by rewrite Hw.
  - by rewrite (is_space2_lead a b Hw), Hw.
  - destruct (is_space3_lead a b c Hw) as [-> ->]. by rewrite Hw.
Qed.

(** *** [rstrip_space] *)

Lemma rstrip_space_cons c s :
  rstrip_space (String c s)
  = if is_whitespace (String c (rstrip_space s)) then ""
    else String c (rstrip_space s).
Proof. reflexivity. Qed.



Lemma rstrip_space_clean s : ends_with_space s = false → rstrip_space s = s.
Proof.
  induction s as [|x s IH]; [done|]. cbn [ends_with_space].
  intros [Hw Hs]%orb_false_iff. rewrite rstrip_space_cons, (IH Hs). by rewrite Hw.
Qed.

Lemma rstrip_space_whitespace w : is_whitespace w = true → rstrip_space w = "".
Proof.
  destruct w as [|a [|b [|c [|d w]]]]; simpl is_whitespace; try done; intros Hw.
  - rewrite rstrip_space_cons. simpl. by rewrite Hw.
  - rewrite !rstrip_space_cons. cbn [rstrip_space is_whitespace].
    rewrite (is_space2_tail a b Hw). cbn [is_whitespace]. by rewrite Hw.
  - rewrite !rstrip_space_cons. cbn [rstrip_space is_whitespace].
    destruct (is_space3_tail a b c Hw) as [-> Hbc]. cbn [is_whitespace].
    rewrite Hbc. cbn [is_whitespace]. by rewrite Hw.
Qed.

(** Dropping one whitespace character from the end is what [rstrip]
    repeats. *)
Lemma rstrip_space_drops s w :
  is_whitespace w = true → rstrip_space (s +:+ w) = rstrip_space s.
Proof.
  intros Hw. induction s as [|x s IH]; [by apply rstrip_space_whitespace|].
  by rewrite app_cons, !rstrip_space_cons, IH.
Qed.




Lemma strip_space_clean s :
  begins_with_space s = false → ends_with_space s = false → strip_space s = s.
Proof.
  intros Hb He. unfold strip_space. rewrite lstrip_space_clean by done.
  by apply rstrip_space_clean.
Qed.



(** *** Quotes around a text *)

Lemma is_space2_quote_r a b : is_quote b = true → is_space2 a b = false.
Proof.
  intros Hb. destruct (is_space2 a b) eqn:H; [|done].
  apply is_space2_no_quote in H as [_ H]. congruence.
Qed.

Lemma is_space3_quote_m a b c : is_quote b = true → is_space3 a b c = false.
Proof.
  intros Hb. destruct (is_space3 a b c) eqn:H; [|done].
  apply is_space3_no_quote in H as (_ & H & _). congruence.
Qed.

Lemma is_space3_quote_r a b c : is_quote c = true → is_space3 a b c = false.
Proof.
  intros Hc. destruct (is_space3 a b c) eqn:H; [|done].
  apply is_space3_no_quote in H as (_ & _ & H). congruence.
Qed.

Lemma begins_with_quote a s : is_quote a = true → begins_with_space (String a s) = false.
Proof.
  intros Ha.
  assert (is_space a = false) as Hs.
  { destruct (is_space a) eqn:H; [|done]. apply is_space_no_quote in H. congruence. }
  assert (∀ b, is_space2 a b = false) as H2.
  { intros b. destruct (is_space2 a b) eqn:H; [|done].
    apply is_space2_no_quote in H as [H _]. congruence. }
  assert (∀ b c, is_space3 a b c = false) as H3.
  { intros b c. destruct (is_space3 a b c) eqn:H; [|done].
    apply is_space3_no_quote in H as (H & _). congruence. }
  destruct s as [|b [|c s]]; cbn [begins_with_space]; by rewrite ?Hs, ?H2, ?H3.
Qed.

Lemma begins_app_quotes k q' :
  begins_with_space k = false → all_chars is_quote q' = true →
  begins_with_space (k +:+ q') = false.
Proof.
  intros Hk Hq'.
  destruct k as [|a [|b [|c k3]]]; rewrite ?app_cons; change ("" +:+ q') with q'.
  - destruct q' as [|x q']; [done|]. simpl in Hq'.
    apply andb_true_iff in Hq' as [Hx _]. by apply begins_with_quote.
  - cbn [begins_with_space] in Hk.
    destruct q' as [|x [|y q']]; cbn [begins_with_space]; [done|..];
      simpl in Hq'; apply andb_true_iff in Hq' as [Hx Hq'];
      by rewrite Hk, ?(is_space2_quote_r a x Hx), ?(is_space3_quote_m a x _ Hx).
  - cbn [begins_with_space] in Hk.
    destruct q' as [|x q']; cbn [begins_with_space]; [done|].
    simpl in Hq'. apply andb_true_iff in Hq' as [Hx Hq'].
    by rewrite Hk, (is_space3_quote_r a b x Hx).
  - exact Hk.
Qed.

Lemma last_char_cons x s : last_char (String x s) ≠ None.
Proof.
  revert x. induction s as [|y s IH]; intros x; [done|].
  change (last_char (String x (String y s))) with (last_char (String y s)).
  apply IH.
Qed.

Lemma last_char_all p q c : all_chars p q = true → last_char q = Some c → p c = true.
Proof.
  induction q as [|x q IH]; [done|]. simpl all_chars.
  intros [Hx Hq]%andb_true_iff. destruct q as [|y q].
  - by intros [= <-].
  - simpl. simpl in IH. by apply IH.
Qed.

Lemma last_char_app s q :
  last_char (s +:+ q) = match last_char q with
                        | Some c => Some c
                        | None => last_char s
                        end.
Proof.
  induction s as [|x s IH].
  - change ("" +:+ q) with q. by destruct (last_char q).
  - rewrite app_cons. destruct s as [|y s].
    + change ("" +:+ q) with q. destruct q as [|y q]; [done|].
      change (last_char (String x (String y q))) with (last_char (String y q)).
      destruct (last_char (String y q)) as [c|] eqn:Hl; [done|].
      by apply last_char_cons in Hl.
    + rewrite app_cons in *.
      change (last_char (String x (String y (s +:+ q))))
        with (last_char (String y (s +:+ q))).
      exact IH.
Qed.

Lemma ends_with_quote s c :
  last_char s = Some c → is_quote c = true → ends_with_space s = false.
Proof.
  intros Hl Hq. induction s as [|a s IH]; [done|].
  cbn [ends_with_space]. apply orb_false_iff. split.
  - destruct (is_whitespace (String a s)) eqn:Hw; [|done].
    apply is_whitespace_no_quote in Hw.
    pose proof (last_char_all _ _ c Hw Hl) as Hc. simpl in Hc. by rewrite Hq in Hc.
  - destruct s as [|b s]; [done|]. apply IH. exact Hl.
Qed.

Lemma ends_app_quotes_l q k :
  all_chars is_quote q = true → ends_with_space k = false →
  ends_with_space (q +:+ k) = false.
Proof.
  intros Hq Hk. induction q as [|x q IH]; [done|].
  simpl in Hq. apply andb_true_iff in Hq as [Hx Hq].
  rewrite app_cons. cbn [ends_with_space].
  by rewrite (is_whitespace_quote x _ Hx), (IH Hq).
Qed.

Lemma app_empty_r (a : string) : a +:+ "" = a.
Proof.
  induction a as [|x a IH]; [reflexivity|]. rewrite app_cons. by f_equal.
Qed.

Lemma ends_app_quotes_r k q' :
  all_chars is_quote q' = true → ends_with_space k = false →
  ends_with_space (k +:+ q') = false.
Proof.
  intros Hq' Hk. destruct (last_char q') as [c|] eqn:Hl.
  - apply (ends_with_quote _ c); [by rewrite last_char_app, Hl|].
    exact (last_char_all is_quote q' c Hq' Hl).
  - destruct q' as [|y q']; [by rewrite app_empty_r|]. by apply last_char_cons in Hl.
Qed.

(** X8. A key written between quotes in the environment is used without
    them: when the value is the key between any number of single or
    double quotes, and the key itself neither begins nor ends with a
    quote or with a whitespace character, of one byte or of more, the
    module's key is exactly that key. *)
Theorem quoted_api_key_is_unquoted (q k q' : string) :
  all_chars is_quote q = true →
  all_chars is_quote q' = true →
  (∀ c, first_char k = Some c → is_quote c = false) →
  (∀ c, last_char k = Some c → is_quote c = false) →
  begins_with_space k = false →
  ends_with_space k = false →
  OPENAI_API_KEY (Some (q +:+ k +:+ q')) = k.
Proof.
  intros Hq Hq' Hfirst Hlast Hb He. unfold OPENAI_API_KEY. simpl default.
  rewrite (strip_space_clean (q +:+ k +:+ q')).
  - rewrite strip_between by done. by apply strip_space_clean.
  - destruct q as [|x q].
    + change ("" +:+ k +:+ q') with (k +:+ q'). by apply begins_app_quotes.
    + rewrite app_cons. simpl in Hq. apply andb_true_iff in Hq as [Hx _].
      by apply begins_with_quote.
  - apply ends_app_quotes_l; [done|]. by apply ends_app_quotes_r.
Qed.

Lemma quoted_api_key_is_unquoted_witness :
  OPENAI_API_KEY (Some "'sk-test-123'") = "sk-test-123"
  ∧ import_module (Some "'sk-test-123'") = Return ().
Proof.
  assert (OPENAI_API_KEY (Some "'sk-test-123'") = "sk-test-123") as Hkey.
  { apply (quoted_api_key_is_unquoted "'" "sk-test-123" "'").
    - reflexivity.
    - reflexivity.
    - by intros c [= <-].
    - by intros c [= <-].
    - reflexivity.
    - reflexivity. }
  split; [exact Hkey|]. unfold import_module. by rewrite Hkey.
Defined.

(** A no-break space, U+00A0, is two bytes of the text and is stripped
    like the space: around the key, and again once the quotes are gone. *)
Example no_break_space_is_stripped :
  let nbsp := String (Ascii.ascii_of_nat 194) (String (Ascii.ascii_of_nat 160) "") in
  OPENAI_API_KEY (Some (nbsp +:+ "sk-x" +:+ nbsp)) = "sk-x"
  ∧ OPENAI_API_KEY (Some ("'" +:+ nbsp +:+ "sk-x" +:+ nbsp +:+ "'")) = "sk-x"
  ∧ import_module (Some nbsp)
    = Raise (Exn ValueError "OPENAI_API_KEY is not set in environment variables.").
Proof. vm_compute. done. Qed.

(** [analyze_meal_image] fails in two ways only.  When no file exists
    at the path it raises [FileNotFoundError] naming the path, before
    anything is read or sent.  When the file exists, every failure of
    the provider call is raised as [RuntimeError] whose text is the fixed
    prefix followed by the text of the cause.  When it returns, the
    provider answered a request whose image is the data URL of the
    file's bytes with the MIME type of the path, and the dict gives back
    the provider's analysis together with the path and the question it
    was called with. *)
Lemma analyze_meal_image_outcomes
    (b64encode : list Byte.byte → string) (system_prompt : string)
    (create : vision_request → result vision_response)
    (files : gmap string (list Byte.byte)) (path question : string) :
  (files !! path = None ∧
   analyze_meal_image b64encode system_prompt create files path question
   = Raise (Exn FileNotFoundError ("Image not found: " +:+ path)))
  ∨ (∃ image_data cause,
       files !! path = Some image_data
       ∧ create {| req_model := "gpt-4o"; req_system := system_prompt;
                   req_text := question;
                   req_image_url := "data:" +:+ mime_type path +:+ ";base64,"
                                    +:+ b64encode image_data;
                   req_max_tokens := 2000 |} = Raise cause
       ∧ analyze_meal_image b64encode system_prompt create files path question
         = Raise (Exn RuntimeError
                    ("OpenAI Vision API analysis failed: " +:+ exn_str cause)))
  ∨ (∃ image_data response,
       files !! path = Some image_data
       ∧ create {| req_model := "gpt-4o"; req_system := system_prompt;
                   req_text := question;
                   req_image_url := "data:" +:+ mime_type path +:+ ";base64,"
                                    +:+ b64encode image_data;
                   req_max_tokens := 2000 |} = Return response
       ∧ analyze_meal_image b64encode system_prompt create files path question
         = Return {| analysis := resp_analysis response;
                     model := resp_model response;
                     tokens_used := resp_total_tokens response;
                     image_path := path;
                     user_question := question |}).
Proof.
  unfold analyze_meal_image, analyze_body.
  destruct (files !! path) as [image_data|] eqn:Hfile.
  - rewrite bool_decide_eq_true_2 by (by eexists). simpl negb. cbv iota.
    destruct (create _) as [response|cause] eqn:Hcreate.
    + right. right. by exists image_data, response.
    + right. left. by exists image_data, cause.
  - left. split; [done|].
    rewrite bool_decide_eq_false_2; [done|]. by intros [? ?].
Qed.

End VisionFacts.

(** ** The upload endpoint with the vision tool *)

Module VisionUpload.
Import Main RequestTerms UploadTerms UploadFacts UploadExtras.
Import MealsDetect VisionTerms VisionFacts.

(** X9. The upload endpoint with the vision tool behind it.  For an
    upload that is saved, whatever the vision tool does, the upload
    succeeds and the analysis stored in the new record is: the message of
    the missing key when the API key is not set (the import of the tool
    fails); the text of the provider failure behind the fixed prefix when
    the provider call fails; and otherwise the returned dict, which names
    the stored image path and the question asked.  The tool is called
    after the move, on the stored path. *)
Theorem upload_stores_vision_outcome
    (h : host) (e : upload_env) (d : disk) (file : UploadFile) (descr : string)
    (dumps : analysis_dict → string) (b64encode : list Byte.byte → string)
    (system_prompt : string) (create : vision_request → result vision_response)
    (getenv : option string) :
  reaches_store e file →
  failure_before_move e d = None →
  failure_after_move h e = None →
  (∀ path question,
     Main.analyze_meal_image e path question
     = vision_oracle dumps b64encode system_prompt create
         (<[next_path e d file := contents file]> (uploads_meals d)) getenv
         path question) →
  ∃ rec,
    (upload_image h e d file descr).2
    = Return (success_response e file (new_id (stored d)))
    ∧ last (stored (upload_image h e d file descr).1) = Some rec
    ∧ (∀ err, import_module getenv = Raise err →
         analysis_response rec
         = Some (ErrorResult "OPENAI_API_KEY is not set in environment variables."))
    ∧ (∀ cause,
         import_module getenv = Return () →
         create (request_for b64encode system_prompt (next_path e d file)
                   (contents file) (question_for descr)) = Raise cause →
         analysis_response rec
         = Some (ErrorResult
                   ("OpenAI Vision API analysis failed: " +:+ exn_str cause)))
    ∧ (∀ response,
         import_module getenv = Return () →
         create (request_for b64encode system_prompt (next_path e d file)
                   (contents file) (question_for descr)) = Return response →
         analysis_response rec
         = Some (AnalysisDict
                   (dumps {| analysis := resp_analysis response;
                             model := resp_model response;
                             tokens_used := resp_total_tokens response;
                             MealsDetect.image_path := next_path e d file;
                             user_question := question_for descr |}))).
Proof.
  intros Hreach Hbefore Hafter Horacle.
  destruct (upload_cases h e d file descr)
    as [(Hno & _)
       | [(_ & err' & Hb & _)
         | [(_ & _ & err' & Ha & _)
           | (_ & _ & _ & uid & _ & Hres & Hjson & _)]]]; try congruence; try done.
  eexists. split; [exact Hres|].
  unfold stored at 1. rewrite Hjson. split; [apply last_snoc|].
  unfold record_for. cbn [analysis_response].
  unfold analysis_result. fold (question_for descr). rewrite Horacle.
  unfold vision_oracle, import_and_analyze.
  split; [|split].
  - intros err Himp. rewrite Himp. simpl.
    unfold import_module in Himp. destruct (negb _); [|done].
    by injection Himp as <-.
  - intros cause Himp Hcreate. rewrite Himp.
    change (Return () ≫= ?k) with (k ()). cbv beta.
    unfold MealsDetect.analyze_meal_image, analyze_body.
    rewrite lookup_insert_eq.
    rewrite bool_decide_eq_true_2 by (by eexists). simpl negb. cbv iota.
    unfold request_for in Hcreate. rewrite Hcreate. done.
  - intros response Himp Hcreate. rewrite Himp.
    change (Return () ≫= ?k) with (k ()). cbv beta.
    unfold MealsDetect.analyze_meal_image, analyze_body.
    rewrite lookup_insert_eq.
    rewrite bool_decide_eq_true_2 by (by eexists). simpl negb. cbv iota.
    unfold request_for in Hcreate. rewrite Hcreate. done.
Qed.

Lemma upload_stores_vision_outcome_witness :
  (∃ rec,
     last (stored (upload_image Fixture.alice (VisionFixture.with_vision None)
                     Fixture.unsorted_disk Fixture.photo_jpg "lunch").1) = Some rec
     ∧ analysis_response rec
       = Some (ErrorResult "OPENAI_API_KEY is not set in environment variables."))
  ∧ (∃ rec,
       last (stored (upload_image Fixture.alice
                       (VisionFixture.with_vision (Some "sk-test-123"))
                       Fixture.unsorted_disk Fixture.photo_jpg "lunch").1) = Some rec
       ∧ analysis_response rec
         = Some (ErrorResult "OpenAI Vision API analysis failed: Error code: 429")).
Proof.
  split.
  - destruct (upload_stores_vision_outcome Fixture.alice
                (VisionFixture.with_vision None) Fixture.unsorted_disk
                Fixture.photo_jpg "lunch" VisionFixture.stub_dumps
                VisionFixture.stub_b64 "You are a nutritionist"
                VisionFixture.rate_limited None)
      as (rec & _ & Hlast & Hkey & _).
    + repeat split; reflexivity.
    + reflexivity.
    + reflexivity.
    + intros path question. reflexivity.
    + exists rec. split; [exact Hlast|]. eapply Hkey. reflexivity.
  - destruct (upload_stores_vision_outcome Fixture.alice
                (VisionFixture.with_vision (Some "sk-test-123"))
                Fixture.unsorted_disk Fixture.photo_jpg "lunch"
                VisionFixture.stub_dumps VisionFixture.stub_b64
                "You are a nutritionist" VisionFixture.rate_limited
                (Some "sk-test-123"))
      as (rec & _ & Hlast & _ & Hfail & _).
    + repeat split; reflexivity.
    + reflexivity.
    + reflexivity.
    + intros path question. reflexivity.
    + exists rec. split; [exact Hlast|].
      apply (Hfail (Exn OtherException "Error code: 429")); reflexivity.
Defined.

End VisionUpload.

(** ** Runs of the graph: how they end *)

Module RunFacts.
Import ReducerFacts WorkflowFacts ChatFacts GrowthFacts HistoryTerms RunTerms.

Section Runs.

Variable uuid4 : nat → string.
Variable system_prompt : string.
Variable llm_with_tool : list Message → result Message.
Variable run_tool : ToolCall → string.
Variable recursion_limit : nat.

Local Abbreviation superstep :=
  (superstep uuid4 system_prompt llm_with_tool run_tool recursion_limit).
Local Abbreviation ticks :=
  (ticks uuid4 system_prompt llm_with_tool run_tool recursion_limit).
Local Abbreviation invoke_on :=
  (invoke_on uuid4 system_prompt llm_with_tool run_tool recursion_limit).
Local Abbreviation on_track :=
  (on_track system_prompt llm_with_tool recursion_limit).

Lemma enter_on_track saved g input :
  messages input ≠ [] → on_track (enter uuid4 saved g input).
Proof.
  intros Hin. destruct (enter_streaming uuid4 saved g input Hin) as (Hne & _).
  unfold RunTerms.on_track. split; [exact Hne|].
  unfold enter. by destruct (add_messages _ _ _ _).
Qed.

Lemma last_nonempty {A} (l : list A) : l ≠ [] → ∃ x, last l = Some x.
Proof.
  intros Hne. destruct (last l) as [x|] eqn:Hl; [by exists x|].
  by apply last_None in Hl.
Qed.

Lemma superstep_on_track l : on_track l → on_track (superstep l).
Proof.
  intros [Hne Hstat]. unfold Workflow.superstep.
  destruct (stat l) as [n| |e] eqn:Hs; [|by split; rewrite ?Hs..].
  case_decide as Hlim.
  { split; [done|]. simpl. by left. }
  destruct n.
  - unfold run_node, llm_call.
    destruct (llm_with_tool _) as [answer|e] eqn:Hllm.
    2:{ split; [done|]. simpl. right. by eexists. }
    change (Return answer ≫= _)
      with (Return {| messages := messages (state l) ++ [answer] |}).
    cbn [messages].
    pose proof (add_messages_length uuid4 (messages (state l))
                  (messages (state l) ++ [answer]) (uuid_draws l)) as Hlen.
    destruct (add_messages _ _ _ _) as [ms g]. simpl in Hlen.
    assert (ms ≠ []) as Hms.
    { intros ->. destruct (messages (state l)); [done | simpl in Hlen; lia]. }
    destruct (last_nonempty ms Hms) as [m Hm].
    unfold edge_from, decision_node. cbn [messages]. rewrite Hm.
    destruct (tool_calls_attr m) as [[|c calls]|] eqn:Hcalls; simpl.
    + split; [done|]. split; [simpl; lia|]. exists m. split; [done|].
      unfold requests. by rewrite Hcalls.
    + split; [done|]. destruct m; try done. simpl in Hcalls.
      injection Hcalls as ->. by do 4 eexists.
    + split; [done|]. split; [simpl; lia|]. exists m. split; [done|].
      unfold requests. by rewrite Hcalls.
  - destruct Hstat as (text & c & calls & i & Hlast).
    unfold run_node, tool_node. rewrite Hlast.
    pose proof (add_messages_length uuid4 (messages (state l))
                  ((λ c, ToolMessage (run_tool c) (tc_id c) None) <$> c :: calls)
                  (uuid_draws l)) as Hlen.
    cbn [messages].
    destruct (add_messages _ _ _ _) as [ms g]. simpl in Hlen.
    split; [|done]. simpl.
    intros ->. destruct (messages (state l)); [done | simpl in Hlen; lia].
Qed.

Lemma ticks_on_track n l : on_track l → on_track (ticks n l).
Proof.
  revert l. induction n as [|n IH]; intros l Hl; [done|].
  rewrite ticks_succ. by apply IH, superstep_on_track.
Qed.

Lemma run_is_terminal w thread_id input :
  is_terminal (stat (invoke_on w thread_id input).2) = true.
Proof.
  unfold Workflow.invoke_on. cbn [snd].
  set (l0 := enter uuid4 _ _ _).
  assert (step l0 = 0) as H0.
  { unfold l0, enter. by destruct (add_messages _ _ _ _). }
  destruct (bounded_from uuid4 system_prompt llm_with_tool run_tool recursion_limit
              recursion_limit l0) as (n & Hn & Ht & _); [lia|].
  replace (S recursion_limit) with (n + (S recursion_limit - n)) by lia.
  by rewrite ticks_add, ticks_terminal.
Qed.

Lemma run_on_track w thread_id input :
  messages input ≠ [] → on_track (invoke_on w thread_id input).2.
Proof. intros Hin. by apply ticks_on_track, enter_on_track. Qed.

End Runs.

Lemma recursion_error_out_of_steps n : out_of_steps n (recursion_error n).
Proof.
  split; [done|].
  exists " You can increase the limit by setting the `recursion_limit` config key.".
  reflexivity.
Qed.

(** X10. How a run of the compiled graph ends, when its input has at
    least one message and the recursion limit is one the runtime accepts.
    Either it is finished: then at least one model step was made, the
    last message of the final value carries no tool request, and that
    value is what [invoke] returns.  Or it failed: then the exception is
    the runtime's [GraphRecursionError] for the used-up step budget,
    whose text begins by naming the limit, or an exception that the model
    call raised.  In particular neither [decision_node], nor the path map
    of the conditional edge, nor the tool node ever fails in a run. *)
Theorem run_ends_in_answer_or_failure
    (uuid4 : nat → string) (system_prompt : string)
    (llm_with_tool : list Message → result Message)
    (run_tool : ToolCall → string) (recursion_limit : nat)
    (w : world) (thread_id : string) (input : AgentState) :
  messages input ≠ [] →
  1 ≤ recursion_limit →
  (∃ final m,
     (invoke uuid4 system_prompt llm_with_tool run_tool recursion_limit
        w thread_id input).2 = Return final
     ∧ stat (build_workflow uuid4 system_prompt llm_with_tool run_tool
               recursion_limit w thread_id input).2 = Finished
     ∧ 1 ≤ step (build_workflow uuid4 system_prompt llm_with_tool run_tool
                   recursion_limit w thread_id input).2
     ∧ last (messages final) = Some m
     ∧ requests m = []
     ∧ turn_output final = Some (Messages.content m))
  ∨ (∃ e,
       (invoke uuid4 system_prompt llm_with_tool run_tool recursion_limit
          w thread_id input).2 = Raise e
       ∧ (out_of_steps recursion_limit e
          ∨ model_raises system_prompt llm_with_tool e)).
Proof.
  intros Hin _. unfold invoke, build_workflow.
  pose proof (run_is_terminal uuid4 system_prompt llm_with_tool run_tool
                recursion_limit w thread_id input) as Hterm.
  pose proof (run_on_track uuid4 system_prompt llm_with_tool run_tool
                recursion_limit w thread_id input Hin) as [Hne Hstat].
  destruct (Workflow.invoke_on _ _ _ _ _ w thread_id input) as [w' final].
  cbn [snd] in *.
  destruct (stat final) as [n| |e]; [done| |].
  - left. destruct Hstat as (Hstep & m & Hm & Hreq).
    exists (state final), m. repeat split; try done.
    unfold turn_output. by rewrite Hm.
  - right. exists e. split; [done|].
    destruct Hstat as [-> | Hmodel]; [left | by right].
    apply recursion_error_out_of_steps.
Qed.

Lemma run_ends_in_answer_or_failure_witness :
  (∃ final m,
     (invoke Stubs.uuid4 Stubs.system_prompt Stubs.search_then_answer Stubs.run_tool 25
        Stubs.fresh_world "t" {| messages := [HumanMessage "hello" None] |}).2
     = Return final
     ∧ last (messages final) = Some m ∧ requests m = [])
  ∧ ∃ e,
      (invoke Stubs.uuid4 Stubs.system_prompt Stubs.always_tool Stubs.run_tool 4
         Stubs.fresh_world "t" {| messages := [HumanMessage "hello" None] |}).2
      = Raise e
      ∧ out_of_steps 4 e.
Proof.
  split.
  - destruct (run_ends_in_answer_or_failure Stubs.uuid4 Stubs.system_prompt
                Stubs.search_then_answer Stubs.run_tool 25 Stubs.fresh_world "t"
                {| messages := [HumanMessage "hello" None] |})
      as [(final & m & Hres & _ & _ & Hlast & Hreq & _) | (e & Hres & _)].
    + discriminate.
    + lia.
    + exists final, m. split; [exact Hres|]. split; [exact Hlast | exact Hreq].
    + vm_compute in Hres. discriminate Hres.
  - destruct (run_ends_in_answer_or_failure Stubs.uuid4 Stubs.system_prompt
                Stubs.always_tool Stubs.run_tool 4 Stubs.fresh_world "t"
                {| messages := [HumanMessage "hello" None] |})
      as [(final & m & Hres & _) | (e & Hres & [Hout | (history & Hraise)])].
    + discriminate.
    + lia.
    + vm_compute in Hres. discriminate Hres.
    + exists e. split; [exact Hres | exact Hout].
    + discriminate Hraise.
Defined.

End RunFacts.

(** ** The tool step *)

Module ToolStepFacts.
Import ReducerFacts WorkflowFacts GrowthFacts HistoryTerms RunTerms.

Section ToolStep.

Variable uuid4 : nat → string.
Hypothesis uuid4_inj : Inj (=) (=) uuid4.

(** Merging an update of messages without ids into a settled history
    appends the update, with its new ids, as it is. *)
Lemma upserts_fresh_ids g l r :
  settled uuid4 g l → Forall no_id r →
  upserts l (assign_ids uuid4 r g).1 = l ++ (assign_ids uuid4 r g).1.
Proof.
  intros Hl Hr. revert g l Hl. induction Hr as [|m r Hm Hr IH]; intros g l Hl.
  - simpl. by rewrite app_nil_r.
  - rewrite (assign_ids_cons_no_id uuid4 m r g Hm). cbn [fst snd].
    destruct (settled_snoc uuid4 uuid4_inj g l m Hl) as (Hnew & Hl' & _).
    { intros i Hi. unfold no_id in Hm. congruence. }
    unfold stored_as in Hnew, Hl'. rewrite Hm in Hnew, Hl'. cbn [fst snd] in Hnew, Hl'.
    rewrite upserts_cons, upsert_fresh by done.
    rewrite (IH (S g) _ Hl'). by rewrite <- app_assoc.
Qed.

Lemma assign_ids_tool_results run_tool calls g :
  assign_ids uuid4 ((λ c, ToolMessage (run_tool c) (tc_id c) None) <$> calls) g
  = (tool_messages uuid4 run_tool g calls, g + length calls).
Proof.
  revert g. induction calls as [|c calls IH]; intros g.
  - simpl. by rewrite Nat.add_0_r.
  - rewrite fmap_cons, assign_ids_cons_no_id by done. rewrite IH. cbn [fst snd].
    unfold tool_messages. rewrite imap_cons. f_equal; [|simpl; lia].
    f_equal; [by rewrite Nat.add_0_r|].
    apply imap_ext. intros k x _. simpl. by rewrite Nat.add_succ_r.
Qed.

End ToolStep.

(** X11. The tool step.  When the tool node is due within the step
    budget on a settled history whose last message is an [AIMessage], one
    turn of the loop appends exactly one [ToolMessage] per tool call of
    that message, in the order of the calls, each carrying the id of its
    call and the text the tool node produced for it; nothing stored is
    changed, one uuid is drawn per call, and the agent node is due next. *)
Theorem tool_step_answers_every_call
    (uuid4 : nat → string) (system_prompt : string)
    (llm_with_tool : list Message → result Message)
    (run_tool : ToolCall → string) (recursion_limit : nat)
    (l : loop) (text : string) (calls : list ToolCall) (i : option string) :
  Inj (=) (=) uuid4 →
  settled uuid4 (uuid_draws l) (messages (state l)) →
  stat l = Next tool →
  step l < recursion_limit →
  last (messages (state l)) = Some (AIMessage text calls i) →
  messages (state (superstep uuid4 system_prompt llm_with_tool run_tool
                     recursion_limit l))
  = messages (state l) ++ tool_messages uuid4 run_tool (uuid_draws l) calls
  ∧ uuid_draws (superstep uuid4 system_prompt llm_with_tool run_tool
                  recursion_limit l)
    = uuid_draws l + length calls
  ∧ stat (superstep uuid4 system_prompt llm_with_tool run_tool recursion_limit l)
    = Next agent
  ∧ step (superstep uuid4 system_prompt llm_with_tool run_tool recursion_limit l)
    = S (step l).
Proof.
  intros Hinj Hset Hstat Hstep Hlast. unfold superstep. rewrite Hstat.
  case_decide; [lia|].
  unfold run_node, tool_node. rewrite Hlast. cbn [messages].
  rewrite add_messages_stored by (by eapply settled_wf).
  rewrite upserts_fresh_ids; [|done|done|].
  2:{ apply Forall_fmap. by apply Forall_true. }
  rewrite assign_ids_tool_results. done.
Qed.

Lemma tool_step_answers_every_call_witness :
  messages
    (state
       (superstep Stubs.uuid4 Stubs.system_prompt Stubs.search_then_answer
          Stubs.run_tool 25
          {| state := {| messages :=
                           [HumanMessage "hello" (Some (Stubs.uuid4 0));
                            AIMessage "" [Stubs.search_call] (Some (Stubs.uuid4 1))] |};
             uuid_draws := 2; step := 1; stat := Next tool; emitted := [] |}))
  = [HumanMessage "hello" (Some (Stubs.uuid4 0));
     AIMessage "" [Stubs.search_call] (Some (Stubs.uuid4 1));
     ToolMessage (Stubs.run_tool Stubs.search_call) "call_1" (Some (Stubs.uuid4 2))].
Proof.
  destruct (tool_step_answers_every_call Stubs.uuid4 Stubs.system_prompt
              Stubs.search_then_answer Stubs.run_tool 25
              {| state := {| messages :=
                               [HumanMessage "hello" (Some (Stubs.uuid4 0));
                                AIMessage "" [Stubs.search_call]
                                  (Some (Stubs.uuid4 1))] |};
                 uuid_draws := 2; step := 1; stat := Next tool; emitted := [] |}
              "" [Stubs.search_call] (Some (Stubs.uuid4 1)))
    as (Hmsgs & _).
  - exact HistoryClaims.stub_uuid4_inj.
  - split.
    + apply NoDup_cons. split.
      * intros Hin%list_elem_of_singleton. vm_compute in Hin. discriminate Hin.
      * apply NoDup_singleton.
    + repeat constructor.
      * exists (Stubs.uuid4 0). split; [done|].
        intros k Hk%HistoryClaims.stub_uuid4_inj. simpl. lia.
      * exists (Stubs.uuid4 1). split; [done|].
        intros k Hk%HistoryClaims.stub_uuid4_inj. simpl. lia.
  - reflexivity.
  - simpl. lia.
  - reflexivity.
  - exact Hmsgs.
Defined.

End ToolStepFacts.

(** ** What the chat endpoint and the script answer *)

Module AnswerFacts.
Import WebsearchFacts ReducerFacts WorkflowFacts ChatFacts HistoryTerms RunTerms RunFacts.

Lemma rendered_nonempty e : rendered e ≠ "".
Proof. unfold rendered. by destruct (is_ImportError e). Qed.

Lemma apology_nonempty : Main.apology ≠ "".
Proof. done. Qed.

Lemma truthy_str_nonempty s : truthy_str s = true → s ≠ "".
Proof. by destruct s. Qed.

Lemma answer_text_nonempty m : answer_text m ≠ "".
Proof.
  unfold answer_text. destruct (truthy_str _) eqn:Ht.
  - by apply truthy_str_nonempty.
  - apply apology_nonempty.
Qed.

Section Answers.

Variable uuid4 : nat → string.
Variable system_prompt : string.
Variable llm_with_tool : list Message → result Message.
Variable run_tool : ToolCall → string.
Variable recursion_limit : nat.
Variable h : Main.host.

Local Abbreviation chat_try :=
  (Main.chat_try uuid4 system_prompt llm_with_tool run_tool recursion_limit h).
Local Abbreviation chat :=
  (Main.chat uuid4 system_prompt llm_with_tool run_tool recursion_limit h).

(** The [try] block of [chat] never returns the empty string. *)
Lemma chat_try_nonempty w req c : (chat_try w req).2 = Return c → c ≠ "".
Proof.
  unfold Main.chat_try.
  destruct (Main.chat_thread_id h req) as [thread_id|e]; [|done].
  destruct (Main.workflow_app _ _ _ _ _ w thread_id _) as [w' final]. cbn [snd].
  destruct (Main.consume (emitted final) "") as [rc|e]; [|done].
  change (Return rc ≫= ?k) with (k rc). cbv beta.
  destruct (stat final); try done;
    (destruct (truthy_str rc) eqn:Ht; simpl; intros [= <-];
     [by apply truthy_str_nonempty | apply apology_nonempty]).
Qed.

End Answers.

(** X12. The content of the response of the chat endpoint is never the
    empty string, whatever the request, the model, the tools and the
    machine do: an empty answer of the run is replaced by the apology, and
    a failure is worded with a non-empty prefix. *)
Theorem chat_content_never_empty
    (uuid4 : nat → string) (system_prompt : string)
    (llm_with_tool : list Message → result Message)
    (run_tool : ToolCall → string) (recursion_limit : nat) (h : Main.host)
    (w : world) (req : Main.ChatRequest) :
  ∃ resp,
    (Main.chat uuid4 system_prompt llm_with_tool run_tool recursion_limit h w req).2
    = Return resp
    ∧ Main.resp_content resp ≠ "".
Proof.
  pose proof (chat_try_nonempty uuid4 system_prompt llm_with_tool run_tool
                recursion_limit h w req) as Hne.
  pose proof (chat_renders uuid4 system_prompt llm_with_tool run_tool
                recursion_limit h w req) as Hren.
  unfold Main.chat in *.
  destruct (Main.chat_try _ _ _ _ _ _ w req) as [w' [c|e]]; cbn [snd] in *.
  - eexists. split; [reflexivity|]. simpl. by apply Hne.
  - rewrite (Hren e eq_refl). eexists. split; [reflexivity|]. simpl.
    apply rendered_nonempty.
Qed.

(** X13. What the chat endpoint answers once the user id can be read,
    under a recursion limit the runtime accepts.  The world it leaves
    behind is the one its run of the graph leaves.  Either the run
    finished: then the last message of the final value requests no tool,
    and the content of the response is the content of that message, or
    the apology when that content is empty.  Or the run failed, with the
    runtime's [GraphRecursionError] for the used-up step budget or with
    an exception the model call raised: then the content of the response
    is the wording of that exception. *)
Theorem chat_speaks_final_answer
    (uuid4 : nat → string) (system_prompt : string)
    (llm_with_tool : list Message → result Message)
    (run_tool : ToolCall → string) (recursion_limit : nat) (h : Main.host)
    (w : world) (req : Main.ChatRequest) (uid : string) :
  Main.get_user_id h = Return uid →
  1 ≤ recursion_limit →
  (Main.chat uuid4 system_prompt llm_with_tool run_tool recursion_limit h w req).1
  = (chat_run uuid4 system_prompt llm_with_tool run_tool recursion_limit w uid req).1
  ∧ ((∃ m,
        stat (chat_run uuid4 system_prompt llm_with_tool run_tool recursion_limit
                w uid req).2 = Finished
        ∧ last (messages (state (chat_run uuid4 system_prompt llm_with_tool run_tool
                                   recursion_limit w uid req).2)) = Some m
        ∧ requests m = []
        ∧ (Main.chat uuid4 system_prompt llm_with_tool run_tool recursion_limit
             h w req).2
          = Return (Main.ChatResponse_of (answer_text m)))
     ∨ (∃ e,
          stat (chat_run uuid4 system_prompt llm_with_tool run_tool recursion_limit
                  w uid req).2 = Failed e
          ∧ (out_of_steps recursion_limit e
             ∨ model_raises system_prompt llm_with_tool e)
          ∧ (Main.chat uuid4 system_prompt llm_with_tool run_tool recursion_limit
               h w req).2
            = Return (Main.ChatResponse_of (rendered e)))).
Proof.
  intros Huid _. unfold Main.chat, chat_run.
  rewrite (chat_try_spec uuid4 system_prompt llm_with_tool run_tool recursion_limit
             h w req uid Huid).
  pose proof (run_is_terminal uuid4 system_prompt llm_with_tool run_tool
                recursion_limit w (uid +:+ "_api_session")
                {| messages := Main.input_messages req |}) as Hterm.
  pose proof (run_on_track uuid4 system_prompt llm_with_tool run_tool
                recursion_limit w (uid +:+ "_api_session")
                {| messages := Main.input_messages req |}
                (input_messages_nonempty req)) as [Hne Hst].
  destruct (invoke_on _ _ _ _ _ w _ _) as [w' final]. cbn [fst snd] in *.
  split; [done|].
  destruct (stat final) as [n| |e]; [done| |].
  - left. destruct Hst as (_ & m & Hm & Hreq). exists m.
    split; [done|]. split; [done|]. split; [done|].
    simpl. unfold spoken, answer_text. by rewrite Hm.
  - right. exists e. split; [done|]. split.
    + destruct Hst as [-> | Hmodel]; [left | by right].
      apply recursion_error_out_of_steps.
    + simpl. unfold Main.chat_handler, rendered. by destruct (is_ImportError e).
Qed.

Lemma chat_speaks_final_answer_witness :
  (Main.chat Stubs.uuid4 Stubs.system_prompt Stubs.final_answer Stubs.run_tool 25
     Fixture.alice Stubs.fresh_world Stubs.hello).2
  = Return (Main.ChatResponse_of "One cup of cooked rice has about 200 kcal.").
Proof.
  destruct (chat_speaks_final_answer Stubs.uuid4 Stubs.system_prompt
              Stubs.final_answer Stubs.run_tool 25 Fixture.alice Stubs.fresh_world
              Stubs.hello "user_nehctik@")
    as (_ & [(m & _ & Hm & _ & Hres) | (e & He & _)]).
  - vm_compute. reflexivity.
  - lia.
  - vm_compute in Hm. injection Hm as <-. exact Hres.
  - vm_compute in He. discriminate He.
Defined.

(** X14. What the script [app] ends with, under a recursion limit the
    runtime accepts.  Either its run of the graph on the thread [1]
    finished: then the last message of the value [invoke] returned
    requests no tool and its content is what the script prints.  Or the
    script ends with an exception, which is the runtime's
    [GraphRecursionError] for the used-up step budget or an exception the
    model call raised; indexing the last message never fails. *)
Theorem app_prints_final_answer
    (uuid4 : nat → string) (system_prompt : string)
    (llm_with_tool : list Message → result Message)
    (run_tool : ToolCall → string) (recursion_limit : nat) (w : world) :
  1 ≤ recursion_limit →
  (App.app uuid4 system_prompt llm_with_tool run_tool recursion_limit w).1
  = (app_run uuid4 system_prompt llm_with_tool run_tool recursion_limit w).1
  ∧ ((∃ m,
        stat (app_run uuid4 system_prompt llm_with_tool run_tool recursion_limit
                w).2 = Finished
        ∧ last (messages (state (app_run uuid4 system_prompt llm_with_tool run_tool
                                   recursion_limit w).2)) = Some m
        ∧ requests m = []
        ∧ (App.app uuid4 system_prompt llm_with_tool run_tool recursion_limit w).2
          = Return (Messages.content m))
     ∨ (∃ e,
          (App.app uuid4 system_prompt llm_with_tool run_tool recursion_limit w).2
          = Raise e
          ∧ (out_of_steps recursion_limit e
             ∨ model_raises system_prompt llm_with_tool e))).
Proof.
  intros _. unfold App.app, invoke, build_workflow, app_run.
  pose proof (run_is_terminal uuid4 system_prompt llm_with_tool run_tool
                recursion_limit w "1"
                {| messages := [HumanMessage App.user_input None] |}) as Hterm.
  pose proof (run_on_track uuid4 system_prompt llm_with_tool run_tool
                recursion_limit w "1"
                {| messages := [HumanMessage App.user_input None] |}
                ltac:(done)) as [Hne Hst].
  destruct (invoke_on _ _ _ _ _ w _ _) as [w' final]. cbn [fst snd] in *.
  split; [done|].
  destruct (stat final) as [n| |e]; [done| |].
  - left. destruct Hst as (_ & m & Hm & Hreq). exists m.
    split; [done|]. split; [done|]. split; [done|].
    simpl. by rewrite Hm.
  - right. exists e. split; [done|].
    destruct Hst as [-> | Hmodel]; [left | by right].
    apply recursion_error_out_of_steps.
Qed.

Lemma app_prints_final_answer_witness :
  (App.app Stubs.uuid4 Stubs.system_prompt Stubs.final_answer Stubs.run_tool 25
     Stubs.fresh_world).2
  = Return "One cup of cooked rice has about 200 kcal."
  ∧ ∃ e,
      (App.app Stubs.uuid4 Stubs.system_prompt Stubs.always_tool Stubs.run_tool 4
         Stubs.fresh_world).2 = Raise e
      ∧ out_of_steps 4 e.
Proof.
  split.
  - destruct (app_prints_final_answer Stubs.uuid4 Stubs.system_prompt
                Stubs.final_answer Stubs.run_tool 25 Stubs.fresh_world)
      as (_ & [(m & _ & Hm & _ & Hres) | (e & Hres & _)]).
    + lia.
    + vm_compute in Hm. injection Hm as <-. exact Hres.
    + vm_compute in Hres. discriminate Hres.
  - destruct (app_prints_final_answer Stubs.uuid4 Stubs.system_prompt
                Stubs.always_tool Stubs.run_tool 4 Stubs.fresh_world)
      as (_ & [(m & Hfin & _) | (e & Hres & [Hout | (history & Hraise)])]).
    + lia.
    + vm_compute in Hfin. discriminate Hfin.
    + exists e. split; [exact Hres | exact Hout].
    + discriminate Hraise.
Defined.

End AnswerFacts.

(** ** The text of a validated request *)

Module PromptFacts.
Import WebsearchFacts.

Lemma append_empty (a b : string) : a +:+ b = "" → a = "" ∧ b = "".
Proof. destruct a; [done|]. rewrite string_app_cons. done. Qed.

Lemma join_empty (sep : string) (parts : list string) :
  sep ≠ "" → join sep parts = "" → parts = [] ∨ parts = [""].
Proof.
  intros Hsep. destruct parts as [|p [|q rest]]; [by left | |].
  - simpl. intros ->. by right.
  - change (join sep (p :: q :: rest)) with (p +:+ sep +:+ join sep (q :: rest)).
    intros [_ [? _]%append_empty]%append_empty. done.
Qed.

Lemma paragraph_sep_nonempty : Main.paragraph_sep ≠ "".
Proof. by vm_compute. Qed.

(** X15. The text of a request that passed the validator.  The validator
    returns the request unchanged; a non-empty [message] is the text,
    whatever [messages] holds; and the text is the empty string exactly
    when [message] is absent or empty and [messages] is the list with the
    empty string as its only element, so that a validated request can
    still carry no text. *)
Theorem validated_request_text (req req' : Main.ChatRequest) :
  Main.ensure_message req = Return req' →
  req' = req
  ∧ (∀ s, Main.message req = Some s → s ≠ "" → Main.combined_message req = s)
  ∧ (Main.combined_message req = ""
     ↔ truthy_opt truthy_str (Main.message req) = false
       ∧ Main.messages req = Some [""]).
Proof.
  unfold Main.ensure_message, Main.combined_message.
  destruct req as [[s|] ms hist]; cbn [Main.message Main.messages truthy_opt].
  - destruct s as [|c s]; cbn [truthy_str negb andb default].
    + destruct ms as [[|p ps]|]; cbn [truthy_opt truthy_list negb default];
        try done.
      intros [= <-]. split; [done|]. split; [by intros ? [= <-] |].
      split.
      * intros Hj.
        destruct (join_empty Main.paragraph_sep (p :: ps) paragraph_sep_nonempty Hj)
          as [Hnil|Heq]; [done | by rewrite Heq].
      * by intros [_ [= -> ->]].
    + intros [= <-]. split; [done|]. split; [by intros ? [= <-] |].
      split; [done | by intros [? _]].
  - destruct ms as [[|p ps]|]; cbn [truthy_opt truthy_list negb andb default];
      try done.
    intros [= <-]. split; [done|]. split; [done|].
    split.
    + intros Hj.
      destruct (join_empty Main.paragraph_sep (p :: ps) paragraph_sep_nonempty Hj)
        as [Hnil|Heq]; [done | by rewrite Heq].
    + by intros [_ [= -> ->]].
Qed.

Lemma validated_request_text_witness :
  Main.combined_message
    {| Main.message := None; Main.messages := Some [""]; Main.history := None |}
  = "".
Proof.
  destruct (validated_request_text
              {| Main.message := None; Main.messages := Some [""];
                 Main.history := None |}
              {| Main.message := None; Main.messages := Some [""];
                 Main.history := None |})
    as (_ & _ & Hempty).
  - reflexivity.
  - apply Hempty. split; reflexivity.
Defined.

End PromptFacts.

(** ** Search results of the wrong shape *)

Module SearchExtras.
Import Websearch SearchTerms RunTerms WebsearchFacts.

Lemma format_results_no_get ds ty rest idx acc :
  format_results idx ((Dict <$> ds) ++ NotDict ty :: rest) acc
  = Raise (Exn AttributeError ("'" +:+ ty +:+ "' object has no attribute 'get'")).
Proof.
  revert idx acc. induction ds as [|d ds IH]; intros idx acc; [done|].
  rewrite fmap_cons.
  change (format_result idx (Dict d)
            ≫= (λ lines, format_results (S idx)
                           ((Dict <$> ds) ++ NotDict ty :: rest) (acc +:+ lines))
          = Raise (Exn AttributeError
                     ("'" +:+ ty +:+ "' object has no attribute 'get'"))).
  rewrite format_result_dict. apply IH.
Qed.

(** X16. The search tool is all or nothing.  When the backend answers
    with a list in which some element is not a dict, the tool returns the
    text of the attribute error for the first such element: the header
    and the snippets of the results before it are discarded, and the
    results after it are not looked at. *)
Theorem web_search_discards_partial_output
    (tavily_invoke : string → Py.result search_value) (query : string)
    (ds : list (list (string * pyval))) (ty : string) (rest : list item) :
  tavily_invoke query = Return (Items ((Dict <$> ds) ++ NotDict ty :: rest)) →
  web_search_nutrition tavily_invoke query = Return (no_get_text ty).
Proof.
  intros Hcall. unfold web_search_nutrition, search_body. rewrite Hcall.
  change (Return ?v ≫= ?k) with (k v). cbv beta.
  assert (truthy (Items ((Dict <$> ds) ++ NotDict ty :: rest)) = true) as ->.
  { by destruct ds. }
  cbn [negb iter].
  change (Return ?v ≫= ?k) with (k v). cbv beta.
  by rewrite format_results_no_get.
Qed.

Lemma web_search_discards_partial_output_witness :
  web_search_nutrition
    (λ _, Return (Items [Dict [("title", str_val "Rice, cooked")];
                         NotDict "str"; Dict []]))
    "rice"
  = Return "Error performing web search: 'str' object has no attribute 'get'".
Proof.
  apply (web_search_discards_partial_output
           (λ _, Return (Items [Dict [("title", str_val "Rice, cooked")];
                                NotDict "str"; Dict []]))
           "rice" [[("title", str_val "Rice, cooked")]] "str" [Dict []]).
  reflexivity.
Defined.

End SearchExtras.

(** ** The search tool on the backend it is built with *)

Module SearchClaims.
Import Websearch SearchTerms RunTerms WebsearchFacts SearchExtras.

(** C5. The tool returns a string for every query and never raises, but
    on the backend [websearch.py] builds it never returns snippets.  That
    backend answers with a dict, the loop of the tool iterates the dict
    itself and not the list under its key ["results"], each element is a
    key, a string without [get], and the attribute error is caught: for
    every search that the backend answers, successful or failed, the tool
    returns the text of that attribute error; when the backend raises,
    the text of what it raised. *)
Theorem web_search_never_formats_tavily_results
    (tavily_invoke : string → Py.result search_value) (query : string) :
  answers_with_dict tavily_invoke →
  ∃ reason,
    web_search_nutrition tavily_invoke query
    = Return ("Error performing web search: " +:+ reason)
    ∧ (∀ e, tavily_invoke query = Raise e → reason = exn_str e)
    ∧ (∀ keys, tavily_invoke query = Return (dict_value keys) →
         reason = "'str' object has no attribute 'get'").
Proof.
  intros Hdict.
  destruct (Hdict query) as [(e & Hcall) | (keys & Hkeys & Hcall)].
  - exists (exn_str e). split.
    + unfold web_search_nutrition, search_body. by rewrite Hcall.
    + split; [intros e' He'; congruence | intros keys He'; congruence].
  - exists "'str' object has no attribute 'get'". split.
    + destruct keys as [|key keys]; [done|].
      unfold web_search_nutrition, search_body. rewrite Hcall.
      change (Return ?v ≫= ?k) with (k v). cbv beta.
      unfold dict_value. rewrite fmap_cons. cbn [truthy truthy_list negb iter].
      change (Return ?v ≫= ?k) with (k v). cbv beta.
      match goal with
      | |- context [format_results ?i (NotDict "str" :: ?r) ?a] =>
          change (format_results i (NotDict "str" :: r) a)
            with (format_results i ((Dict <$> []) ++ NotDict "str" :: r) a)
      end.
      by rewrite format_results_no_get.
    + split; [intros e He; congruence | done].
Qed.

Lemma web_search_never_formats_tavily_results_witness :
  web_search_nutrition Stubs.tavily_search "calories in cooked rice"
  = Return "Error performing web search: 'str' object has no attribute 'get'".
Proof.
  destruct (web_search_never_formats_tavily_results Stubs.tavily_search
              "calories in cooked rice")
    as (reason & Hres & _ & Hreason).
  - intros query. right. eexists. split; [|reflexivity]. discriminate.
  - rewrite Hres. by rewrite (Hreason _ eq_refl).
Defined.

End SearchClaims.
